(** * A shallow embedding of the spreadsheet engine

    The development follows [src/spreadsheet/sheet.cpp], which holds the
    sheet (lines 1-123) followed by the cell (lines 123-327), and the formula
    file [src/unnamed/part_000] (called [formula.cpp] below):
    a sheet owns a sparse map from positions to cells, a cell owns a body
    ([Impl]) and two adjacency sets, and a formula wraps an expression tree.

    Cells live on the heap behind [std::unique_ptr] and are never moved, and
    an entry of the map is never erased, so a [Cell*] is identified with the
    position whose map entry owns the cell; [nullptr] is [None]. *)

From Stdlib Require Import ZArith String Ascii.
From Stdlib Require Import Floats.
From stdpp Require Import gmap strings list fin_maps pretty.

#[local] Set Warnings "-clear-no-such-hyp".

Local Open Scope Z_scope.

(** ** Positions *)

Record Position := mkPosition { row : Z; col : Z }.

#[global] Instance Position_eq_dec : EqDecision Position.
Proof. solve_decision. Defined.

#[global] Instance Position_countable : Countable Position.
Proof.
  refine (inj_countable' (fun p => (row p, col p))
                         (fun rc => mkPosition (fst rc) (snd rc)) _).
  intros []. reflexivity.
Defined.

Record Size := mkSize { rows : Z; cols : Z }.

(** ** Formula errors (formula.cpp, lines 12-37) *)

Module FormulaError.
Inductive Category := Ref | Value | Arithmetic.

Definition ToString (c : Category) : string :=
  match c with
  | Ref => "#REF!"
  | Value => "#VALUE!"
  | Arithmetic => "#ARITHM!"
  end.
End FormulaError.

#[global] Instance Category_eq_dec : EqDecision FormulaError.Category.
Proof. solve_decision. Defined.

(** ** Expression trees

    Modelled from the spec: [FormulaAST.h] and [FormulaAST.cpp] are not among
    the sources.  Section 4.3 describes the tree: decimal literals, cell
    references, unary [+]/[-], binary [+], [-], [*], [/]. *)

Inductive UnaryOp := UnaryPlus | UnaryMinus.
Inductive BinaryOp := Add | Subtract | Multiply | Divide.

Inductive FormulaAST :=
| NumberExpr (value : float)
| CellExpr (cell : Position)
| UnaryOpExpr (op : UnaryOp) (operand : FormulaAST)
| BinaryOpExpr (op : BinaryOp) (lhs rhs : FormulaAST).

(** Modelled from the spec: [FormulaAST::GetCells] "returns the positions
    appearing in the tree, in source order. May include invalid and duplicate
    positions." *)
Fixpoint GetCells (e : FormulaAST) : list Position :=
  match e with
  | NumberExpr _ => []
  | CellExpr p => [p]
  | UnaryOpExpr _ a => GetCells a
  | BinaryOpExpr _ l r => GetCells l ++ GetCells r
  end.

(** ** What the sources take from elsewhere

    [Position::MAX_ROWS], [Position::MAX_COLS], the parser and printer of
    [FormulaAST], and the stream extraction [in >> result] of the C++ library
    are outside the translated files.  [ReadDouble text] describes
    [std::istringstream in(text); in >> result]: the extracted number when the
    extraction succeeds, and the value of [in.eof()] afterwards. *)

Class Platform := {
  MAX_ROWS : Z;
  MAX_COLS : Z;
  ParseFormulaAST : string -> option FormulaAST;
  PrintFormula : FormulaAST -> string;
  ReadDouble : string -> option float * bool
}.

Definition FORMULA_SIGN : ascii := "="%char.
Definition ESCAPE_SIGN : ascii := "'"%char.

(** ** Values, bodies, cells, the sheet *)

Module FormulaInterface.
Inductive Value :=
| Number (d : float)
| Error (e : FormulaError.Category).
End FormulaInterface.

Module CellInterface.
Inductive Value :=
| Text (s : string)
| Number (d : float)
| Error (e : FormulaError.Category).
End CellInterface.

Record Formula := mkFormula { ast_ : FormulaAST }.

Inductive Impl :=
| EmptyImpl
| TextImpl (text_ : string)
| FormulaImpl (formula_ptr_ : Formula) (cache_ : option FormulaInterface.Value).

Record Cell := mkCell {
  impl_ : Impl;
  l_nodes_ : gset Position;   (* incoming: cells whose formulas read this one *)
  r_nodes_ : gset Position    (* outgoing: cells this one's formula reads *)
}.

(** A [Cell*]. *)
Definition CellPtr := option Position.

(** [cells_] maps a position to its [unique_ptr<Cell>]: [Some None] is an
    entry whose pointer has been [reset()].  [evaluate_calls] is a ghost
    counter of the calls of [Formula::Evaluate]; no operation reads it. *)
Record Sheet := mkSheet {
  cells_ : gmap Position (option Cell);
  evaluate_calls : nat
}.

Definition CreateSheet : Sheet := mkSheet ∅ 0.

(** ** Outcomes of a call *)

Inductive Exception :=
| InvalidPositionException
| FormulaException
| CircularDependencyException
| ThrownFormulaError (e : FormulaError.Category)
| logic_error
| invalid_argument
| bad_variant_access.

#[global] Instance Exception_eq_dec : EqDecision Exception.
Proof. solve_decision. Defined.

(** A call returns, throws (the sheet is then as the throw left it),
    dereferences a null or dangling pointer, or is still running when the
    fuel is spent. *)
Inductive Outcome (A : Type) :=
| Returns (a : A) (s : Sheet)
| Throws (e : Exception) (s : Sheet)
| Undefined
| OutOfFuel.

Arguments Returns {A} a s.
Arguments Throws {A} e s.
Arguments Undefined {A}.
Arguments OutOfFuel {A}.

Definition M (A : Type) : Type := Sheet -> Outcome A.

Definition ret {A} (a : A) : M A := fun s => Returns a s.

Definition bind {A B} (m : M A) (k : A -> M B) : M B :=
  fun s =>
    match m s with
    | Returns a s' => k a s'
    | Throws e s' => Throws e s'
    | Undefined => Undefined
    | OutOfFuel => OutOfFuel
    end.

Definition throw {A} (e : Exception) : M A := fun s => Throws e s.
Definition undefined {A} : M A := fun _ => Undefined.
Definition out_of_fuel {A} : M A := fun _ => OutOfFuel.
Definition get : M Sheet := fun s => Returns s s.
Definition put (s : Sheet) : M unit := fun _ => Returns tt s.

Declare Scope cpp_scope.
Delimit Scope cpp_scope with cpp.
Notation "'do' x <- m ; k" := (bind m (fun x => k))
  (at level 10, x name, m at level 100, k at level 200) : cpp_scope.
Notation "m ;; k" := (bind m (fun _ => k))
  (at level 100, k at level 200, right associativity) : cpp_scope.
Local Open Scope cpp_scope.

(** [for (x : xs) body(x)]. *)
Fixpoint for_each {A} (xs : list A) (body : A -> M unit) : M unit :=
  match xs with
  | [] => ret tt
  | x :: xs' => body x ;; for_each xs' body
  end.

(** Access to the cell behind a pointer: undefined when there is none. *)
Definition live (s : Sheet) (p : Position) : option Cell :=
  match cells_ s !! p with
  | Some (Some c) => Some c
  | _ => None
  end.

Definition deref (p : Position) : M Cell :=
  fun s => match live s p with
           | Some c => Returns c s
           | None => Undefined
           end.

Definition store (p : Position) (c : Cell) : M unit :=
  fun s => Returns tt (mkSheet (<[p := Some c]> (cells_ s)) (evaluate_calls s)).

(** [ptr->field = f(ptr->field)]. *)
Definition update (p : Position) (f : Cell -> Cell) : M unit :=
  do c <- deref p; store p (f c).

Section Engine.
Context `{Platform}.

(** Modelled from the spec: [Position::IsValid] is not among the sources.
    Section 3: "Valid range: 0 <= row < MAX_ROWS, 0 <= col < MAX_COLS". *)
Definition IsValid (p : Position) : bool :=
  (0 <=? row p) && (row p <? MAX_ROWS) && (0 <=? col p) && (col p <? MAX_COLS).

(** *** Sheet: lookup (sheet.cpp, lines 16-20 and 91-105) *)

Definition Sheet_ValidatePosition (pos : Position) : M unit :=
  if IsValid pos then ret tt else throw InvalidPositionException.

Definition Sheet_GetCellPtr (pos : Position) : M CellPtr :=
  Sheet_ValidatePosition pos ;;
  do s <- get;
  match cells_ s !! pos with
  | None => ret None
  | Some uptr => ret (match uptr with Some _ => Some pos | None => None end)
  end.

Definition Sheet_GetCell (pos : Position) : M CellPtr := Sheet_GetCellPtr pos.

(** *** Formula (formula.cpp, lines 41-128) *)

(** [std::unique]: of every run of equal neighbours one element is kept. *)
Fixpoint std_unique (l : list Position) : list Position :=
  match l with
  | [] => []
  | x :: t =>
      match t with
      | [] => [x]
      | y :: _ => if decide (x = y) then std_unique t else x :: std_unique t
      end
  end.

Definition Formula_GetReferencedCells (f : Formula) : list Position :=
  std_unique (filter (fun cell => IsValid cell) (GetCells (ast_ f))).

Definition Formula_GetExpression (f : Formula) : string :=
  PrintFormula (ast_ f).

Definition ParseFormula (expression : string) : M Formula :=
  match ParseFormulaAST expression with
  | Some ast => ret (mkFormula ast)
  | None => throw FormulaException
  end.

Definition ConvertStringToDouble (value : string) : M float :=
  match value with
  | EmptyString => ret 0%float
  | _ =>
      match ReadDouble value with
      | (Some result, true) => ret result
      | _ => throw (ThrownFormulaError FormulaError.Value)
      end
  end.

(** [std::get<T>] on a variant that holds another alternative throws. *)
Definition get_double (v : CellInterface.Value) : M float :=
  match v with CellInterface.Number d => ret d | _ => throw bad_variant_access end.
Definition get_string (v : CellInterface.Value) : M string :=
  match v with CellInterface.Text t => ret t | _ => throw bad_variant_access end.
Definition get_FormulaError (v : CellInterface.Value) : M FormulaError.Category :=
  match v with CellInterface.Error e => ret e | _ => throw bad_variant_access end.

Definition holds_double (v : CellInterface.Value) : bool :=
  match v with CellInterface.Number _ => true | _ => false end.
Definition holds_string (v : CellInterface.Value) : bool :=
  match v with CellInterface.Text _ => true | _ => false end.

(** [GetValue] is the virtual [CellInterface::GetValue] of the cell behind the
    pointer; every mention of [cell->GetValue()] is a call of its own. *)
Definition Formula_EvaluateCell (GetValue : Position -> M CellInterface.Value)
    (p : Position) : M float :=
  if negb (IsValid p) then throw (ThrownFormulaError FormulaError.Ref)
  else
    do cell <- Sheet_GetCell p;
    match cell with
    | None => ret 0%float
    | Some c =>
        do v1 <- GetValue c;
        if holds_double v1 then (do v2 <- GetValue c; get_double v2)
        else
          do v2 <- GetValue c;
          if holds_string v2
          then (do v3 <- GetValue c; do str <- get_string v3;
                ConvertStringToDouble str)
          else (do v3 <- GetValue c; do e <- get_FormulaError v3;
                throw (ThrownFormulaError e))
    end.

Definition apply_unary (op : UnaryOp) (v : float) : float :=
  match op with UnaryPlus => v | UnaryMinus => PrimFloat.opp v end.

Definition apply_binary (op : BinaryOp) (a b : float) : float :=
  match op with
  | Add => PrimFloat.add a b
  | Subtract => PrimFloat.sub a b
  | Multiply => PrimFloat.mul a b
  | Divide => PrimFloat.div a b
  end.

Definition checked (res : float) : M float :=
  if PrimFloat.is_finite res then ret res
  else throw (ThrownFormulaError FormulaError.Arithmetic).

(** Modelled from the spec: [FormulaAST::Execute] "evaluates the tree, calling
    lookup(position) for each reference.  lookup may raise FormulaError; that
    error aborts evaluation and propagates out.  After every arithmetic
    operation, the result is checked: if not finite, evaluation fails with
    Arithmetic." *)
Fixpoint Execute (e : FormulaAST) (args : Position -> M float) : M float :=
  match e with
  | NumberExpr d => ret d
  | CellExpr p => args p
  | UnaryOpExpr op a => do v <- Execute a args; checked (apply_unary op v)
  | BinaryOpExpr op l r =>
      do a <- Execute l args;
      do b <- Execute r args;
      checked (apply_binary op a b)
  end.

(** [try { ... } catch (FormulaError& e) { ... }] *)
Definition catch_FormulaError {A} (body : M A)
    (handler : FormulaError.Category -> M A) : M A :=
  fun s =>
    match body s with
    | Throws (ThrownFormulaError e) s' => handler e s'
    | o => o
    end.

Definition count_Evaluate : M unit :=
  fun s => Returns tt (mkSheet (cells_ s) (S (evaluate_calls s))).

Definition Formula_Evaluate (GetValue : Position -> M CellInterface.Value)
    (f : Formula) : M FormulaInterface.Value :=
  count_Evaluate ;;
  catch_FormulaError
    (do d <- Execute (ast_ f) (Formula_EvaluateCell GetValue);
     ret (FormulaInterface.Number d))
    (fun e => ret (FormulaInterface.Error e)).

(** *** Cell bodies (sheet.cpp, lines 132-220) *)

Definition Impl_GetReferencedCells (impl : Impl) : list Position :=
  match impl with
  | FormulaImpl f _ => Formula_GetReferencedCells f
  | _ => []
  end.

Definition Impl_IsCacheValid (impl : Impl) : bool :=
  match impl with
  | FormulaImpl _ cache => match cache with Some _ => true | None => false end
  | _ => true
  end.

Definition Impl_InvalidateCache (impl : Impl) : Impl :=
  match impl with
  | FormulaImpl f _ => FormulaImpl f None
  | other => other
  end.

Definition Impl_GetText (impl : Impl) : string :=
  match impl with
  | EmptyImpl => ""
  | TextImpl text => text
  | FormulaImpl f _ => String FORMULA_SIGN (Formula_GetExpression f)
  end.

Definition TextImpl_GetValue (text : string) : CellInterface.Value :=
  match text with
  | String c rest =>
      if decide (c = ESCAPE_SIGN) then CellInterface.Text rest
      else CellInterface.Text text
  | EmptyString => CellInterface.Text text
  end.

Definition TextImpl_new (text : string) : M Impl :=
  match text with
  | EmptyString => throw logic_error
  | _ => ret (TextImpl text)
  end.

Definition FormulaImpl_new (expression : string) : M Impl :=
  match expression with
  | EmptyString => throw invalid_argument
  | String c rest =>
      if decide (c = FORMULA_SIGN)
      then (do f <- ParseFormula rest; ret (FormulaImpl f None))
      else throw invalid_argument
  end.

Definition set_impl (impl : Impl) (c : Cell) : Cell :=
  mkCell impl (l_nodes_ c) (r_nodes_ c).
Definition set_l_nodes (l : gset Position) (c : Cell) : Cell :=
  mkCell (impl_ c) l (r_nodes_ c).
Definition set_r_nodes (r : gset Position) (c : Cell) : Cell :=
  mkCell (impl_ c) (l_nodes_ c) r.

(** [cache_ = value] inside [FormulaImpl::GetValue]. *)
Definition set_cache (v : FormulaInterface.Value) (c : Cell) : Cell :=
  match impl_ c with
  | FormulaImpl f _ => set_impl (FormulaImpl f (Some v)) c
  | _ => c
  end.

Definition to_cell_value (v : FormulaInterface.Value) : CellInterface.Value :=
  match v with
  | FormulaInterface.Number d => CellInterface.Number d
  | FormulaInterface.Error e => CellInterface.Error e
  end.

(** *** Cell (sheet.cpp, lines 223-327) *)

(** [Cell::GetValue], with the three bodies inlined. *)
Fixpoint Cell_GetValue (fuel : nat) (this : Position) : M CellInterface.Value :=
  match fuel with
  | O => out_of_fuel
  | S fuel' =>
      do c <- deref this;
      match impl_ c with
      | EmptyImpl => ret (CellInterface.Text "")
      | TextImpl text => ret (TextImpl_GetValue text)
      | FormulaImpl f cache =>
          (match cache with
           | None =>
               do v <- Formula_Evaluate (Cell_GetValue fuel') f;
               update this (set_cache v)
           | Some _ => ret tt
           end) ;;
          do value <- Formula_Evaluate (Cell_GetValue fuel') f;
          ret (to_cell_value value)
      end
  end.

Definition Cell_GetText (c : Cell) : string := Impl_GetText (impl_ c).
Definition Cell_GetReferencedCells (c : Cell) : list Position :=
  Impl_GetReferencedCells (impl_ c).
Definition Cell_IsReferenced (c : Cell) : bool :=
  negb (bool_decide (l_nodes_ c = ∅)).

Definition new_Cell : Cell := mkCell EmptyImpl ∅ ∅.

Fixpoint collect_referenced (refs : list Position) (referenced : gset CellPtr)
    : M (gset CellPtr) :=
  match refs with
  | [] => ret referenced
  | pos :: rest =>
      do ptr <- Sheet_GetCellPtr pos;
      collect_referenced rest ({[ ptr ]} ∪ referenced)
  end.

Definition push_unvisited (visited : gset Position) (incoming : list Position)
    (to_visit : list Position) : list Position :=
  foldl (fun st c => if decide (c ∈ visited) then st else c :: st)
        to_visit incoming.

(** The [while (!to_visit.empty())] loop. *)
Fixpoint visit_loop (fuel : nat) (referenced : gset CellPtr)
    (to_visit : list Position) (visited : gset Position) : M bool :=
  match to_visit with
  | [] => ret false
  | current :: rest =>
      match fuel with
      | O => out_of_fuel
      | S fuel' =>
          let visited' := {[ current ]} ∪ visited in
          if decide (Some current ∈ referenced) then ret true
          else
            do c <- deref current;
            visit_loop fuel' referenced
              (push_unvisited visited' (elements (l_nodes_ c)) rest) visited'
      end
  end.

Definition Cell_WouldIntroduceCircularDependency (fuel : nat) (this : Position)
    (new_impl : Impl) : M bool :=
  match Impl_GetReferencedCells new_impl with
  | [] => ret false
  | _ =>
      do referenced <- collect_referenced (Impl_GetReferencedCells new_impl) ∅;
      visit_loop fuel referenced [this] ∅
  end.

(** Modelled from the spec: the default argument of
    [InvalidateCacheRecursive] is declared in [cell.h], which is not among the
    sources.  Section 4.5.2: "for each c in incoming, call
    c.invalidate(force=false)". *)
Definition InvalidateCacheRecursive_default_force : bool := false.

Fixpoint Cell_InvalidateCacheRecursive (fuel : nat) (force : bool)
    (this : Position) : M unit :=
  match fuel with
  | O => out_of_fuel
  | S fuel' =>
      do c <- deref this;
      if Impl_IsCacheValid (impl_ c) || force then
        update this (fun c => set_impl (Impl_InvalidateCache (impl_ c)) c) ;;
        for_each (elements (l_nodes_ c))
          (Cell_InvalidateCacheRecursive fuel'
             InvalidateCacheRecursive_default_force)
      else ret tt
  end.

Definition Cell_CreateImpl (text : string) : M Impl :=
  match text with
  | EmptyString => ret EmptyImpl
  | String c _ =>
      if (1 <? String.length text)%nat && bool_decide (c = FORMULA_SIGN)
      then FormulaImpl_new text
      else TextImpl_new text
  end.

Section CellSet.
(** [sheet_.SetCell], which [UpdateDependencies] calls back. *)
Variable SetCell : Position -> string -> M unit.

Definition Cell_UpdateDependencies (this : Position) : M unit :=
  do c <- deref this;
  for_each (Impl_GetReferencedCells (impl_ c)) (fun pos =>
    do found <- Sheet_GetCellPtr pos;
    do outgoing <-
      match found with
      | Some q => ret q
      | None =>
          SetCell pos "" ;;
          do made <- Sheet_GetCellPtr pos;
          match made with Some q => ret q | None => undefined end
      end;
    update this (fun c => set_r_nodes ({[ outgoing ]} ∪ r_nodes_ c) c) ;;
    update outgoing (fun o => set_l_nodes ({[ this ]} ∪ l_nodes_ o) o)).

Definition Cell_Set (fuel : nat) (this : Position) (text : string) : M unit :=
  do impl <- Cell_CreateImpl text;
  do cyclic <- Cell_WouldIntroduceCircularDependency fuel this impl;
  if (cyclic : bool) then throw CircularDependencyException
  else
    update this (set_impl impl) ;;
    do c <- deref this;
    for_each (elements (r_nodes_ c)) (fun outgoing =>
      update outgoing (fun o => set_l_nodes (l_nodes_ o ∖ {[ this ]}) o)) ;;
    update this (set_r_nodes ∅) ;;
    Cell_UpdateDependencies this ;;
    Cell_InvalidateCacheRecursive fuel true this.
End CellSet.

(** *** Sheet (sheet.cpp, lines 22-64) *)

Definition emplace (pos : Position) (c : Cell) : M unit := store pos c.

(** [unique_ptr::reset()]: the entry stays, its pointer is null. *)
Definition reset (pos : Position) : M unit :=
  fun s => Returns tt (mkSheet (<[pos := None]> (cells_ s)) (evaluate_calls s)).

(** [Sheet::SetCell] and [Cell::Set] call each other through
    [UpdateDependencies]; the fuel bounds the depth of that recursion as well
    as the loops below it. *)
Fixpoint Sheet_SetCell (fuel : nat) (pos : Position) (text : string) : M unit :=
  match fuel with
  | O => out_of_fuel
  | S fuel' =>
      Sheet_ValidatePosition pos ;;
      do s <- get;
      (match cells_ s !! pos with
       | None => emplace pos new_Cell
       | Some _ => ret tt
       end) ;;
      deref pos ;;
      Cell_Set (Sheet_SetCell fuel') fuel' pos text
  end.

Definition Cell_Clear (fuel : nat) (this : Position) : M unit :=
  Cell_Set (Sheet_SetCell fuel) fuel this "".

Definition Sheet_ClearCell (fuel : nat) (pos : Position) : M unit :=
  Sheet_ValidatePosition pos ;;
  do s <- get;
  match cells_ s !! pos with
  | Some (Some _) =>
      Cell_Clear fuel pos ;;
      do c <- deref pos;
      if Cell_IsReferenced c then ret tt else reset pos
  | _ => ret tt
  end.

Definition Sheet_GetPrintableSize (s : Sheet) : Size :=
  map_fold (fun pos (cell : option Cell) result =>
              match cell with
              | Some c =>
                  if negb (bool_decide (Cell_GetText c = ""))
                  then mkSize (Z.max (rows result) (row pos + 1))
                              (Z.max (cols result) (col pos + 1))
                  else result
              | None => result
              end)
           (mkSize 0 0) (cells_ s).

(** [sheet.GetCell(pos)->GetValue()], for a caller that checks for null. *)
Definition Sheet_GetValue (fuel : nat) (pos : Position)
    : M (option CellInterface.Value) :=
  do cell <- Sheet_GetCell pos;
  match cell with
  | Some c => do v <- Cell_GetValue fuel c; ret (Some v)
  | None => ret None
  end.

End Engine.

(** ** A concrete platform

    Modelled from the spec: the formula grammar of section 6, the textual form
    of positions of section 3 and the printing rule of section 4.3, over
    bounds [max_rows] x [max_cols].  A number of a formula is a decimal
    literal (digits, an optional fraction, an optional exponent) and is read
    as the double nearest to it; a number is written as the shortest
    decimal that is read back as the same double (section 6). *)

Module Reference.

Definition is_digit (c : ascii) : bool :=
  let n := Z.of_N (N_of_ascii c) in (48 <=? n) && (n <=? 57).
Definition is_upper (c : ascii) : bool :=
  let n := Z.of_N (N_of_ascii c) in (65 <=? n) && (n <=? 90).
Definition is_space (c : ascii) : bool :=
  let n := Z.of_N (N_of_ascii c) in
  (n =? 32) || (n =? 9) || (n =? 10) || (n =? 13).

Fixpoint span (f : ascii -> bool) (cs : list ascii) : list ascii * list ascii :=
  match cs with
  | c :: r => if f c then let '(a, b) := span f r in (c :: a, b) else ([], cs)
  | [] => ([], [])
  end.

Definition digits_value (ds : list ascii) : Z :=
  foldl (fun acc c => 10 * acc + (Z.of_N (N_of_ascii c) - 48)) 0 ds.

Definition letters_value (ls : list ascii) : Z :=
  foldl (fun acc c => 26 * acc + (Z.of_N (N_of_ascii c) - 64)) 0 ls - 1.

Definition NONE : Position := mkPosition (-1) (-1).

Definition in_range (max_rows max_cols : Z) (p : Position) : bool :=
  (0 <=? row p) && (row p <? max_rows) && (0 <=? col p) && (col p <? max_cols).

(** The double nearest to [num / den], ties to even: the division of
    IEEE 754 on integers of any size.  It is an infinity when the quotient
    lies beyond the largest double. *)
Definition nearest_double (num den : positive) : float :=
  SF2Prim (SFdiv FloatOps.prec FloatOps.emax
             (S754_finite false num 0) (S754_finite false den 0)).

(** The double the decimal [m * 10^e] is read as. *)
Definition decimal_value (m e : Z) : float :=
  match m with
  | Zpos p =>
      if 0 <=? e then nearest_double (p * Z.to_pos (10 ^ e)) 1
      else nearest_double p (Z.to_pos (10 ^ (- e)))
  | _ => 0%float
  end.

Definition scan_sign (cs : list ascii) : bool * list ascii :=
  match cs with
  | s :: r =>
      if bool_decide (s = "-"%char) then (true, r)
      else if bool_decide (s = "+"%char) then (false, r)
      else (false, cs)
  | [] => (false, cs)
  end.

Definition scan_exponent (cs : list ascii) : Z * list ascii :=
  match cs with
  | c :: r =>
      if bool_decide (c = "e"%char) || bool_decide (c = "E"%char) then
        let '(neg, r1) := scan_sign r in
        let '(ds, r2) := span is_digit r1 in
        match ds with
        | [] => (0, cs)
        | _ => ((if neg then - digits_value ds else digits_value ds), r2)
        end
      else (0, cs)
  | [] => (0, cs)
  end.

Definition scan_number (cs : list ascii) : option (float * list ascii) :=
  let '(int_ds, r1) := span is_digit cs in
  let '(frac_ds, r2) :=
    match r1 with
    | c :: r =>
        if bool_decide (c = "."%char) then
          let '(ds, r') := span is_digit r in
          match ds with [] => ([], r1) | _ => (ds, r') end
        else ([], r1)
    | [] => ([], r1)
    end in
  match int_ds ++ frac_ds with
  | [] => None
  | all_ds =>
      let '(e, r3) := scan_exponent r2 in
      let v := decimal_value (digits_value all_ds)
                 (e - Z.of_nat (length frac_ds)) in
      if PrimFloat.is_finite v then Some (v, r3) else None
  end.

Inductive token :=
| TNumber (d : float) | TCell (p : Position)
| TPlus | TMinus | TStar | TSlash | TLParen | TRParen.

Definition scan_cell (max_rows max_cols : Z) (cs : list ascii)
    : option (Position * list ascii) :=
  let '(ls, r1) := span is_upper cs in
  let '(ds, r2) := span is_digit r1 in
  match ls, ds with
  | _ :: _, d :: _ =>
      if bool_decide (d = "0"%char) then None
      else
        let p := mkPosition (digits_value ds - 1) (letters_value ls) in
        Some (if in_range max_rows max_cols p then p else NONE, r2)
  | _, _ => None
  end.

Fixpoint tokenize (max_rows max_cols : Z) (fuel : nat) (cs : list ascii)
    : option (list token) :=
  match fuel with
  | O => None
  | S n =>
      match cs with
      | [] => Some []
      | c :: r =>
          let simple t := option_map (cons t) (tokenize max_rows max_cols n r) in
          if is_space c then tokenize max_rows max_cols n r
          else if bool_decide (c = "+"%char) then simple TPlus
          else if bool_decide (c = "-"%char) then simple TMinus
          else if bool_decide (c = "*"%char) then simple TStar
          else if bool_decide (c = "/"%char) then simple TSlash
          else if bool_decide (c = "("%char) then simple TLParen
          else if bool_decide (c = ")"%char) then simple TRParen
          else if is_upper c then
            match scan_cell max_rows max_cols cs with
            | Some (p, r') =>
                option_map (cons (TCell p)) (tokenize max_rows max_cols n r')
            | None => None
            end
          else
            match scan_number cs with
            | Some (d, r') =>
                option_map (cons (TNumber d)) (tokenize max_rows max_cols n r')
            | None => None
            end
      end
  end.

Fixpoint parse_expr (fuel : nat) (ts : list token)
    : option (FormulaAST * list token) :=
  match fuel with
  | O => None
  | S n =>
      match parse_term n ts with
      | Some (e, r) => expr_rest n e r
      | None => None
      end
  end
with expr_rest (fuel : nat) (lhs : FormulaAST) (ts : list token)
    : option (FormulaAST * list token) :=
  match fuel with
  | O => None
  | S n =>
      match ts with
      | TPlus :: r =>
          match parse_term n r with
          | Some (rhs, r') => expr_rest n (BinaryOpExpr Add lhs rhs) r'
          | None => None
          end
      | TMinus :: r =>
          match parse_term n r with
          | Some (rhs, r') => expr_rest n (BinaryOpExpr Subtract lhs rhs) r'
          | None => None
          end
      | _ => Some (lhs, ts)
      end
  end
with parse_term (fuel : nat) (ts : list token)
    : option (FormulaAST * list token) :=
  match fuel with
  | O => None
  | S n =>
      match parse_unary n ts with
      | Some (e, r) => term_rest n e r
      | None => None
      end
  end
with term_rest (fuel : nat) (lhs : FormulaAST) (ts : list token)
    : option (FormulaAST * list token) :=
  match fuel with
  | O => None
  | S n =>
      match ts with
      | TStar :: r =>
          match parse_unary n r with
          | Some (rhs, r') => term_rest n (BinaryOpExpr Multiply lhs rhs) r'
          | None => None
          end
      | TSlash :: r =>
          match parse_unary n r with
          | Some (rhs, r') => term_rest n (BinaryOpExpr Divide lhs rhs) r'
          | None => None
          end
      | _ => Some (lhs, ts)
      end
  end
with parse_unary (fuel : nat) (ts : list token)
    : option (FormulaAST * list token) :=
  match fuel with
  | O => None
  | S n =>
      match ts with
      | TPlus :: r =>
          match parse_unary n r with
          | Some (e, r') => Some (UnaryOpExpr UnaryPlus e, r')
          | None => None
          end
      | TMinus :: r =>
          match parse_unary n r with
          | Some (e, r') => Some (UnaryOpExpr UnaryMinus e, r')
          | None => None
          end
      | TNumber d :: r => Some (NumberExpr d, r)
      | TCell p :: r => Some (CellExpr p, r)
      | TLParen :: r =>
          match parse_expr n r with
          | Some (e, TRParen :: r') => Some (e, r')
          | _ => None
          end
      | _ => None
      end
  end.

Definition parse (max_rows max_cols : Z) (text : string) : option FormulaAST :=
  let cs := list_ascii_of_string text in
  match tokenize max_rows max_cols (S (length cs)) cs with
  | Some ts =>
      match parse_expr (4 * length ts + 4) ts with
      | Some (e, []) => Some e
      | _ => None
      end
  | None => None
  end.

(** Writing a [double]: [num / den] is the magnitude and [X] its decimal
    exponent.  The digits are those of the shortest decimal that is read
    back as the same double.  The layout is positional for exponents from
    -4 to 15, and with an exponent part otherwise. *)

Definition le_pow10 (num den X : Z) : bool :=
  if 0 <=? X then 10 ^ X * den <=? num else den <=? num * 10 ^ (- X).

Fixpoint find_exponent (fuel : nat) (num den X : Z) : Z :=
  match fuel with
  | O => X
  | S n => if le_pow10 num den X then X else find_exponent n num den (X - 1)
  end.

Definition strip_zeros (ds : list ascii) : list ascii :=
  reverse (snd (span (fun c => bool_decide (c = "0"%char)) (reverse ds))).

Definition with_fraction (int_part frac : list ascii) : list ascii :=
  match strip_zeros frac with
  | [] => int_part
  | f => int_part ++ "."%char :: f
  end.

(** The decimal of [p] digits for [num / den] that is read back as [v], if
    there is one: of the two decimals of [p] digits around the quotient, the
    nearer one among those read back as [v], the even one on a tie. *)
Definition digits_at (v : float) (num den X p : Z) : option Z :=
  let q := X - (p - 1) in
  let n := if 0 <=? q then num else num * 10 ^ (- q) in
  let d := if 0 <=? q then den * 10 ^ q else den in
  let lo := n / d in
  let r := n mod d in
  let back D := PrimFloat.eqb (decimal_value D q) v in
  let up := (d <? 2 * r) || ((d =? 2 * r) && Z.odd lo) in
  if r =? 0 then (if back lo then Some lo else None)
  else
    match back lo, back (lo + 1) with
    | true, true => Some (if up then lo + 1 else lo)
    | true, false => Some lo
    | false, true => Some (lo + 1)
    | false, false => None
    end.

Fixpoint shortest_digits (fuel : nat) (v : float) (num den X p : Z) : Z * Z :=
  match fuel with
  | O => (num / den, 1)
  | S n =>
      match digits_at v num den X p with
      | Some D => (D, p)
      | None => shortest_digits n v num den X (p + 1)
      end
  end.

Definition print_magnitude (m : positive) (e : Z) : string :=
  let num := if 0 <=? e then Z.pos m * 2 ^ e else Z.pos m in
  let den := if 0 <=? e then 1 else 2 ^ (- e) in
  let X0 := ((Z.log2 num - Z.log2 den + 1) * 30103) / 100000 + 1 in
  let X := find_exponent 8 num den X0 in
  let '(D, p) := shortest_digits 17 (SF2Prim (S754_finite false m e))
                   num den X 1 in
  let '(D, X) := if D =? 10 ^ p then (10 ^ (p - 1), X + 1) else (D, X) in
  let ds := list_ascii_of_string (pretty D) in
  string_of_list_ascii
    (if (-4 <=? X) && (X <? 16) then
       if 0 <=? X
       then with_fraction
              (take (Z.to_nat (X + 1))
                 (ds ++ replicate (Z.to_nat (X + 1 - p)) "0"%char))
              (drop (Z.to_nat (X + 1)) ds)
       else with_fraction ["0"%char]
              (replicate (Z.to_nat (- X - 1)) "0"%char ++ ds)
     else
       with_fraction (take 1 ds) (drop 1 ds) ++
       "e"%char :: (if 0 <=? X then "+"%char else "-"%char) ::
       (if Z.abs X <? 10 then ["0"%char] else []) ++
       list_ascii_of_string (pretty (Z.abs X))).

Definition print_double (v : float) : string :=
  match Prim2SF v with
  | S754_zero s => if s then "-0" else "0"
  | S754_infinity s => if s then "-inf" else "inf"
  | S754_nan => "nan"
  | S754_finite s m e => (if s then "-" else "") +:+ print_magnitude m e
  end.

Fixpoint column_letters (fuel : nat) (c : Z) (acc : string) : string :=
  match fuel with
  | O => acc
  | S n =>
      let acc' := String (ascii_of_N (Z.to_N (65 + c mod 26))) acc in
      if c / 26 =? 0 then acc' else column_letters n (c / 26 - 1) acc'
  end.

Definition print_position (max_rows max_cols : Z) (p : Position) : string :=
  if in_range max_rows max_cols p
  then column_letters 16 (col p) "" +:+ pretty (row p + 1)
  else FormulaError.ToString FormulaError.Ref.

Definition precedence (e : FormulaAST) : Z :=
  match e with
  | BinaryOpExpr Add _ _ | BinaryOpExpr Subtract _ _ => 1
  | BinaryOpExpr Multiply _ _ | BinaryOpExpr Divide _ _ => 2
  | UnaryOpExpr _ _ => 3
  | _ => 4
  end.

Definition parens (needed : bool) (s : string) : string :=
  if needed then "(" +:+ s +:+ ")" else s.

Definition binary_sign (op : BinaryOp) : string :=
  match op with Add => "+" | Subtract => "-" | Multiply => "*" | Divide => "/" end.

Fixpoint print (max_rows max_cols : Z) (e : FormulaAST) : string :=
  match e with
  | NumberExpr d => print_double d
  | CellExpr p => print_position max_rows max_cols p
  | UnaryOpExpr op a =>
      (match op with UnaryPlus => "+" | UnaryMinus => "-" end) +:+
      parens (precedence a =? 1) (print max_rows max_cols a)
  | BinaryOpExpr op l r =>
      let this := precedence e in
      parens (precedence l <? this) (print max_rows max_cols l) +:+
      binary_sign op +:+
      parens ((precedence r <? this) ||
              ((precedence r =? this) &&
               match op with Subtract | Divide => true | _ => false end))
             (print max_rows max_cols r)
  end.

(** [in >> result] for a [double], and [in.eof()].  White space is skipped;
    a sign, digits, a decimal point, digits, and after a digit an exponent
    mark with its sign and digits, are taken from the stream as far as they
    go.  What was taken is a number when it has a digit, when an exponent
    mark is followed by a digit, and when the double nearest to it is
    finite; the extraction fails otherwise.  The flag tells that nothing is
    left in the stream. *)
Definition scan_extracted (cs : list ascii) : option float * list ascii :=
  let '(neg, r0) := scan_sign cs in
  let '(int_ds, r1) := span is_digit r0 in
  let '(frac_ds, r2) :=
    match r1 with
    | c :: r =>
        if bool_decide (c = "."%char) then span is_digit r else ([], r1)
    | [] => ([], r1)
    end in
  let '(e, r3) :=
    match r2 with
    | c :: r =>
        if (bool_decide (c = "e"%char) || bool_decide (c = "E"%char))
           && negb (bool_decide (int_ds ++ frac_ds = []))
        then
          let '(eneg, r') := scan_sign r in
          let '(ds, r'') := span is_digit r' in
          match ds with
          | [] => (None, r'')
          | _ => (Some (if eneg then - digits_value ds else digits_value ds),
                  r'')
          end
        else (Some 0, r2)
    | [] => (Some 0, r2)
    end in
  match int_ds ++ frac_ds, e with
  | (_ :: _) as all_ds, Some e =>
      let v := decimal_value (digits_value all_ds)
                 (e - Z.of_nat (length frac_ds)) in
      if PrimFloat.is_finite v
      then (Some (if neg then PrimFloat.opp v else v), r3)
      else (None, r3)
  | _, _ => (None, r3)
  end.

Definition read_double (text : string) : option float * bool :=
  let '(v, rest) :=
    scan_extracted (snd (span is_space (list_ascii_of_string text))) in
  (v, match rest with [] => true | _ => false end).

Definition platform (max_rows max_cols : Z) : Platform := {|
  MAX_ROWS := max_rows;
  MAX_COLS := max_cols;
  ParseFormulaAST := parse max_rows max_cols;
  PrintFormula := print max_rows max_cols;
  ReadDouble := read_double
|}.

(** The bounds section 3 calls common, and bounds wide enough for [ZZZ9999]. *)
Definition common : Platform := platform 16384 16384.
Definition wide : Platform := platform 65536 65536.

End Reference.

(** ** Public operations and reachable sheets *)

Inductive Operation :=
| OpSetCell (pos : Position) (text : string)
| OpClearCell (pos : Position)
| OpGetValue (pos : Position).

Definition perform `{Platform} (fuel : nat) (op : Operation) : M unit :=
  match op with
  | OpSetCell pos text => Sheet_SetCell fuel pos text
  | OpClearCell pos => Sheet_ClearCell fuel pos
  | OpGetValue pos => Sheet_GetValue fuel pos ;; ret tt
  end.

(** The sheet a caller holds after a call that returned or that threw an
    exception the caller caught. *)
Definition sheet_after {A} (o : Outcome A) : option Sheet :=
  match o with
  | Returns _ s => Some s
  | Throws _ s => Some s
  | _ => None
  end.

Inductive reachable `{Platform} : Sheet -> Prop :=
| reachable_CreateSheet : reachable CreateSheet
| reachable_perform fuel op s s' :
    reachable s ->
    sheet_after (perform fuel op s) = Some s' ->
    reachable s'.

(** Sheets built by calls of [SetCell] that all returned normally. *)
Inductive built_by_SetCell `{Platform} : Sheet -> Prop :=
| built_CreateSheet : built_by_SetCell CreateSheet
| built_SetCell fuel pos text s s' :
    built_by_SetCell s ->
    Sheet_SetCell fuel pos text s = Returns tt s' ->
    built_by_SetCell s'.

(** Running a script of calls, stopping at the first that does not return. *)
Fixpoint script `{Platform} (fuel : nat) (ops : list Operation) : M unit :=
  match ops with
  | [] => ret tt
  | op :: rest => perform fuel op ;; script fuel rest
  end.

Definition A1 : Position := mkPosition 0 0.
Definition B1 : Position := mkPosition 0 1.
Definition A2 : Position := mkPosition 1 0.
Definition AAA1 : Position := mkPosition 0 702.
Definition ZZZ9999 : Position := mkPosition 9998 18277.

(** Sheets and a formula the scenarios of the specification pass through. *)

(** After [SetCell(A1, "=B1")]: the cell at [B1] was made for the
    reference. *)
Definition sheet_A1_reads_B1 : Sheet :=
  mkSheet
    (<[A1 := Some (mkCell (FormulaImpl (mkFormula (CellExpr B1)) None)
                          ∅ {[ B1 ]})]>
       (<[B1 := Some (mkCell EmptyImpl {[ A1 ]} ∅)]> ∅))
    0.

(** After [SetCell(A1, "x"); ClearCell(A1)]: the entry of [A1] is there,
    its pointer is null. *)
Definition sheet_A1_cleared : Sheet := mkSheet (<[A1 := None]> ∅) 0.

(** After [SetCell(A1, "=1+2")], and after one and two calls of
    [GetValue] on the cell. *)
Definition sheet_A1_sum (cache : option FormulaInterface.Value)
    (calls : nat) : Sheet :=
  mkSheet
    (<[A1 := Some (mkCell
         (FormulaImpl
            (mkFormula (BinaryOpExpr Add (NumberExpr 1) (NumberExpr 2))) cache)
         ∅ ∅)]> ∅)
    calls.

(** After [SetCell(AAA1, "=ZZZ9999"); ClearCell(AAA1)], where [ZZZ9999] is
    a valid position and where it is not. *)
Definition sheet_AAA1_cleared_wide : Sheet :=
  mkSheet (<[AAA1 := None]> (<[ZZZ9999 := Some new_Cell]> ∅)) 0.

Definition sheet_AAA1_cleared_common : Sheet :=
  mkSheet (<[AAA1 := None]> ∅) 0.

(** After [SetCell(pos, text)] on the empty sheet, for a text that is no
    formula. *)
Definition sheet_with_text (pos : Position) (text : string) : Sheet :=
  mkSheet (<[pos := Some (mkCell (TextImpl text) ∅ ∅)]> ∅) 0.

(** After [SetCell(A1, "=B1"); ClearCell(A1)]: the cell of [A1] is
    destroyed, the cell made at [B1] stays. *)
Definition sheet_A1_cleared_B1_kept : Sheet :=
  mkSheet (<[A1 := None]> (<[B1 := Some new_Cell]> ∅)) 0.

(** After [SetCell(A1, "=B1")] and one call of [GetValue] on the cell: the
    cache of [A1] holds the number 0. *)
Definition sheet_A1_reads_B1_cached : Sheet :=
  mkSheet
    (<[A1 := Some (mkCell (FormulaImpl (mkFormula (CellExpr B1))
                             (Some (FormulaInterface.Number 0)))
                          ∅ {[ B1 ]})]>
       (<[B1 := Some (mkCell EmptyImpl {[ A1 ]} ∅)]> ∅))
    2.

(** Then, after [SetCell(B1, "5")]. *)
Definition sheet_B1_is_5 : Sheet :=
  mkSheet
    (<[A1 := Some (mkCell (FormulaImpl (mkFormula (CellExpr B1)) None)
                          ∅ {[ B1 ]})]>
       (<[B1 := Some (mkCell (TextImpl "5") {[ A1 ]} ∅)]> ∅))
    2.

(** After [SetCell(A1, text)] on the empty sheet, for a formula without
    valid references whose tree is [e]. *)
Definition sheet_A1_formula (e : FormulaAST) : Sheet :=
  mkSheet (<[A1 := Some (mkCell (FormulaImpl (mkFormula e) None) ∅ ∅)]> ∅) 0.

(** After [SetCell(A1, "=B1"); SetCell(B1, text)], for a text that is no
    formula. *)
Definition sheet_A1_reads_B1_text (text : string) : Sheet :=
  mkSheet
    (<[A1 := Some (mkCell (FormulaImpl (mkFormula (CellExpr B1)) None)
                          ∅ {[ B1 ]})]>
       (<[B1 := Some (mkCell (TextImpl text) {[ A1 ]} ∅)]> ∅))
    0.

(** After [SetCell(A1, "=B1"); SetCell(A2, "=A1")]. *)
Definition sheet_A2_reads_A1 : Sheet :=
  mkSheet
    (<[A1 := Some (mkCell (FormulaImpl (mkFormula (CellExpr B1)) None)
                          {[ A2 ]} {[ B1 ]})]>
       (<[B1 := Some (mkCell EmptyImpl {[ A1 ]} ∅)]>
          (<[A2 := Some (mkCell (FormulaImpl (mkFormula (CellExpr A1)) None)
                                ∅ {[ A1 ]})]> ∅)))
    0.

(** The tree of [A1+B1+A1]. *)
Definition A1_plus_B1_plus_A1 : FormulaAST :=
  BinaryOpExpr Add (BinaryOpExpr Add (CellExpr A1) (CellExpr B1)) (CellExpr A1).

(** ** Vocabulary of the statements *)

(** What an outcome guarantees: [Q] on return, [E] on a throw; [D] says
    whether undefined behaviour and exhausted fuel are tolerated ([True]) or
    excluded ([False]). *)
Definition ensures {A} (o : Outcome A) (Q : A -> Sheet -> Prop)
    (E : Exception -> Sheet -> Prop) (D : Prop) : Prop :=
  match o with
  | Returns a s => Q a s
  | Throws e s => E e s
  | Undefined | OutOfFuel => D
  end.

Definition never {X} : X -> Sheet -> Prop := fun _ _ => False.

(** A cell without its memoized value, and a sheet without caches and
    without the ghost counter. *)
Definition Cell_forget (c : Cell) : Cell :=
  mkCell (Impl_InvalidateCache (impl_ c)) (l_nodes_ c) (r_nodes_ c).

Definition structure (s : Sheet) : gmap Position (option Cell) :=
  (fun uptr : option Cell => Cell_forget <$> uptr) <$> cells_ s.

(** The dependency graph: [edge s p q] when the cell at [p] has [q] in its
    outgoing set. *)
Definition edge (s : Sheet) (p q : Position) : Prop :=
  exists c, live s p = Some c /\ q ∈ r_nodes_ c.

Definition acyclic (s : Sheet) : Prop := forall p, ~ tc (edge s) p p.

(** Forward and reverse adjacency sets mirror each other, and hold pointers
    to cells of the sheet only. *)
Definition mirrored (s : Sheet) : Prop :=
  forall p q cp cq, live s p = Some cp -> live s q = Some cq ->
    (q ∈ r_nodes_ cp <-> p ∈ l_nodes_ cq).

Definition no_dangling (s : Sheet) : Prop :=
  forall p c q, live s p = Some c -> q ∈ l_nodes_ c ∪ r_nodes_ c ->
    is_Some (live s q).

(** A witness of acyclicity: ranks below [bound] that decrease along edges. *)
Definition ranked (rank : Position -> nat) (bound : nat) (s : Sheet) : Prop :=
  forall p c, live s p = Some c ->
    (rank p < bound)%nat /\ forall q, q ∈ r_nodes_ c -> (rank q < rank p)%nat.

Record well_formed `{Platform} (s : Sheet) : Prop := {
  wf_no_dangling : no_dangling s;
  wf_mirrored : mirrored s;
  wf_outgoing : forall p c, live s p = Some c ->
      r_nodes_ c = list_to_set (Impl_GetReferencedCells (impl_ c));
  wf_ranked : exists rank bound, ranked rank bound s
}.

(** The sheet once [Cell::Set] has installed [impl] at [this], erased [this]
    from the incoming sets of [erased] and linked it with [added]. *)
Definition install_at (g : gmap Position (option Cell)) (this : Position)
    (impl : Impl) (outgoing erased added : gset Position) (p : Position)
    : option (option Cell) :=
  match g !! p with
  | Some (Some c) =>
      Some (Some (mkCell
        (if decide (p = this) then impl else impl_ c)
        ((if decide (p ∈ erased) then l_nodes_ c ∖ {[ this ]} else l_nodes_ c)
           ∪ (if decide (p ∈ added) then {[ this ]} else ∅))
        (if decide (p = this) then outgoing else r_nodes_ c)))
  | Some None => Some None
  | None =>
      if decide (p ∈ added) then Some (Some (mkCell EmptyImpl {[ this ]} ∅))
      else None
  end.

(** The sheet [SetCell] leaves when [Set] throws: a cell constructed for an
    absent position stays. *)
Definition materialized (pos : Position) (s : Sheet) : Sheet :=
  match cells_ s !! pos with
  | None => mkSheet (<[pos := Some new_Cell]> (cells_ s)) (evaluate_calls s)
  | Some _ => s
  end.

(** The graph a new body with references [refs] at [this] would give. *)
Definition edge_with (s : Sheet) (this : Position) (refs : list Position)
    (p q : Position) : Prop :=
  (p <> this /\ edge s p q) \/ (p = this /\ q ∈ refs).

Definition no_null_entries (s : Sheet) : Prop :=
  forall p, cells_ s !! p <> Some None.

(** ** Vocabulary of the proofs *)

Definition Cell_relink `{Platform} (SetCell : Position -> string -> M unit)
    (this : Position) (impl : Impl) : M unit :=
  update this (set_impl impl) ;;
  do c <- deref this;
  for_each (elements (r_nodes_ c)) (fun outgoing =>
    update outgoing (fun o => set_l_nodes (l_nodes_ o ∖ {[ this ]}) o)) ;;
  update this (set_r_nodes ∅) ;;
  Cell_UpdateDependencies SetCell this.

(** What [UpdateDependencies] needs of [sheet_.SetCell(pos, "")]: it makes a
    cell where there is no entry, and does not come back from an entry whose
    pointer is null. *)
Definition makes_cell (cb : Position -> string -> M unit) (D : Prop)
    (pos : Position) : Prop :=
  (forall s, cells_ s !! pos = None ->
     ensures (cb pos "" s)
       (fun _ s' => cells_ s' = <[pos := Some new_Cell]> (cells_ s)) never D) /\
  (forall s, cells_ s !! pos = Some None ->
     ensures (cb pos "" s) never never True).

(** Ranks that grow along incoming sets, whose members are cells. *)
Definition up_ranked (rank : Position -> nat) (bound : nat) (s : Sheet) : Prop :=
  forall p c, live s p = Some c ->
    (rank p < bound)%nat /\
    forall q, q ∈ l_nodes_ c -> is_Some (live s q) /\ (rank p < rank q)%nat.

(** [feeds s a b]: [a] is in the incoming set of the cell at [b]. *)
Definition feeds (s : Sheet) (a b : Position) : Prop :=
  exists cb, live s b = Some cb /\ a ∈ l_nodes_ cb.

(** A set the traversal cannot leave: closed under incoming sets. *)
Definition closed_upwards (s : Sheet) (V : gset Position) : Prop :=
  forall v c y, v ∈ V -> live s v = Some c -> y ∈ l_nodes_ c -> y ∈ V.

(** The stack discipline of the traversal: below a visited cell that is
    still on the stack, everything it is fed by is visited or above it. *)
Definition stacked (s : Sheet) (to_visit : list Position)
    (visited : gset Position) : Prop :=
  forall pre x post c y,
    to_visit = pre ++ x :: post -> x ∈ visited ->
    live s x = Some c -> y ∈ l_nodes_ c -> y ∈ visited \/ y ∈ pre.

(** What a cycle check that answers [false] has established. *)
Definition no_cycle_witness `{Platform} (s : Sheet) (this : Position)
    (impl : Impl) : Prop :=
  Impl_GetReferencedCells impl = [] \/
  exists V : gset Position,
    this ∈ V /\ closed_upwards s V /\
    forall x, x ∈ Impl_GetReferencedCells impl -> is_Some (live s x) -> x ∉ V.

(** What a cycle check that answers [true] has found. *)
Definition cycle_witness `{Platform} (s : Sheet) (this : Position)
    (impl : Impl) : Prop :=
  exists x, x ∈ Impl_GetReferencedCells impl /\ is_Some (live s x) /\
            rtc (feeds s) x this.

(** [s1] is [s] after [Cell::Set] has installed [impl] at [this]. *)
Definition installed `{Platform} (s : Sheet) (this : Position) (impl : Impl)
    (c0 : Cell) (s1 : Sheet) : Prop :=
  forall p,
    cells_ s1 !! p
    = install_at (cells_ s) this impl
        (list_to_set (Impl_GetReferencedCells impl)) (r_nodes_ c0)
        (list_to_set (Impl_GetReferencedCells impl)) p.

(** The largest rank among the references of a body. *)
Definition refs_rank `{Platform} (impl : Impl) (rank : Position -> nat) : nat :=
  max_list (rank <$> Impl_GetReferencedCells impl).

(** Ranks for the new graph: what can reach [this] is lifted above every
    new reference. *)
Definition lifted_rank `{Platform} (s : Sheet) (impl : Impl)
    (rank : Position -> nat) (V : gset Position) (p : Position) : nat :=
  if decide (p ∈ V /\ is_Some (live s p))
  then (rank p + S (refs_rank impl rank))%nat
  else rank p.

(** What [Cell::Set] guarantees when it returns, and when it throws. *)
Definition Set_returned `{Platform} (s : Sheet) (this : Position)
    (text : string) (s' : Sheet) : Prop :=
  exists impl c0 s1,
    Cell_CreateImpl text s = Returns impl s /\
    live s this = Some c0 /\
    no_cycle_witness s this impl /\
    (forall q, q ∈ Impl_GetReferencedCells impl -> cells_ s !! q <> Some None) /\
    installed s this impl c0 s1 /\
    structure s' = structure s1.

Definition Set_threw `{Platform} (s : Sheet) (this : Position)
    (text : string) (e : Exception) (s' : Sheet) : Prop :=
  s' = s /\
  ((e = FormulaException /\ Cell_CreateImpl text s = Throws FormulaException s) \/
   (e = CircularDependencyException /\
    exists impl, Cell_CreateImpl text s = Returns impl s /\
                 cycle_witness s this impl)).

(** The fuel the cycle check of a sheet needs at most. *)
Definition traversal_fuel (s : Sheet) : nat :=
  S (size (dom (cells_ s)) * S (size (dom (cells_ s)))).

(** What [ClearCell] guarantees when it returns. *)
Definition cleared `{Platform} (pos : Position) (s s' : Sheet) : Prop :=
  IsValid pos = true /\ well_formed s' /\
  (forall p, p <> pos -> is_Some (live s p) -> is_Some (live s' p)) /\
  (forall c, live s' pos = Some c -> impl_ c = EmptyImpl /\ l_nodes_ c <> ∅) /\
  (cells_ s !! pos = None -> cells_ s' !! pos = None).

(** Two runs that started from sheets with the same structure came out the
    same way, with results related by [R], and touched caches only. *)
Definition agree {A} (R : A -> A -> Prop) (s1 s2 : Sheet)
    (o1 o2 : Outcome A) : Prop :=
  match o1, o2 with
  | Returns a1 s1', Returns a2 s2' =>
      R a1 a2 /\ structure s1' = structure s1 /\ structure s2' = structure s2
  | Throws e1 s1', Throws e2 s2' =>
      e1 = e2 /\ structure s1' = structure s1 /\ structure s2' = structure s2
  | Undefined, Undefined => True
  | OutOfFuel, OutOfFuel => True
  | _, _ => False
  end.

(** [m1] and [m2] read the structure of the sheet and write caches only. *)
Definition cache_blind {A} (R : A -> A -> Prop) (m1 m2 : M A) : Prop :=
  forall s1 s2, structure s1 = structure s2 -> agree R s1 s2 (m1 s1) (m2 s2).

(** An evaluation came to an end: with a number, or with a [FormulaError]
    thrown. *)
Definition evaluated {A} (o : Outcome A) : Prop :=
  (exists a s, o = Returns a s) \/
  (exists c s, o = Throws (ThrownFormulaError c) s).

(** What [EvaluateCell] makes of the value of a cell. *)
Definition converted `{Platform} (v : CellInterface.Value) : M float :=
  match v with
  | CellInterface.Number d => ret d
  | CellInterface.Text t => ConvertStringToDouble t
  | CellInterface.Error e => throw (ThrownFormulaError e)
  end.

(** Every entry of the map, with or without a cell, sits at a valid
    position. *)
Definition valid_keys `{Platform} (s : Sheet) : Prop :=
  forall p, is_Some (cells_ s !! p) -> IsValid p = true.

(** Equal positions are neighbours in the list: runs of one position are
    not interrupted.  A sorted list is such a list. *)
Fixpoint runs_together (l : list Position) : Prop :=
  match l with
  | [] => True
  | x :: t => (x ∈ t -> head t = Some x) /\ runs_together t
  end.

(** A cell without a memoized value: no formula, or a formula whose cache
    is empty. *)
Definition no_cache (c : Cell) : Prop :=
  forall f cache, impl_ c = FormulaImpl f cache -> cache = None.

Definition no_cache_at (s : Sheet) (p : Position) : Prop :=
  forall c, live s p = Some c -> no_cache c.

(** [s'] is [s] with caches emptied, of cells in [U] only. *)
Definition caches_emptied (U : Position -> Prop) (s s' : Sheet) : Prop :=
  forall p,
    cells_ s' !! p = cells_ s !! p \/
    (U p /\
     exists c, cells_ s !! p = Some (Some c) /\
               cells_ s' !! p
               = Some (Some (set_impl (Impl_InvalidateCache (impl_ c)) c))).

(** The body a formula sees at a position: no cell is as good as an empty
    cell, and caches do not count. *)
Definition body (s : Sheet) (p : Position) : Impl :=
  match live s p with
  | Some c => Impl_InvalidateCache (impl_ c)
  | None => EmptyImpl
  end.

(** Two sheets with the same bodies on [U], a set of positions that holds
    the valid references of every body in it. *)
Definition same_bodies `{Platform} (U : Position -> Prop) (s1 s2 : Sheet)
    : Prop :=
  (forall p, U p -> body s1 p = body s2 p) /\
  (forall p q, U p -> q ∈ Impl_GetReferencedCells (body s1 p) -> U q).

(** Two runs that, where both came to an end, ended alike, on sheets related
    by [E]. *)
Definition compatible {A} (E : Sheet -> Sheet -> Prop)
    (o1 o2 : Outcome A) : Prop :=
  match o1, o2 with
  | Returns a1 s1, Returns a2 s2 => a1 = a2 /\ E s1 s2
  | Throws e1 s1, Throws e2 s2 => e1 = e2 /\ E s1 s2
  | Returns _ _, Throws _ _ | Throws _ _, Returns _ _ => False
  | _, _ => True
  end.

Definition alike {A} (E : Sheet -> Sheet -> Prop) (m1 m2 : M A) : Prop :=
  forall s1 s2, E s1 s2 -> compatible E (m1 s1) (m2 s2).

(** ** Tactics *)

(** Equations between cells, field by field. *)
Ltac cell_eq :=
  repeat match goal with
  | |- Some _ = Some _ => f_equal
  | |- mkCell _ _ _ = mkCell _ _ _ => f_equal
  | |- ?c = mkCell _ _ _ => is_var c; destruct c; simpl
  | |- mkCell _ _ _ = ?c => is_var c; destruct c; simpl
  end;
  try reflexivity;
  match goal with
  | |- @eq (gset _) _ _ => set_solver
  | |- False => set_solver
  | |- _ => first [congruence | set_solver]
  end.

(** Decidable facts about concrete sheets are settled by evaluation. *)
Ltac by_evaluation := refine (bool_decide_unpack _ _); vm_compute; exact I.

(** * Proofs *)


(** * Reasoning about outcomes *)

Section Outcomes.
Context {A B : Type}.

Lemma ensures_bind (m : M A) (k : A -> M B) s Q E D :
  ensures (m s) (fun a s' => ensures (k a s') Q E D) E D <->
  ensures (bind m k s) Q E D.
Proof. unfold bind. destruct (m s); simpl; tauto. Qed.

Lemma ensures_bind_intro (m : M A) (k : A -> M B) s Q E D :
  ensures (m s) (fun a s' => ensures (k a s') Q E D) E D ->
  ensures (bind m k s) Q E D.
Proof. apply ensures_bind. Qed.

Lemma ensures_mono (o : Outcome A) (Q Q' : A -> Sheet -> Prop) E E' (D D' : Prop) :
  ensures o Q E D ->
  (forall a s, Q a s -> Q' a s) -> (forall e s, E e s -> E' e s) -> (D -> D') ->
  ensures o Q' E' D'.
Proof. destruct o; simpl; auto. Qed.

Lemma bind_Returns (m : M A) (k : A -> M B) s a s' :
  m s = Returns a s' -> bind m k s = k a s'.
Proof. unfold bind. intros ->. reflexivity. Qed.

Lemma bind_assoc {C} (m : M A) (k : A -> M B) (h : B -> M C) s :
  bind (bind m k) h s = bind m (fun a => bind (k a) h) s.
Proof. unfold bind. destruct (m s); reflexivity. Qed.

End Outcomes.

Lemma ensures_for_each {A} (I : list A -> Sheet -> Prop) E D
    (body : A -> M unit) (xs : list A) :
  forall done s,
  I done s ->
  (forall done x s, x ∈ xs -> I done s ->
     ensures (body x s) (fun _ s' => I (done ++ [x]) s') E D) ->
  ensures (for_each xs body s) (fun _ s' => I (done ++ xs) s') E D.
Proof.
  induction xs as [|x xs IH]; intros done s HI Hbody; simpl.
  - rewrite app_nil_r. exact HI.
  - apply ensures_bind_intro.
    eapply ensures_mono; [apply (Hbody done x s); [left|exact HI] | | auto | auto].
    intros [] s' HI'. simpl.
    replace (done ++ x :: xs) with ((done ++ [x]) ++ xs)
      by (rewrite <- app_assoc; reflexivity).
    apply IH; [exact HI'|].
    intros done' y s'' Hy. apply Hbody. right. exact Hy.
Qed.

(** * Cells behind pointers *)

Lemma live_Some s p c : live s p = Some c <-> cells_ s !! p = Some (Some c).
Proof.
  unfold live. destruct (cells_ s !! p) as [[c'|]|]; split; congruence.
Qed.

Lemma ensures_deref p s (Q : Cell -> Sheet -> Prop) E (D : Prop) :
  (forall c, live s p = Some c -> Q c s) ->
  (live s p = None -> D) ->
  ensures (deref p s) Q E D.
Proof.
  intros HQ HD. unfold deref. destruct (live s p); simpl; auto.
Qed.

Lemma deref_live p s c : live s p = Some c -> deref p s = Returns c s.
Proof. unfold deref. intros ->. reflexivity. Qed.

Lemma update_live p f s c :
  live s p = Some c ->
  update p f s = Returns tt (mkSheet (<[p := Some (f c)]> (cells_ s)) (evaluate_calls s)).
Proof.
  intros Hl. unfold update. rewrite (bind_Returns _ _ _ _ _ (deref_live _ _ _ Hl)).
  reflexivity.
Qed.

Lemma ensures_update p f s (Q : unit -> Sheet -> Prop) E (D : Prop) :
  (forall c, live s p = Some c ->
     Q tt (mkSheet (<[p := Some (f c)]> (cells_ s)) (evaluate_calls s))) ->
  (live s p = None -> D) ->
  ensures (update p f s) Q E D.
Proof.
  intros HQ HD. destruct (live s p) as [c|] eqn:Hl.
  - rewrite (update_live _ _ _ _ Hl). simpl. auto.
  - unfold update, bind, deref. rewrite Hl. simpl. auto.
Qed.

Section Facts.
Context `{Platform}.

Lemma ensures_GetCellPtr pos s (Q : CellPtr -> Sheet -> Prop) E (D : Prop) :
  IsValid pos = true ->
  Q (match cells_ s !! pos with Some (Some _) => Some pos | _ => None end) s ->
  ensures (Sheet_GetCellPtr pos s) Q E D.
Proof.
  intros Hv HQ. unfold Sheet_GetCellPtr, Sheet_ValidatePosition, bind, get, ret.
  rewrite Hv. simpl. destruct (cells_ s !! pos) as [[c|]|]; simpl; exact HQ.
Qed.

Lemma GetCellPtr_valid pos s :
  IsValid pos = true ->
  Sheet_GetCellPtr pos s =
    Returns (match cells_ s !! pos with Some (Some _) => Some pos | _ => None end) s.
Proof.
  intros Hv. unfold Sheet_GetCellPtr, Sheet_ValidatePosition, bind, get, ret.
  rewrite Hv. simpl. destruct (cells_ s !! pos) as [[c|]|]; reflexivity.
Qed.

Lemma GetCellPtr_invalid pos s :
  IsValid pos = false ->
  Sheet_GetCellPtr pos s = Throws InvalidPositionException s.
Proof.
  intros Hv. unfold Sheet_GetCellPtr, Sheet_ValidatePosition, bind.
  rewrite Hv. reflexivity.
Qed.

(** ** References of a body *)

Lemma std_unique_elem_of l x : x ∈ std_unique l <-> x ∈ l.
Proof.
  induction l as [|a [|b t] IH]; [reflexivity|reflexivity|].
  change (std_unique (a :: b :: t))
    with (if decide (a = b) then std_unique (b :: t) else a :: std_unique (b :: t)).
  destruct (decide (a = b)) as [->|Hne].
  - rewrite IH. set_solver.
  - rewrite elem_of_cons, IH. set_solver.
Qed.

Lemma Formula_GetReferencedCells_valid f p :
  p ∈ Formula_GetReferencedCells f -> IsValid p = true.
Proof.
  unfold Formula_GetReferencedCells. rewrite std_unique_elem_of.
  rewrite list_elem_of_filter. intros [Hv _]. apply Is_true_true. exact Hv.
Qed.

Lemma Formula_GetReferencedCells_elem_of f p :
  p ∈ Formula_GetReferencedCells f <-> IsValid p = true /\ p ∈ GetCells (ast_ f).
Proof.
  unfold Formula_GetReferencedCells. rewrite std_unique_elem_of.
  rewrite list_elem_of_filter. rewrite Is_true_true. reflexivity.
Qed.

Lemma Impl_GetReferencedCells_valid impl p :
  p ∈ Impl_GetReferencedCells impl -> IsValid p = true.
Proof.
  destruct impl; simpl; try (intros Hp; inversion Hp; fail).
  apply Formula_GetReferencedCells_valid.
Qed.

End Facts.


Section Install.
Context `{Platform}.

Lemma install_at_live g this impl o e a p c :
  install_at g this impl o e a p = Some (Some c) ->
  (exists c0, g !! p = Some (Some c0) /\
     c = mkCell (if decide (p = this) then impl else impl_ c0)
           ((if decide (p ∈ e) then l_nodes_ c0 ∖ {[ this ]} else l_nodes_ c0)
              ∪ (if decide (p ∈ a) then {[ this ]} else ∅))
           (if decide (p = this) then o else r_nodes_ c0)) \/
  (g !! p = None /\ p ∈ a /\ c = mkCell EmptyImpl {[ this ]} ∅).
Proof.
  unfold install_at. destruct (g !! p) as [[c0|]|].
  - intros [= <-]. left. eauto.
  - discriminate.
  - case_decide; [|discriminate]. intros [= <-]. right. auto.
Qed.

Lemma install_erase g this impl o (e : gset Position) q s c :
  (forall p, cells_ s !! p = install_at g this impl o e ∅ p) ->
  live s q = Some c ->
  forall p,
    <[q := Some (set_l_nodes (l_nodes_ c ∖ {[ this ]}) c)]> (cells_ s) !! p
    = install_at g this impl o ({[ q ]} ∪ e) ∅ p.
Proof.
  intros Hs Hc p. apply live_Some in Hc. rewrite Hs in Hc.
  destruct (decide (p = q)) as [->|Hne].
  - rewrite lookup_insert_eq.
    apply install_at_live in Hc as [(c0 & Hg & ->)|(_ & Ha & _)]; [|set_solver].
    unfold install_at. rewrite Hg. unfold set_l_nodes. simpl.
    repeat case_decide; cell_eq.
  - rewrite lookup_insert_ne by congruence. rewrite Hs.
    unfold install_at. destruct (g !! p) as [[c0|]|]; [|reflexivity|reflexivity].
    repeat case_decide; cell_eq.
Qed.

Lemma install_link_live (D : Prop) g this impl o e (a : gset Position) pos s c0 :
  (forall p, cells_ s !! p = install_at g this impl o e a p) ->
  g !! this = Some (Some c0) ->
  is_Some (live s pos) ->
  ensures
    ((update this (fun c => set_r_nodes ({[ pos ]} ∪ r_nodes_ c) c) ;;
      update pos (fun c => set_l_nodes ({[ this ]} ∪ l_nodes_ c) c)) s)
    (fun _ s' => forall p,
       cells_ s' !! p = install_at g this impl ({[ pos ]} ∪ o) e ({[ pos ]} ∪ a) p)
    never D.
Proof.
  intros Hs Hthis [cpos Hpos].
  assert (exists ct, live s this = Some ct) as [ct Hct].
  { pose proof (Hs this) as Ht. unfold install_at in Ht. rewrite Hthis in Ht.
    eexists. apply live_Some. exact Ht. }
  apply ensures_bind_intro. rewrite (update_live _ _ _ _ Hct). simpl.
  set (s1 := mkSheet _ _).
  assert (exists c1, live s1 pos = Some c1 /\
            c1 = if decide (pos = this)
                 then set_r_nodes ({[ pos ]} ∪ r_nodes_ ct) ct else cpos)
    as (c1 & Hc1 & Hc1eq).
  { destruct (decide (pos = this)) as [->|Hne]; eexists; split; try reflexivity;
      apply live_Some; subst s1; simpl.
    - apply lookup_insert_eq.
    - rewrite lookup_insert_ne by congruence. apply live_Some. exact Hpos. }
  rewrite (update_live _ _ _ _ Hc1). simpl. intros p.
  apply live_Some in Hct, Hpos. rewrite Hs in Hct, Hpos.
  destruct (decide (p = pos)) as [->|Hne].
  - rewrite lookup_insert_eq. subst c1.
    destruct (decide (pos = this)) as [->|Hne'].
    + apply install_at_live in Hct as [(c & Hg & ->)|(Hg & _)]; [|congruence].
      unfold install_at. rewrite Hg. unfold set_l_nodes, set_r_nodes. simpl.
      repeat case_decide; cell_eq.
    + apply install_at_live in Hpos as [(c & Hg & ->)|(Hg & Ha & ->)];
        unfold install_at; rewrite Hg; unfold set_l_nodes; simpl;
        repeat case_decide; cell_eq.
  - rewrite lookup_insert_ne by congruence.
    destruct (decide (p = this)) as [->|Hne'].
    + rewrite lookup_insert_eq.
      apply install_at_live in Hct as [(c & Hg & ->)|(Hg & _)]; [|congruence].
      unfold install_at. rewrite Hg. unfold set_r_nodes. simpl.
      repeat case_decide; cell_eq.
    + rewrite lookup_insert_ne by congruence. rewrite Hs.
      unfold install_at. destruct (g !! p) as [[c|]|]; try reflexivity;
        repeat case_decide; cell_eq.
Qed.

Lemma install_fresh g this impl o e (a : gset Position) pos
    (m : gmap Position (option Cell)) c0 :
  (forall p, m !! p = install_at g this impl o e a p) ->
  g !! this = Some (Some c0) ->
  m !! pos = None ->
  forall p, <[pos := Some new_Cell]> m !! p
            = install_at (<[pos := Some new_Cell]> g) this impl o e a p.
Proof.
  intros Hs Hthis Hpos p.
  assert (Hg : g !! pos = None).
  { rewrite Hs in Hpos. unfold install_at in Hpos.
    destruct (g !! pos) as [[c|]|]; [discriminate..|reflexivity]. }
  assert (Ha : pos ∉ a).
  { rewrite Hs in Hpos. unfold install_at in Hpos. rewrite Hg in Hpos.
    case_decide; [discriminate|assumption]. }
  destruct (decide (p = pos)) as [->|Hne].
  - rewrite lookup_insert_eq. unfold install_at. rewrite lookup_insert_eq.
    assert (pos <> this) by congruence.
    unfold new_Cell. simpl. repeat case_decide; cell_eq.
  - rewrite lookup_insert_ne by congruence. rewrite Hs.
    unfold install_at. rewrite lookup_insert_ne by congruence. reflexivity.
Qed.

(** A cell made for [pos] and linked with [this] is the cell [install_at]
    makes when [pos] is among the added references. *)
Lemma install_at_fresh_added g this impl o e (a : gset Position) pos p c0 :
  g !! this = Some (Some c0) ->
  g !! pos = None -> pos ∈ a ->
  install_at (<[pos := Some new_Cell]> g) this impl o e a p
  = install_at g this impl o e a p.
Proof.
  intros Hthis Hg Ha. unfold install_at.
  destruct (decide (p = pos)) as [->|Hne].
  - rewrite lookup_insert_eq, Hg. unfold new_Cell. simpl.
    assert (pos <> this) by congruence.
    repeat case_decide; cell_eq.
  - rewrite lookup_insert_ne by congruence. reflexivity.
Qed.

End Install.


Section Relink.
Context `{Platform}.
Variable cb : Position -> string -> M unit.
Variable D : Prop.

Lemma list_to_set_snoc (done : list Position) (pos : Position) :
  list_to_set (done ++ [pos]) =@{gset Position} {[ pos ]} ∪ list_to_set done.
Proof. rewrite list_to_set_app_L. simpl. set_solver. Qed.

Lemma UpdateDependencies_step g this impl e (done : list Position) pos s c0 :
  (forall p, cells_ s !! p
             = install_at g this impl (list_to_set done) e (list_to_set done) p) ->
  g !! this = Some (Some c0) ->
  IsValid pos = true ->
  makes_cell cb D pos ->
  (D \/ g !! pos <> Some None) ->
  ensures
    ((do found <- Sheet_GetCellPtr pos;
      do outgoing <-
        match found with
        | Some q => ret q
        | None =>
            cb pos "" ;;
            do made <- Sheet_GetCellPtr pos;
            match made with Some q => ret q | None => undefined end
        end;
      update this (fun c => set_r_nodes ({[ outgoing ]} ∪ r_nodes_ c) c) ;;
      update outgoing (fun o => set_l_nodes ({[ this ]} ∪ l_nodes_ o) o)) s)
    (fun _ s' => g !! pos <> Some None /\ forall p,
       cells_ s' !! p
       = install_at g this impl (list_to_set (done ++ [pos])) e
           (list_to_set (done ++ [pos])) p)
    never D.
Proof.
  intros Hs Hthis Hv [cb_absent cb_null] Hnull.
  rewrite list_to_set_snoc.
  apply ensures_bind_intro. rewrite (GetCellPtr_valid pos s Hv). simpl.
  destruct (cells_ s !! pos) as [[cp|]|] eqn:Hp.
  - apply ensures_bind_intro. simpl.
    eapply ensures_mono;
      [eapply (install_link_live D g); eauto| |auto|auto].
    + exists cp. apply live_Some. exact Hp.
    + simpl. intros _ s' Hs'. split; [|exact Hs'].
      rewrite Hs in Hp. apply install_at_live in Hp as [(c & Hg & _)|(Hg & _)];
        congruence.
  - assert (Hg : g !! pos = Some None).
    { rewrite Hs in Hp. unfold install_at in Hp.
      destruct (g !! pos) as [[c|]|]; [discriminate|reflexivity|].
      case_decide; discriminate. }
    pose proof (cb_null s Hp) as Hcb.
    apply ensures_bind_intro. apply ensures_bind_intro.
    unfold never in Hcb.
    destruct (cb pos "" s); simpl in *; try (exfalso; exact Hcb);
      (destruct Hnull as [HD|Hn]; [exact HD|exfalso; exact (Hn Hg)]).
  - pose proof (cb_absent s Hp) as Hcb.
    assert (Hg : g !! pos = None).
    { rewrite Hs in Hp. unfold install_at in Hp.
      destruct (g !! pos) as [[c|]|]; [discriminate..|reflexivity]. }
    assert (Hne : pos <> this) by congruence.
    apply ensures_bind_intro. apply ensures_bind_intro.
    eapply ensures_mono; [exact Hcb| |auto|auto].
    intros [] s1 Hs1. simpl.
    apply ensures_bind_intro. rewrite (GetCellPtr_valid pos s1 Hv). simpl.
    rewrite Hs1, lookup_insert_eq. simpl.
    eapply ensures_mono;
      [eapply (install_link_live D (<[pos := Some new_Cell]> g))| |auto|auto].
    + rewrite Hs1. eapply install_fresh; eauto.
    + rewrite lookup_insert_ne by congruence. exact Hthis.
    + exists new_Cell. apply live_Some. rewrite Hs1. apply lookup_insert_eq.
    + simpl. intros _ s2 Hs2. split; [congruence|]. intros p. rewrite Hs2.
      eapply install_at_fresh_added; eauto. set_solver.
Qed.

Lemma relink_spec this impl s c0 :
  live s this = Some c0 ->
  (forall pos, pos ∈ Impl_GetReferencedCells impl -> makes_cell cb D pos) ->
  (D \/ ((forall q, q ∈ r_nodes_ c0 -> is_Some (live s q)) /\
         (forall q, q ∈ Impl_GetReferencedCells impl ->
                    cells_ s !! q <> Some None))) ->
  ensures (Cell_relink cb this impl s)
    (fun _ s' =>
       (forall q, q ∈ Impl_GetReferencedCells impl ->
                  cells_ s !! q <> Some None) /\
       forall p,
         cells_ s' !! p
         = install_at (cells_ s) this impl
             (list_to_set (Impl_GetReferencedCells impl)) (r_nodes_ c0)
             (list_to_set (Impl_GetReferencedCells impl)) p)
    never D.
Proof.
  intros Hc0 Hcb Hpre. pose proof Hc0 as Hg. apply live_Some in Hg.
  set (g := cells_ s) in *.
  unfold Cell_relink.
  (* impl_ = std::move(impl) *)
  apply ensures_bind_intro. rewrite (update_live _ _ _ _ Hc0). simpl.
  set (s1 := mkSheet _ _).
  assert (H1 : forall p, cells_ s1 !! p
                         = install_at g this impl (r_nodes_ c0) ∅ ∅ p).
  { intros p. subst s1. simpl. fold g. unfold install_at.
    destruct (decide (p = this)) as [->|Hne].
    - rewrite lookup_insert_eq, Hg. unfold set_impl.
      repeat case_decide; cell_eq.
    - rewrite lookup_insert_ne by congruence.
      destruct (g !! p) as [[c|]|]; try reflexivity.
      repeat case_decide; cell_eq. }
  assert (Hl1 : live s1 this = Some (set_impl impl c0)).
  { apply live_Some. subst s1. simpl. apply lookup_insert_eq. }
  apply ensures_bind_intro. rewrite (deref_live _ _ _ Hl1). simpl.
  (* the old outgoing cells forget this one *)
  apply ensures_bind_intro.
  eapply ensures_mono;
    [eapply (ensures_for_each
       (fun done s' => forall p,
          cells_ s' !! p
          = install_at g this impl (r_nodes_ c0) (list_to_set done) ∅ p)
       never D _ _ [] s1)| |auto|auto].
  { simpl. exact H1. }
  { intros done q s' Hq Hs'. apply elem_of_elements in Hq.
    apply ensures_update.
    - intros c Hc. simpl. rewrite list_to_set_snoc.
      eapply install_erase; eauto.
    - intros Hnone. destruct Hpre as [HD|[Hlive _]]; [exact HD|].
      destruct (Hlive q Hq) as [cq Hcq]. apply live_Some in Hcq.
      exfalso. unfold live in Hnone. rewrite Hs' in Hnone.
      unfold install_at in Hnone. fold g in Hcq. rewrite Hcq in Hnone.
      discriminate. }
  simpl. intros [] s2 H2. rewrite list_to_set_elements_L in H2.
  (* r_nodes_.clear() *)
  assert (exists c2, live s2 this = Some c2) as [c2 Hc2].
  { eexists. apply live_Some. rewrite H2. unfold install_at. rewrite Hg.
    reflexivity. }
  apply ensures_bind_intro. rewrite (update_live _ _ _ _ Hc2). simpl.
  set (s3 := mkSheet _ _).
  assert (H3 : forall p, cells_ s3 !! p
                         = install_at g this impl ∅ (r_nodes_ c0) ∅ p).
  { intros p. subst s3. simpl.
    destruct (decide (p = this)) as [->|Hne].
    - rewrite lookup_insert_eq. apply live_Some in Hc2. rewrite H2 in Hc2.
      unfold install_at in *. rewrite Hg in *. injection Hc2 as <-.
      unfold set_r_nodes. simpl. repeat case_decide; cell_eq.
    - rewrite lookup_insert_ne by congruence. rewrite H2.
      unfold install_at. destruct (g !! p) as [[c|]|]; try reflexivity.
      repeat case_decide; cell_eq. }
  (* UpdateDependencies *)
  unfold Cell_UpdateDependencies.
  assert (exists c3, live s3 this = Some c3 /\ impl_ c3 = impl) as (c3 & Hc3 & Himpl).
  { eexists. split; [apply live_Some; rewrite H3; unfold install_at;
                     rewrite Hg; reflexivity|].
    simpl. case_decide; congruence. }
  apply ensures_bind_intro. rewrite (deref_live _ _ _ Hc3). simpl. rewrite Himpl.
  eapply ensures_mono;
    [eapply (ensures_for_each
       (fun done s' =>
          (forall q, q ∈ done -> g !! q <> Some None) /\
          forall p,
            cells_ s' !! p
            = install_at g this impl (list_to_set done) (r_nodes_ c0)
                (list_to_set done) p)
       never D _ _ [] s3)| |auto|auto].
  { simpl. split; [intros q Hq; inversion Hq|exact H3]. }
  { intros done pos s' Hpos [Hdone Hs'].
    eapply ensures_mono; [eapply UpdateDependencies_step; eauto| |auto|auto].
    - eapply Impl_GetReferencedCells_valid; eauto.
    - destruct Hpre as [HD|[_ Hnn]]; [left; exact HD|right].
      apply Hnn. exact Hpos.
    - simpl. intros _ s'' [Hpos' Hs'']. split; [|exact Hs''].
      intros q Hq. apply elem_of_app in Hq as [Hq|Hq]; [auto|].
      apply list_elem_of_singleton in Hq. subst q. exact Hpos'. }
  simpl. intros [] s4 H4. exact H4.
Qed.

End Relink.


(** * Sheets that differ in caches only *)

Lemma Cell_forget_idemp c : Cell_forget (Cell_forget c) = Cell_forget c.
Proof. destruct c as [[]]; reflexivity. Qed.

Lemma structure_lookup s p :
  structure s !! p = (fun u : option Cell => Cell_forget <$> u) <$> cells_ s !! p.
Proof. unfold structure. apply lookup_fmap. Qed.

Lemma structure_live s s' p :
  structure s = structure s' ->
  Cell_forget <$> live s p = Cell_forget <$> live s' p.
Proof.
  intros Heq. pose proof (f_equal (fun m => m !! p) Heq) as Hp. simpl in Hp.
  rewrite !structure_lookup in Hp. unfold live.
  destruct (cells_ s !! p) as [[c|]|], (cells_ s' !! p) as [[c'|]|];
    simpl in *; congruence.
Qed.

Lemma structure_live_Some s s' p c :
  structure s = structure s' -> live s p = Some c ->
  exists c', live s' p = Some c' /\ Cell_forget c' = Cell_forget c.
Proof.
  intros Heq Hc. pose proof (structure_live s s' p Heq) as Hp.
  rewrite Hc in Hp. destruct (live s' p) as [c'|]; simpl in Hp; [|discriminate].
  exists c'. split; [reflexivity|congruence].
Qed.

Lemma structure_live_None s s' p :
  structure s = structure s' -> live s p = None -> live s' p = None.
Proof.
  intros Heq Hc. pose proof (structure_live s s' p Heq) as Hp.
  rewrite Hc in Hp. destruct (live s' p); simpl in Hp; congruence.
Qed.

Lemma Cell_forget_l_nodes c c' :
  Cell_forget c = Cell_forget c' -> l_nodes_ c = l_nodes_ c'.
Proof. intros Heq. apply (f_equal l_nodes_) in Heq. exact Heq. Qed.

Lemma Cell_forget_r_nodes c c' :
  Cell_forget c = Cell_forget c' -> r_nodes_ c = r_nodes_ c'.
Proof. intros Heq. apply (f_equal r_nodes_) in Heq. exact Heq. Qed.

Lemma structure_store s p c c' n :
  live s p = Some c -> Cell_forget c' = Cell_forget c ->
  structure (mkSheet (<[p := Some c']> (cells_ s)) n) = structure s.
Proof.
  intros Hc Heq. apply map_eq. intros q. rewrite !structure_lookup. simpl.
  apply live_Some in Hc.
  destruct (decide (q = p)) as [->|Hne].
  - rewrite lookup_insert_eq, Hc. simpl. congruence.
  - rewrite lookup_insert_ne by congruence. reflexivity.
Qed.

Section Invalidate.
Context `{Platform}.

Lemma Impl_forget_refs c c' :
  Cell_forget c = Cell_forget c' ->
  Impl_GetReferencedCells (impl_ c) = Impl_GetReferencedCells (impl_ c').
Proof.
  intros Heq. apply (f_equal impl_) in Heq. simpl in Heq.
  destruct (impl_ c), (impl_ c'); simpl in *; congruence.
Qed.

Lemma Impl_forget_text c c' :
  Cell_forget c = Cell_forget c' -> Cell_GetText c = Cell_GetText c'.
Proof.
  intros Heq. apply (f_equal impl_) in Heq. simpl in Heq. unfold Cell_GetText.
  destruct (impl_ c), (impl_ c'); simpl in *; congruence.
Qed.

(** [InvalidateCacheRecursive] touches caches only; it returns when the
    incoming sets lead to cells of the sheet along growing ranks and the fuel
    covers the ranks above [this]. *)
Lemma InvalidateCacheRecursive_spec (D : Prop) rank bound s0 :
  (D \/ up_ranked rank bound s0) ->
  forall fuel force this s,
    structure s = structure s0 ->
    (D \/ (is_Some (live s0 this) /\ (bound - rank this <= fuel)%nat)) ->
    ensures (Cell_InvalidateCacheRecursive fuel force this s)
      (fun _ s' => structure s' = structure s0) never D.
Proof.
  intros Hup. induction fuel as [|fuel IH]; intros force this s Hs Hpre.
  - simpl. destruct Hpre as [HD|[[c0 Hc0] Hfuel]]; [exact HD|].
    destruct Hup as [HD|Hup]; [exact HD|].
    destruct (Hup this c0 Hc0) as [Hlt _]. lia.
  - simpl. apply ensures_bind_intro. apply ensures_deref.
    + intros c Hc.
      destruct (Impl_IsCacheValid (impl_ c) || force); [|simpl; exact Hs].
      apply ensures_bind_intro. rewrite (update_live _ _ _ _ Hc). simpl.
      set (s1 := mkSheet _ _).
      assert (Hs1 : structure s1 = structure s0).
      { rewrite <- Hs. eapply structure_store; [exact Hc|].
        destruct c as [[]]; reflexivity. }
      eapply ensures_mono;
        [eapply (ensures_for_each
           (fun _ s' => structure s' = structure s0) never D _ _ [] s1)
        | |auto|auto].
      * exact Hs1.
      * intros _ q s' Hq Hs'. apply elem_of_elements in Hq.
        apply IH; [exact Hs'|].
        destruct Hpre as [HD|[[c0 Hc0] Hfuel]]; [left; exact HD|].
        destruct Hup as [HD|Hup]; [left; exact HD|right].
        destruct (structure_live_Some _ _ _ _ (eq_sym Hs) Hc0) as (c' & Hc' & Hf).
        rewrite Hc in Hc'. injection Hc' as <-.
        rewrite (Cell_forget_l_nodes _ _ Hf) in Hq.
        destruct (Hup this c0 Hc0) as [Hlt Hin].
        destruct (Hin q Hq) as [[cq Hcq] Hrank].
        destruct (Hup q cq Hcq) as [Hltq _].
        split; [eauto|lia].
      * simpl. auto.
    + intros Hnone. destruct Hpre as [HD|[[c0 Hc0] _]]; [exact HD|].
      destruct (structure_live_Some _ _ _ _ (eq_sym Hs) Hc0) as (c' & Hc' & _).
      congruence.
Qed.

End Invalidate.


Section Traversal.
Context `{Platform}.

Lemma push_unvisited_eq (visited : gset Position) incoming st :
  push_unvisited visited incoming st
  = reverse (filter (fun c => c ∉ visited) incoming) ++ st.
Proof.
  unfold push_unvisited. revert st.
  induction incoming as [|c incoming IH]; intros st; simpl; [reflexivity|].
  rewrite IH. rewrite filter_cons. destruct (decide (c ∈ visited)).
  - rewrite decide_False by tauto. reflexivity.
  - rewrite decide_True by assumption.
    rewrite reverse_cons, <- app_assoc. reflexivity.
Qed.

Lemma push_unvisited_elem_of (visited : gset Position) incoming st x :
  x ∈ push_unvisited visited incoming st <->
  (x ∈ incoming /\ x ∉ visited) \/ x ∈ st.
Proof.
  rewrite push_unvisited_eq, elem_of_app, elem_of_reverse, list_elem_of_filter.
  tauto.
Qed.

Lemma visit_loop_sound referenced s :
  forall fuel to_visit visited,
    (forall v, v ∈ visited -> Some v ∉ referenced) ->
    (forall v c y, v ∈ visited -> live s v = Some c -> y ∈ l_nodes_ c ->
                   y ∈ visited \/ y ∈ to_visit) ->
    ensures (visit_loop fuel referenced to_visit visited s)
      (fun b s' => s' = s /\
         if b then exists x y, y ∈ to_visit /\ Some x ∈ referenced /\
                               rtc (feeds s) x y
         else exists V : gset Position,
                visited ⊆ V /\ (forall x, x ∈ to_visit -> x ∈ V) /\
                (forall v, v ∈ V -> Some v ∉ referenced) /\
                closed_upwards s V)
      never True.
Proof.
  induction fuel as [|fuel IH]; intros to_visit visited Hclean Hfed;
    destruct to_visit as [|current rest]; simpl; try exact I.
  - split; [reflexivity|]. exists visited.
    split; [reflexivity|]. split; [intros x Hx; inversion Hx|].
    split; [exact Hclean|].
    intros v c y Hv Hc Hy. destruct (Hfed v c y Hv Hc Hy) as [?|Hin];
      [assumption|inversion Hin].
  - split; [reflexivity|]. exists visited.
    split; [reflexivity|]. split; [intros x Hx; inversion Hx|].
    split; [exact Hclean|].
    intros v c y Hv Hc Hy. destruct (Hfed v c y Hv Hc Hy) as [?|Hin];
      [assumption|inversion Hin].
  - destruct (decide (Some current ∈ referenced)) as [Hin|Hnin]; simpl.
    + split; [reflexivity|]. exists current, current.
      split; [left|]. split; [exact Hin|reflexivity].
    + apply ensures_bind_intro. apply ensures_deref; [|intros; exact I].
      intros c Hc.
      eapply ensures_mono; [apply IH| |auto|auto].
      * intros v Hv. apply elem_of_union in Hv as [Hv|Hv]; [|auto].
        apply elem_of_singleton in Hv. subst v. exact Hnin.
      * intros v cv y Hv Hcv Hy. rewrite push_unvisited_elem_of.
        destruct (decide (y ∈ {[current]} ∪ visited)); [left; assumption|].
        right. apply elem_of_union in Hv as [Hv|Hv].
        -- apply elem_of_singleton in Hv. subst v.
           rewrite Hc in Hcv. injection Hcv as <-.
           left. split; [apply elem_of_elements; exact Hy|assumption].
        -- destruct (Hfed v cv y Hv Hcv Hy) as [Hy'|Hy']; [set_solver|].
           apply elem_of_cons in Hy' as [->|Hy']; [set_solver|].
           right. exact Hy'.
      * simpl. intros [] s' [-> Hpost]; (split; [reflexivity|]).
        -- destruct Hpost as (x & y & Hy & Hx & Hpath).
           apply push_unvisited_elem_of in Hy as [[Hy _]|Hy].
           ++ exists x, current. split; [left|]. split; [exact Hx|].
              eapply rtc_r; [exact Hpath|]. exists c.
              split; [exact Hc|]. apply elem_of_elements. exact Hy.
           ++ exists x, y. split; [right; exact Hy|]. split; assumption.
        -- destruct Hpost as (V & Hsub & Hstack & Hc' & Hclosed).
           exists V. split; [set_solver|]. split; [|split; assumption].
           intros x Hx. apply elem_of_cons in Hx as [->|Hx]; [set_solver|].
           apply Hstack. apply push_unvisited_elem_of. right. exact Hx.
Qed.

Lemma NoDup_length_le_size (l : list Position) (X : gset Position) :
  NoDup l -> (forall x, x ∈ l -> x ∈ X) -> (length l <= size X)%nat.
Proof.
  intros Hnd Hsub.
  rewrite <- (size_list_to_set (C:=gset Position) l Hnd).
  apply subseteq_size. intros x Hx. apply elem_of_list_to_set in Hx. auto.
Qed.

Lemma visit_loop_terminates referenced s (U : gset Position) :
  (forall p c q, live s p = Some c -> q ∈ l_nodes_ c -> is_Some (live s q)) ->
  (forall p, is_Some (live s p) -> p ∈ U) ->
  forall fuel to_visit visited,
    (forall x, x ∈ to_visit -> is_Some (live s x)) ->
    visited ⊆ U ->
    stacked s to_visit visited ->
    (length to_visit + (size U - size visited) * S (size U) <= fuel)%nat ->
    exists b, visit_loop fuel referenced to_visit visited s = Returns b s.
Proof.
  intros Hlive HU.
  induction fuel as [|fuel IH]; intros to_visit visited Hstack Hsub Hlifo Hfuel;
    destruct to_visit as [|current rest]; simpl; try (exists false; reflexivity).
  - exfalso. change (length (current :: rest)) with (S (length rest)) in Hfuel. nia.
  - destruct (decide (Some current ∈ referenced)); [exists true; reflexivity|].
    destruct (Hstack current) as [c Hc]; [left|].
    unfold bind. rewrite (deref_live _ _ _ Hc).
    set (visited' := {[current]} ∪ visited).
    assert (HcurU : current ∈ U) by (apply HU; eauto).
    assert (Hpush :
      forall y, y ∈ filter (fun c => c ∉ visited') (elements (l_nodes_ c)) ->
                y ∈ l_nodes_ c /\ y ∉ visited').
    { intros y Hy. apply list_elem_of_filter in Hy as [Hy1 Hy2].
      apply elem_of_elements in Hy2. auto. }
    apply IH.
    + intros x Hx. apply push_unvisited_elem_of in Hx as [[Hx _]|Hx].
      * apply elem_of_elements in Hx. eapply Hlive; eauto.
      * apply Hstack. right. exact Hx.
    + subst visited'. set_solver.
    + (* the stack discipline *)
      intros pre x post cx y Heq Hx Hcx Hy.
      rewrite push_unvisited_eq in Heq.
      apply app_eq_inv in Heq as [(k & Hk1 & Hk2)|(k & Hk1 & Hk2)].
      * destruct k as [|x' k'].
        -- simpl in Hk2. rewrite app_nil_r in Hk1. subst rest.
           apply elem_of_union in Hx as [Hx|Hx].
           ++ apply elem_of_singleton in Hx. subst x.
              rewrite Hc in Hcx. injection Hcx as <-.
              destruct (decide (y ∈ visited')); [left; assumption|right].
              rewrite <- Hk1. apply elem_of_reverse, list_elem_of_filter.
              split; [assumption|apply elem_of_elements; exact Hy].
           ++ destruct (Hlifo [current] x post cx y eq_refl Hx Hcx Hy)
                as [Hy'|Hy'].
              ** left. subst visited'. set_solver.
              ** left. apply list_elem_of_singleton in Hy'. subst visited'.
                 set_solver.
        -- simpl in Hk2. injection Hk2 as <- Hk2. exfalso.
           assert (Hxin : x ∈ reverse
                     (filter (fun c => c ∉ visited') (elements (l_nodes_ c)))).
           { rewrite Hk1. apply elem_of_app. right. left. }
           apply elem_of_reverse, Hpush in Hxin. tauto.
      * subst pre.
        apply elem_of_union in Hx as [Hx|Hx].
        -- apply elem_of_singleton in Hx. subst x.
           rewrite Hc in Hcx. injection Hcx as <-.
           destruct (decide (y ∈ visited')); [left; assumption|right].
           apply elem_of_app. left. apply elem_of_reverse, list_elem_of_filter.
           split; [assumption|apply elem_of_elements; exact Hy].
        -- destruct (Hlifo (current :: k) x post cx y) as [Hy'|Hy'];
             [simpl; congruence|assumption..| |].
           ++ left. subst visited'. set_solver.
           ++ apply elem_of_cons in Hy' as [->|Hy'].
              ** left. subst visited'. set_solver.
              ** right. apply elem_of_app. right. exact Hy'.
    + (* the measure *)
      rewrite push_unvisited_eq, length_app, length_reverse.
      change (length (current :: rest)) with (S (length rest)) in Hfuel.
      destruct (decide (current ∈ visited)) as [Hin|Hnin].
      * assert (Hnil : filter (fun c0 => c0 ∉ visited') (elements (l_nodes_ c))
                       = []).
        { destruct (filter _ _) as [|y l] eqn:Hf; [reflexivity|exfalso].
          destruct (Hpush y) as [Hy1 Hy2]; [left|].
          destruct (Hlifo [] current rest c y eq_refl Hin Hc Hy1) as [Hy'|Hy'].
          - apply Hy2. subst visited'. set_solver.
          - inversion Hy'. }
        rewrite Hnil. simpl.
        assert (Hsz : size visited' = size visited).
        { f_equal. subst visited'. apply leibniz_equiv. set_solver. }
        rewrite Hsz. lia.
      * assert (Hsz : size visited' = S (size visited)).
        { subst visited'. rewrite size_union by set_solver.
          rewrite size_singleton. reflexivity. }
        assert (Hlt : (size visited' <= size U)%nat).
        { apply subseteq_size. subst visited'. set_solver. }
        assert (Hlen :
          (length (filter (fun c0 => c0 ∉ visited') (elements (l_nodes_ c)))
           <= size (U ∖ visited'))%nat).
        { apply NoDup_length_le_size.
          - apply NoDup_filter, NoDup_elements.
          - intros y Hy. apply Hpush in Hy as [Hy1 Hy2].
            apply elem_of_difference. split; [|assumption].
            apply HU. eapply Hlive; eauto. }
        rewrite size_difference in Hlen by (subst visited'; set_solver).
        rewrite Hsz in *. nia.
Qed.

End Traversal.


Section CycleCheck.
Context `{Platform}.

Lemma collect_referenced_spec refs :
  forall acc s,
    (forall p, p ∈ refs -> IsValid p = true) ->
    exists R, collect_referenced refs acc s = Returns R s /\
      forall x, Some x ∈ R <->
                Some x ∈ acc \/ (x ∈ refs /\ is_Some (live s x)).
Proof.
  induction refs as [|pos refs IH]; intros acc s Hvalid; simpl.
  - exists acc. split; [reflexivity|]. intros x. split; [auto|].
    intros [?|[Hx _]]; [assumption|inversion Hx].
  - unfold bind at 1. rewrite GetCellPtr_valid by (apply Hvalid; left).
    destruct (IH ({[match cells_ s !! pos with
                    | Some (Some _) => Some pos
                    | _ => None
                    end]} ∪ acc) s) as (R & HR & Hin).
    { intros p Hp. apply Hvalid. right. exact Hp. }
    exists R. split; [exact HR|]. intros x. rewrite Hin.
    rewrite elem_of_union, elem_of_singleton, elem_of_cons.
    assert (Hpos : Some x = match cells_ s !! pos with
                            | Some (Some _) => Some pos
                            | _ => None
                            end <-> x = pos /\ is_Some (live s x)).
    { unfold live. split.
      - destruct (cells_ s !! pos) as [[c|]|] eqn:Hc; intros [= ->].
        rewrite Hc. eauto.
      - intros [-> [c Hc]]. destruct (cells_ s !! pos) as [[c'|]|];
          [reflexivity|discriminate..]. }
    rewrite Hpos. split.
    + intros [[[-> Hl]|?]|[? ?]]; auto.
    + intros [?|[[->|?] ?]]; auto.
Qed.

Lemma WouldIntroduce_sound fuel this impl s :
  ensures (Cell_WouldIntroduceCircularDependency fuel this impl s)
    (fun b s' => s' = s /\
       if b then cycle_witness s this impl else no_cycle_witness s this impl)
    never True.
Proof.
  unfold Cell_WouldIntroduceCircularDependency, no_cycle_witness, cycle_witness.
  destruct (Impl_GetReferencedCells impl) as [|r refs] eqn:Hrefs.
  { simpl. auto. }
  rewrite <- Hrefs.
  destruct (collect_referenced_spec (Impl_GetReferencedCells impl) ∅ s)
    as (R & HR & Hin).
  { intros p. apply Impl_GetReferencedCells_valid. }
  unfold bind. rewrite HR.
  eapply ensures_mono; [apply (visit_loop_sound R s fuel [this] ∅)| |auto|auto].
  - intros v Hv. set_solver.
  - intros v c y Hv. set_solver.
  - simpl. intros b s' [-> Hpost]. split; [reflexivity|]. destruct b.
    + destruct Hpost as (x & y & Hy & Hx & Hpath).
      apply list_elem_of_singleton in Hy. subst y.
      apply Hin in Hx as [Hx|[Hx Hl]]; [set_solver|].
      exists x. auto.
    + right. destruct Hpost as (V & _ & Hstack & Hclean & Hclosed).
      exists V. split; [apply Hstack; left|]. split; [exact Hclosed|].
      intros x Hx Hl Hv. apply (Hclean x Hv). apply Hin. right. auto.
Qed.

Lemma WouldIntroduce_terminates fuel this impl s :
  (forall p c q, live s p = Some c -> q ∈ l_nodes_ c -> is_Some (live s q)) ->
  is_Some (live s this) ->
  (S (size (dom (cells_ s)) * S (size (dom (cells_ s)))) <= fuel)%nat ->
  exists b, Cell_WouldIntroduceCircularDependency fuel this impl s
            = Returns b s.
Proof.
  intros Hlive Hthis Hfuel.
  unfold Cell_WouldIntroduceCircularDependency.
  destruct (Impl_GetReferencedCells impl) as [|r refs] eqn:Hrefs.
  { exists false. reflexivity. }
  rewrite <- Hrefs.
  destruct (collect_referenced_spec (Impl_GetReferencedCells impl) ∅ s)
    as (R & HR & _).
  { intros p. apply Impl_GetReferencedCells_valid. }
  unfold bind. rewrite HR.
  apply (visit_loop_terminates R s (dom (cells_ s))); auto.
  - intros p [c Hc]. apply live_Some in Hc. apply elem_of_dom. eauto.
  - intros x Hx. apply list_elem_of_singleton in Hx. subst x. exact Hthis.
  - set_solver.
  - intros pre x post c y _ Hx. set_solver.
  - rewrite size_empty. simpl. lia.
Qed.

(** [CreateImpl] reads the text only. *)
Lemma CreateImpl_cases text s :
  (exists impl, Cell_CreateImpl text s = Returns impl s /\
                forall s', Cell_CreateImpl text s' = Returns impl s') \/
  Cell_CreateImpl text s = Throws FormulaException s.
Proof.
  unfold Cell_CreateImpl. destruct text as [|c rest]; [left; eauto|].
  destruct ((1 <? String.length (String c rest))%nat && bool_decide (c = FORMULA_SIGN))
    eqn:Hform.
  - apply andb_prop in Hform as [_ Hc]. apply bool_decide_eq_true in Hc.
    unfold FormulaImpl_new. rewrite decide_True by assumption.
    unfold bind, ParseFormula.
    destruct (ParseFormulaAST rest); [left; eauto|right; reflexivity].
  - left. simpl. eauto.
Qed.

Lemma CreateImpl_empty s : Cell_CreateImpl "" s = Returns EmptyImpl s.
Proof. reflexivity. Qed.

Lemma Cell_Set_unfold cb fuel this text s :
  Cell_Set cb fuel this text s =
  (do impl <- Cell_CreateImpl text;
   do cyclic <- Cell_WouldIntroduceCircularDependency fuel this impl;
   if (cyclic : bool) then throw CircularDependencyException
   else (Cell_relink cb this impl ;;
         Cell_InvalidateCacheRecursive fuel true this)) s.
Proof.
  unfold Cell_Set, Cell_relink, bind.
  repeat (match goal with
          | |- context [match ?o with Returns _ _ => _ | _ => _ end] =>
              destruct o; try reflexivity
          | |- context [if ?b then _ else _] => destruct b; try reflexivity
          end).
Qed.

End CycleCheck.


Section WellFormed.
Context `{Platform}.

Lemma well_formed_CreateSheet : well_formed CreateSheet.
Proof.
  split.
  - intros p c q Hc. discriminate.
  - intros p q cp cq Hc. discriminate.
  - intros p c Hc. discriminate.
  - exists (fun _ => O), 1%nat. intros p c Hc. discriminate.
Qed.

Lemma structure_live_fields s s' p c' :
  structure s = structure s' -> live s' p = Some c' ->
  exists c, live s p = Some c /\ l_nodes_ c = l_nodes_ c' /\
            r_nodes_ c = r_nodes_ c' /\
            Impl_GetReferencedCells (impl_ c)
            = Impl_GetReferencedCells (impl_ c').
Proof.
  intros Heq Hc'.
  destruct (structure_live_Some s' s p c' (eq_sym Heq) Hc') as (c & Hc & Hf).
  exists c. split; [exact Hc|].
  split; [eapply Cell_forget_l_nodes; eauto|].
  split; [eapply Cell_forget_r_nodes; eauto|].
  eapply Impl_forget_refs; eauto.
Qed.

Lemma ranked_structure rank bound s s' :
  structure s = structure s' -> ranked rank bound s -> ranked rank bound s'.
Proof.
  intros Heq Hr p c' Hc'.
  destruct (structure_live_fields s s' p c' Heq Hc') as (c & Hc & _ & Hrn & _).
  rewrite <- Hrn. eauto.
Qed.

Lemma well_formed_structure s s' :
  structure s = structure s' -> well_formed s -> well_formed s'.
Proof.
  intros Heq [Hd Hm Ho [rank [bound Hr]]]. split.
  - intros p c' q Hc' Hq.
    destruct (structure_live_fields s s' p c' Heq Hc') as (c & Hc & Hl & Hrn & _).
    rewrite <- Hl, <- Hrn in Hq. destruct (Hd p c q Hc Hq) as [cq Hcq].
    destruct (structure_live_Some s s' q cq Heq Hcq) as (cq' & Hcq' & _). eauto.
  - intros p q cp' cq' Hp Hq.
    destruct (structure_live_fields s s' p cp' Heq Hp) as (cp & Hcp & _ & Hrn & _).
    destruct (structure_live_fields s s' q cq' Heq Hq) as (cq & Hcq & Hl & _ & _).
    rewrite <- Hrn, <- Hl. eauto.
  - intros p c' Hc'.
    destruct (structure_live_fields s s' p c' Heq Hc') as (c & Hc & _ & Hrn & Hi).
    rewrite <- Hrn, <- Hi. eauto.
  - exists rank, bound. eapply ranked_structure; eauto.
Qed.

Lemma well_formed_up_ranked rank bound s :
  well_formed s -> ranked rank bound s -> up_ranked rank bound s.
Proof.
  intros [Hd Hm _ _] Hr p c Hc. split; [apply (Hr p c Hc)|].
  intros q Hq. destruct (Hd p c q Hc) as [cq Hcq]; [set_solver|].
  split; [eauto|]. apply (Hr q cq Hcq). apply (Hm q p cq c Hcq Hc). exact Hq.
Qed.

Lemma ranked_acyclic rank bound s : ranked rank bound s -> acyclic s.
Proof.
  intros Hr.
  assert (Hdec : forall p q, tc (edge s) p q -> (rank q < rank p)%nat).
  { intros p q Hpq. induction Hpq as [p q (c & Hc & Hq)|p q r (c & Hc & Hq) _ IH].
    - apply (Hr p c Hc). exact Hq.
    - pose proof (proj2 (Hr p c Hc) q Hq). lia. }
  intros p Hp. apply Hdec in Hp. lia.
Qed.

Lemma well_formed_acyclic s : well_formed s -> acyclic s.
Proof. intros [_ _ _ [rank [bound Hr]]]. eapply ranked_acyclic; eauto. Qed.

(** A cell constructed at a position without an entry. *)
Lemma well_formed_materialized pos s :
  well_formed s -> well_formed (materialized pos s).
Proof.
  intros Hwf. unfold materialized.
  destruct (cells_ s !! pos) as [u|] eqn:Hpos; [exact Hwf|].
  destruct Hwf as [Hd Hm Ho [rank [bound Hr]]].
  assert (Hlive : forall p c,
            live (mkSheet (<[pos := Some new_Cell]> (cells_ s)) (evaluate_calls s)) p
            = Some c ->
            (p = pos /\ c = new_Cell) \/ (p <> pos /\ live s p = Some c)).
  { intros p c Hc. apply live_Some in Hc. simpl in Hc.
    destruct (decide (p = pos)) as [->|Hne].
    - rewrite lookup_insert_eq in Hc. left. split; congruence.
    - rewrite lookup_insert_ne in Hc by congruence. right.
      split; [assumption|apply live_Some; exact Hc]. }
  assert (Hkeep : forall p, is_Some (live s p) ->
            is_Some (live (mkSheet (<[pos := Some new_Cell]> (cells_ s))
                                   (evaluate_calls s)) p)).
  { intros p [c Hc]. exists c. apply live_Some. simpl.
    apply live_Some in Hc. rewrite lookup_insert_ne by congruence. exact Hc. }
  split.
  - intros p c q Hc Hq. apply Hlive in Hc as [[-> ->]|[Hne Hc]].
    + simpl in Hq. set_solver.
    + apply Hkeep. eapply Hd; eauto.
  - intros p q cp cq Hp Hq.
    apply Hlive in Hp as [[-> ->]|[Hnp Hp]];
      apply Hlive in Hq as [[-> ->]|[Hnq Hq]]; simpl.
    + set_solver.
    + split; [set_solver|]. intros Hin. exfalso.
      destruct (Hd q cq pos Hq) as [c Hc]; [set_solver|].
      apply live_Some in Hc. congruence.
    + split; [|set_solver]. intros Hin. exfalso.
      destruct (Hd p cp pos Hp) as [c Hc]; [set_solver|].
      apply live_Some in Hc. congruence.
    + eauto.
  - intros p c Hc. apply Hlive in Hc as [[-> ->]|[Hne Hc]]; [reflexivity|eauto].
  - exists rank, (Nat.max bound (S (rank pos))). intros p c Hc.
    apply Hlive in Hc as [[-> ->]|[Hne Hc]].
    + split; [lia|]. simpl. set_solver.
    + destruct (Hr p c Hc) as [Hlt Hout]. split; [lia|exact Hout].
Qed.

(** A cell that nothing refers to and that refers to nothing is destroyed. *)
Lemma well_formed_reset pos s c :
  well_formed s -> live s pos = Some c ->
  l_nodes_ c = ∅ -> r_nodes_ c = ∅ ->
  well_formed (mkSheet (<[pos := None]> (cells_ s)) (evaluate_calls s)).
Proof.
  intros [Hd Hm Ho [rank [bound Hr]]] Hpos Hl Hrn.
  set (s' := mkSheet _ _).
  assert (Hlive : forall p cp, live s' p = Some cp ->
                               p <> pos /\ live s p = Some cp).
  { intros p cp Hc. apply live_Some in Hc. subst s'. simpl in Hc.
    destruct (decide (p = pos)) as [->|Hne].
    - rewrite lookup_insert_eq in Hc. discriminate.
    - rewrite lookup_insert_ne in Hc by congruence.
      split; [assumption|apply live_Some; exact Hc]. }
  assert (Hkeep : forall p cp, p <> pos -> live s p = Some cp ->
                               live s' p = Some cp).
  { intros p cp Hne Hc. apply live_Some. subst s'. simpl.
    rewrite lookup_insert_ne by congruence. apply live_Some. exact Hc. }
  split.
  - intros p cp q Hc Hq. apply Hlive in Hc as [Hne Hc].
    destruct (Hd p cp q Hc Hq) as [cq Hcq].
    destruct (decide (q = pos)) as [->|Hnq]; [|eauto].
    exfalso. rewrite Hpos in Hcq. injection Hcq as <-.
    apply elem_of_union in Hq as [Hq|Hq].
    + apply (Hm pos p c cp Hpos Hc) in Hq. set_solver.
    + apply (Hm p pos cp c Hc Hpos) in Hq. set_solver.
  - intros p q cp cq Hp Hq. apply Hlive in Hp as [_ Hp].
    apply Hlive in Hq as [_ Hq]. eauto.
  - intros p cp Hc. apply Hlive in Hc as [_ Hc]. eauto.
  - exists rank, bound. intros p cp Hc. apply Hlive in Hc as [_ Hc]. eauto.
Qed.

End WellFormed.


Section Installed.
Context `{Platform}.
Variables (s : Sheet) (this : Position) (impl : Impl) (c0 : Cell) (s1 : Sheet).
Hypothesis Hwf : well_formed s.
Hypothesis Hthis : live s this = Some c0.
Hypothesis Hnull : forall q, q ∈ Impl_GetReferencedCells impl ->
                             cells_ s !! q <> Some None.
Hypothesis Hs1 : installed s this impl c0 s1.

Lemma installed_cases p c1 :
  live s1 p = Some c1 ->
  (exists c, live s p = Some c /\
     impl_ c1 = (if decide (p = this) then impl else impl_ c) /\
     r_nodes_ c1 = (if decide (p = this)
                    then list_to_set (Impl_GetReferencedCells impl)
                    else r_nodes_ c) /\
     forall y, y ∈ l_nodes_ c1 <->
               (y <> this /\ y ∈ l_nodes_ c) \/
               (y = this /\ p ∈ Impl_GetReferencedCells impl)) \/
  (live s p = None /\ p <> this /\ p ∈ Impl_GetReferencedCells impl /\
   c1 = mkCell EmptyImpl {[ this ]} ∅).
Proof.
  intros Hc1. apply live_Some in Hc1. rewrite Hs1 in Hc1.
  apply install_at_live in Hc1 as [(c & Hc & ->)|(Hc & Hin & ->)].
  - left. exists c. apply live_Some in Hc. split; [exact Hc|]. simpl.
    split; [reflexivity|]. split; [reflexivity|].
    intros y.
    assert (Hmir : p ∈ r_nodes_ c0 <-> this ∈ l_nodes_ c)
      by (apply (wf_mirrored s Hwf this p c0 c Hthis Hc)).
    repeat case_decide; set_solver.
  - right. apply elem_of_list_to_set in Hin.
    assert (live s p = None) by (unfold live; rewrite Hc; reflexivity).
    repeat split; try assumption. congruence.
Qed.

Lemma installed_old p c :
  live s p = Some c -> is_Some (live s1 p).
Proof.
  intros Hc. apply live_Some in Hc. unfold live. rewrite Hs1.
  unfold install_at. rewrite Hc. eauto.
Qed.

Lemma installed_ref p : p ∈ Impl_GetReferencedCells impl -> is_Some (live s1 p).
Proof.
  intros Hp. unfold live. rewrite Hs1. unfold install_at.
  pose proof (Hnull p Hp) as Hn.
  destruct (cells_ s !! p) as [[c|]|]; [eauto|congruence|].
  rewrite decide_True by (apply elem_of_list_to_set; exact Hp). eauto.
Qed.

Lemma installed_no_dangling : no_dangling s1.
Proof.
  intros p c1 q Hc1 Hq.
  apply installed_cases in Hc1
    as [(c & Hc & _ & Hr & Hl)|(_ & _ & _ & ->)].
  - apply elem_of_union in Hq as [Hq|Hq].
    + apply Hl in Hq as [[_ Hq]|[-> _]].
      * destruct (wf_no_dangling s Hwf p c q Hc) as [cq Hcq]; [set_solver|].
        eapply installed_old; eauto.
      * eapply installed_old; eauto.
    + rewrite Hr in Hq. case_decide.
      * apply elem_of_list_to_set in Hq. apply installed_ref. exact Hq.
      * destruct (wf_no_dangling s Hwf p c q Hc) as [cq Hcq]; [set_solver|].
        eapply installed_old; eauto.
  - simpl in Hq. assert (q = this) as -> by set_solver.
    eapply installed_old; eauto.
Qed.

Lemma installed_mirrored : mirrored s1.
Proof.
  intros p q cp cq Hp Hq.
  apply installed_cases in Hp
    as [(c & Hc & _ & Hr & _)|(Hnone & Hne & Hin & ->)];
    apply installed_cases in Hq
      as [(c' & Hc' & _ & _ & Hl')|(Hnone' & Hne' & Hin' & ->)]; simpl.
  - rewrite Hr, Hl'. pose proof (wf_mirrored s Hwf p q c c' Hc Hc') as Hm.
    case_decide.
    + subst p. rewrite elem_of_list_to_set. tauto.
    + tauto.
  - rewrite Hr. case_decide.
    + subst p. rewrite elem_of_list_to_set. set_solver.
    + split; [|set_solver]. intros Hin. exfalso.
      destruct (wf_no_dangling s Hwf p c q Hc) as [cq Hcq]; [set_solver|].
      congruence.
  - rewrite Hl'. split; [set_solver|].
    intros [[_ Hin']|[-> _]]; [|congruence]. exfalso.
    destruct (wf_no_dangling s Hwf q c' p Hc') as [cp Hcp]; [set_solver|].
    congruence.
  - set_solver.
Qed.

Lemma installed_outgoing p c1 :
  live s1 p = Some c1 ->
  r_nodes_ c1 = list_to_set (Impl_GetReferencedCells (impl_ c1)).
Proof.
  intros Hc1. apply installed_cases in Hc1
    as [(c & Hc & Hi & Hr & _)|(_ & _ & _ & ->)]; [|reflexivity].
  rewrite Hi, Hr. case_decide; [reflexivity|].
  apply (wf_outgoing s Hwf p c Hc).
Qed.

Lemma rank_ref_le rank q :
  q ∈ Impl_GetReferencedCells impl -> (rank q <= refs_rank impl rank)%nat.
Proof.
  intros Hq. unfold refs_rank. apply max_list_elem_of_le. apply list_elem_of_fmap. eauto.
Qed.

Lemma installed_ranked rank bound V :
  ranked rank bound s ->
  this ∈ V -> closed_upwards s V ->
  (forall x, x ∈ Impl_GetReferencedCells impl -> is_Some (live s x) -> x ∉ V) ->
  ranked (lifted_rank s impl rank V) (bound + S (refs_rank impl rank)) s1.
Proof.
  intros Hr HthisV Hclosed Hrefs p c1 Hc1.
  assert (Hlift : forall x,
            lifted_rank s impl rank V x
            = (rank x + S (refs_rank impl rank))%nat \/
            lifted_rank s impl rank V x = rank x).
  { intros x. unfold lifted_rank. case_decide; auto. }
  assert (Hup : forall x, x ∈ V -> is_Some (live s x) ->
            lifted_rank s impl rank V x
            = (rank x + S (refs_rank impl rank))%nat).
  { intros x ? ?. unfold lifted_rank. rewrite decide_True by auto. reflexivity. }
  assert (Hdown : forall x, ~ (x ∈ V /\ is_Some (live s x)) ->
            lifted_rank s impl rank V x = rank x).
  { intros x ?. unfold lifted_rank. rewrite decide_False by auto. reflexivity. }
  apply installed_cases in Hc1
    as [(c & Hc & _ & Hrn & _)|(Hnone & Hne & Hin & ->)].
  - destruct (Hr p c Hc) as [Hlt Hout]. split.
    + destruct (Hlift p) as [->| ->]; lia.
    + intros q Hq. rewrite Hrn in Hq. case_decide.
      * subst p. apply elem_of_list_to_set in Hq.
        pose proof (rank_ref_le rank q Hq).
        rewrite (Hdown q) by (intros [? ?]; eapply Hrefs; eauto).
        rewrite (Hup this) by eauto. lia.
      * pose proof (Hout q Hq) as Hqp.
        destruct (wf_no_dangling s Hwf p c q Hc) as [cq Hcq]; [set_solver|].
        destruct (decide (q ∈ V)) as [HqV|HqV].
        -- assert (p ∈ V).
           { eapply (Hclosed q cq p HqV Hcq).
             apply (wf_mirrored s Hwf p q c cq Hc Hcq). exact Hq. }
           rewrite (Hup q), (Hup p) by eauto. lia.
        -- rewrite (Hdown q) by tauto. destruct (Hlift p) as [->| ->]; lia.
  - simpl. split; [|set_solver].
    pose proof (rank_ref_le rank p Hin).
    rewrite Hdown; [lia|]. rewrite Hnone. intros [_ [? ?]]. discriminate.
Qed.

Lemma installed_ranked_same rank bound :
  ranked rank bound s -> Impl_GetReferencedCells impl = [] -> ranked rank bound s1.
Proof.
  intros Hr Hnil p c1 Hc1.
  apply installed_cases in Hc1
    as [(c & Hc & _ & Hrn & _)|(Hnone & Hne & Hin & ->)].
  - destruct (Hr p c Hc) as [Hlt Hout]. split; [exact Hlt|].
    intros q Hq. rewrite Hrn in Hq. case_decide; [|auto].
    rewrite Hnil in Hq. set_solver.
  - rewrite Hnil in Hin. inversion Hin.
Qed.

End Installed.

Section InstallWellFormed.
Context `{Platform}.

(** The new body and links keep the sheet well formed, with ranks that do
    not depend on how the caches came out. *)
Lemma install_well_formed s this impl c0 :
  well_formed s -> live s this = Some c0 ->
  no_cycle_witness s this impl ->
  (forall q, q ∈ Impl_GetReferencedCells impl -> cells_ s !! q <> Some None) ->
  exists rank' bound', forall s1,
    installed s this impl c0 s1 -> well_formed s1 /\ ranked rank' bound' s1.
Proof.
  intros Hwf Hthis Hw Hnull.
  destruct (wf_ranked s Hwf) as (rank & bound & Hr).
  assert (Hrest : forall rank' bound' s1,
            installed s this impl c0 s1 -> ranked rank' bound' s1 ->
            well_formed s1 /\ ranked rank' bound' s1).
  { intros rank' bound' s1 Hs1 Hr'. split; [|exact Hr']. split.
    - eapply installed_no_dangling; eauto.
    - eapply installed_mirrored; eauto.
    - eapply installed_outgoing; eauto.
    - eauto. }
  destruct Hw as [Hnil|(V & HV & Hclosed & Hrefs)].
  - exists rank, bound. intros s1 Hs1. apply Hrest; [exact Hs1|].
    eapply installed_ranked_same; eauto.
  - eexists _, _. intros s1 Hs1. apply Hrest; [exact Hs1|].
    eapply (installed_ranked s this impl c0 s1); eauto.
Qed.

End InstallWellFormed.


Section SetSpec.
Context `{Platform}.

Lemma ensures_defined {A} (o : Outcome A) Q E (D : Prop) :
  ensures o Q E True ->
  (D \/ exists a s, o = Returns a s) ->
  ensures o Q E D.
Proof.
  intros Ho [HD|(a & s & ->)]; [|exact Ho].
  destruct o; simpl in *; auto.
Qed.

(** [SetCell(pos, "")] on a position without an entry makes an empty cell
    and nothing else. *)
Lemma SetCell_makes_cell (D : Prop) n pos :
  IsValid pos = true -> (D \/ (2 <= n)%nat) ->
  makes_cell (Sheet_SetCell n) D pos.
Proof.
  intros Hv Hn. split.
  - intros s Hpos. destruct n as [|n]; simpl.
    { destruct Hn as [HD|Hn]; [exact HD|lia]. }
    unfold Sheet_ValidatePosition. rewrite Hv.
    unfold bind at 1, ret at 1. unfold bind at 1, get at 1. rewrite Hpos.
    unfold bind at 1, emplace, store.
    set (s1 := mkSheet _ _).
    assert (Hl1 : live s1 pos = Some new_Cell).
    { apply live_Some. subst s1. simpl. apply lookup_insert_eq. }
    unfold bind at 1. rewrite (deref_live _ _ _ Hl1).
    rewrite Cell_Set_unfold.
    unfold bind at 1. rewrite CreateImpl_empty.
    unfold bind at 1. unfold Cell_WouldIntroduceCircularDependency. simpl.
    apply ensures_bind_intro.
    eapply ensures_mono;
      [eapply (relink_spec (Sheet_SetCell n) D pos EmptyImpl s1 new_Cell Hl1)
      | |auto|auto].
    + intros q Hq. inversion Hq.
    + right. split; [intros q Hq; simpl in Hq; set_solver|].
      intros q Hq. inversion Hq.
    + simpl. intros [] s2 [_ Hs2].
      assert (Hl2 : live s2 pos = Some new_Cell).
      { apply live_Some. rewrite Hs2. unfold install_at. subst s1. simpl.
        rewrite lookup_insert_eq. rewrite decide_True by reflexivity.
        unfold new_Cell. simpl. repeat case_decide; cell_eq. }
      destruct n as [|n]; simpl.
      { destruct Hn as [HD|Hn]; [exact HD|lia]. }
      unfold bind at 1. rewrite (deref_live _ _ _ Hl2). simpl.
      unfold bind at 1. rewrite (update_live _ _ _ _ Hl2). simpl.
      rewrite elements_empty. simpl.
      apply map_eq. intros p.
      destruct (decide (p = pos)) as [->|Hne].
      * rewrite !lookup_insert_eq. reflexivity.
      * rewrite !lookup_insert_ne by congruence. rewrite Hs2.
        unfold install_at. subst s1. simpl.
        rewrite lookup_insert_ne by congruence.
        destruct (cells_ s !! p) as [[c|]|]; try reflexivity.
        repeat case_decide; cell_eq.
  - intros s Hpos. destruct n as [|n]; simpl; [exact I|].
    unfold Sheet_ValidatePosition. rewrite Hv.
    unfold bind at 1, ret at 1. unfold bind at 1, get at 1. rewrite Hpos.
    unfold bind at 1, ret at 1. unfold bind at 1, deref, live. rewrite Hpos.
    exact I.
Qed.

Lemma installed_live_this s this impl c0 s1 :
  live s this = Some c0 -> installed s this impl c0 s1 ->
  is_Some (live s1 this).
Proof.
  intros Hc0 Hs1. apply live_Some in Hc0. unfold live. rewrite Hs1.
  unfold install_at. rewrite Hc0. eauto.
Qed.

Lemma Cell_Set_spec (D : Prop) cb fuel this text s c0 rank' bound' :
  live s this = Some c0 ->
  (forall pos, IsValid pos = true -> makes_cell cb D pos) ->
  (D \/ (no_dangling s /\
         (traversal_fuel s <= fuel)%nat /\
         (forall impl, Cell_CreateImpl text s = Returns impl s ->
            (forall q, q ∈ Impl_GetReferencedCells impl ->
                       cells_ s !! q <> Some None) /\
            (no_cycle_witness s this impl ->
             forall s1, installed s this impl c0 s1 ->
                        up_ranked rank' bound' s1)) /\
         (bound' <= fuel)%nat)) ->
  ensures (Cell_Set cb fuel this text s)
    (fun _ s' => Set_returned s this text s')
    (Set_threw s this text) D.
Proof.
  intros Hc0 Hcb Hpre. rewrite Cell_Set_unfold.
  apply ensures_bind_intro.
  destruct (CreateImpl_cases text s) as [(impl & Himpl & _)|Hthrow].
  2:{ rewrite Hthrow. simpl. split; [reflexivity|]. left. auto. }
  rewrite Himpl. simpl.
  apply ensures_bind_intro.
  eapply (ensures_mono _ _ _ never _ D D);
    [| |intros e s' []|intros HD; exact HD].
  { apply (ensures_defined _ _ never D (WouldIntroduce_sound fuel this impl s)).
    destruct Hpre as [HD|(Hd & Hfuel & _)]; [left; exact HD|right].
    destruct (WouldIntroduce_terminates fuel this impl s) as [b Hb]; eauto.
    intros p c q Hc Hq. eapply Hd; eauto. set_solver. }
  simpl. intros b s' [-> Hb]. destruct b.
  { simpl. split; [reflexivity|]. right. split; [reflexivity|]. eauto. }
  apply ensures_bind_intro.
  eapply ensures_mono;
    [eapply (relink_spec cb D this impl s c0 Hc0)| |intros e s' []|auto].
  - intros pos Hpos. apply Hcb. eapply Impl_GetReferencedCells_valid; eauto.
  - destruct Hpre as [HD|(Hd & _ & Himp & _)]; [left; exact HD|right].
    split; [|apply (Himp impl Himpl)].
    intros q Hq. eapply Hd; eauto. set_solver.
  - simpl. intros [] s1 [Hnull Hs1].
    eapply ensures_mono;
      [eapply (InvalidateCacheRecursive_spec D rank' bound' s1)
      | |intros e s' []|auto].
    + destruct Hpre as [HD|(_ & _ & Himp & _)]; [left; exact HD|right].
      apply (Himp impl Himpl); assumption.
    + reflexivity.
    + destruct Hpre as [HD|(_ & _ & _ & Hb')]; [left; exact HD|right].
      split; [eapply installed_live_this; eauto|lia].
    + simpl. intros _ s' Hs'. exists impl, c0, s1. auto 10.
Qed.

End SetSpec.


Section SheetSpec.
Context `{Platform}.

Lemma materialized_live pos s :
  cells_ s !! pos <> Some None -> is_Some (live (materialized pos s) pos).
Proof.
  intros Hn. unfold materialized, live.
  destruct (cells_ s !! pos) as [[c|]|] eqn:Hpos; try congruence.
  - rewrite Hpos. eauto.
  - simpl. rewrite lookup_insert_eq. eauto.
Qed.

Lemma materialized_lookup pos s q :
  cells_ s !! q <> Some None -> cells_ (materialized pos s) !! q <> Some None.
Proof.
  intros Hn. unfold materialized.
  destruct (cells_ s !! pos) as [u|] eqn:Hpos; [exact Hn|]. simpl.
  destruct (decide (q = pos)) as [->|Hne].
  - rewrite lookup_insert_eq. congruence.
  - rewrite lookup_insert_ne by congruence. exact Hn.
Qed.

Lemma Sheet_SetCell_unfold n pos text s :
  Sheet_SetCell (S n) pos text s =
  if IsValid pos then
    match live (materialized pos s) pos with
    | Some _ => Cell_Set (Sheet_SetCell n) n pos text (materialized pos s)
    | None => Undefined
    end
  else Throws InvalidPositionException s.
Proof.
  simpl. unfold Sheet_ValidatePosition.
  destruct (IsValid pos); [|reflexivity].
  unfold bind at 1, ret at 1. unfold bind at 1, get at 1.
  unfold materialized.
  destruct (cells_ s !! pos) as [u|] eqn:Hpos.
  - unfold bind at 1, ret at 1. unfold bind at 1, deref.
    destruct (live s pos); reflexivity.
  - unfold bind at 1, emplace, store. unfold bind at 1, deref.
    destruct (live _ pos); reflexivity.
Qed.

(** Running [SetCell], with or without a bound on what may go wrong. *)
Lemma Sheet_SetCell_spec (D : Prop) fuel pos text s rank' bound' :
  (D \/ ((1 <= fuel)%nat /\
         (IsValid pos = true ->
          cells_ s !! pos <> Some None /\
          no_dangling (materialized pos s) /\
          (3 <= fuel)%nat /\
          (S (traversal_fuel (materialized pos s)) <= fuel)%nat /\
          (forall impl c0,
             Cell_CreateImpl text (materialized pos s)
             = Returns impl (materialized pos s) ->
             live (materialized pos s) pos = Some c0 ->
             (forall q, q ∈ Impl_GetReferencedCells impl ->
                        cells_ (materialized pos s) !! q <> Some None) /\
             (no_cycle_witness (materialized pos s) pos impl ->
              forall s1, installed (materialized pos s) pos impl c0 s1 ->
                         up_ranked rank' bound' s1)) /\
          (S bound' <= fuel)%nat))) ->
  ensures (Sheet_SetCell fuel pos text s)
    (fun _ s' => IsValid pos = true /\
                 Set_returned (materialized pos s) pos text s')
    (fun e s' =>
       (e = InvalidPositionException /\ IsValid pos = false /\ s' = s) \/
       (IsValid pos = true /\ Set_threw (materialized pos s) pos text e s'))
    D.
Proof.
  intros Hpre. destruct fuel as [|n].
  { simpl. destruct Hpre as [HD|[Hn _]]; [exact HD|lia]. }
  rewrite Sheet_SetCell_unfold.
  destruct (IsValid pos) eqn:Hv; [|simpl; auto].
  destruct (live (materialized pos s) pos) as [c0|] eqn:Hc0.
  2:{ simpl. destruct Hpre as [HD|[_ Hpre]]; [exact HD|].
      destruct (Hpre eq_refl) as (Hnn & _).
      destruct (materialized_live pos s Hnn) as [c Hc]. congruence. }
  eapply ensures_mono;
    [eapply (Cell_Set_spec D (Sheet_SetCell n) n pos text
               (materialized pos s) c0 rank' bound' Hc0)
    | |intros e s' He; right; split; [reflexivity|exact He]|auto].
  - intros q Hq. apply SetCell_makes_cell; [exact Hq|].
    destruct Hpre as [HD|[_ Hpre]]; [left; exact HD|right].
    destruct (Hpre eq_refl) as (_ & _ & Hn & _). lia.
  - destruct Hpre as [HD|[_ Hpre]]; [left; exact HD|right].
    destruct (Hpre eq_refl) as (_ & Hd & _ & Ht & Himp & Hb).
    split; [exact Hd|]. split; [lia|]. split; [|lia].
    intros impl Himpl. apply (Himp impl c0 Himpl eq_refl).
  - simpl. auto.
Qed.

(** A throw of [FormulaException] or [CircularDependencyException] leaves
    the sheet as it was once the cell for [pos] had been constructed. *)
Lemma Sheet_SetCell_throws fuel pos text s :
  ensures (Sheet_SetCell fuel pos text s)
    (fun _ _ => True)
    (fun e s' =>
       (e = InvalidPositionException /\ IsValid pos = false /\ s' = s) \/
       ((e = FormulaException \/ e = CircularDependencyException) /\
        IsValid pos = true /\ s' = materialized pos s))
    True.
Proof.
  eapply ensures_mono;
    [apply (Sheet_SetCell_spec True fuel pos text s (fun _ => O) O); left; exact I
    |auto| |auto].
  intros e s' [He|[Hv [-> He]]]; [left; exact He|right].
  split; [|auto]. destruct He as [[-> _]|[-> _]]; auto.
Qed.

Lemma witnesses_exclusive s this impl :
  cycle_witness s this impl -> no_cycle_witness s this impl -> False.
Proof.
  intros (x & Hx & Hl & Hpath) [Hnil|(V & HV & Hclosed & Hrefs)].
  - rewrite Hnil in Hx. inversion Hx.
  - apply (Hrefs x Hx Hl).
    assert (Hback : forall a b, rtc (feeds s) a b -> b ∈ V -> a ∈ V).
    { intros a b Hab. induction Hab as [|a b c (cb & Hcb & Hin) _ IH];
        [auto|].
      intros Hc. apply (Hclosed b cb a (IH Hc) Hcb Hin). }
    apply (Hback x this Hpath HV).
Qed.

Theorem Sheet_SetCell_well_formed fuel pos text s :
  well_formed s ->
  ensures (Sheet_SetCell fuel pos text s)
    (fun _ s' => well_formed s') (fun _ s' => well_formed s') True.
Proof.
  intros Hwf.
  eapply ensures_mono;
    [apply (Sheet_SetCell_spec True fuel pos text s (fun _ => O) O); left; exact I
    | | |auto].
  - intros _ s' [_ (impl & c0 & s1 & _ & Hc0 & Hw & Hnull & Hs1 & Hstr)].
    destruct (install_well_formed (materialized pos s) pos impl c0)
      as (rank' & bound' & Hinst); auto using well_formed_materialized.
    eapply well_formed_structure; [symmetry; exact Hstr|].
    apply (Hinst s1 Hs1).
  - intros e s' [(_ & _ & ->)|[_ [-> _]]];
      auto using well_formed_materialized.
Qed.

(** In a well-formed sheet [SetCell] returns or throws, given fuel, unless
    it meets an entry whose pointer is null. *)
Theorem Sheet_SetCell_total pos text s :
  well_formed s ->
  cells_ s !! pos <> Some None ->
  (forall impl, Cell_CreateImpl text s = Returns impl s ->
     forall q, q ∈ Impl_GetReferencedCells impl -> cells_ s !! q <> Some None) ->
  exists fuel0, forall fuel, (fuel0 <= fuel)%nat ->
    ensures (Sheet_SetCell fuel pos text s)
      (fun _ s' => IsValid pos = true /\ well_formed s' /\
                   Set_returned (materialized pos s) pos text s')
      (fun e s' =>
         (e = InvalidPositionException /\ IsValid pos = false /\ s' = s) \/
         (IsValid pos = true /\ Set_threw (materialized pos s) pos text e s'))
      False.
Proof.
  intros Hwf Hpos Hrefs.
  set (s0 := materialized pos s).
  assert (Hwf0 : well_formed s0) by (apply well_formed_materialized; exact Hwf).
  destruct (materialized_live pos s Hpos) as [c0 Hc0]. fold s0 in Hc0.
  assert (Hranks : exists rank' bound', forall impl,
            Cell_CreateImpl text s0 = Returns impl s0 ->
            (forall q, q ∈ Impl_GetReferencedCells impl ->
                       cells_ s0 !! q <> Some None) /\
            (no_cycle_witness s0 pos impl ->
             forall s1, installed s0 pos impl c0 s1 ->
                        up_ranked rank' bound' s1)).
  { assert (Hnull : forall impl, Cell_CreateImpl text s0 = Returns impl s0 ->
              forall q, q ∈ Impl_GetReferencedCells impl ->
                        cells_ s0 !! q <> Some None).
    { intros impl Himpl q Hq. apply materialized_lookup.
      apply (Hrefs impl); [|exact Hq].
      destruct (CreateImpl_cases text s0) as [(impl' & Hi & Hall)|Hthrow];
        [|congruence].
      rewrite Hi in Himpl. injection Himpl as <-. apply Hall. }
    destruct (CreateImpl_cases text s0) as [(impl & Himpl & _)|Hthrow].
    2:{ exists (fun _ => O), O. intros impl Himpl. congruence. }
    destruct (WouldIntroduce_terminates (traversal_fuel s0) pos impl s0)
      as [b Hb]; eauto.
    { intros p c q Hc Hq. eapply (wf_no_dangling s0 Hwf0); eauto. set_solver. }
    pose proof (WouldIntroduce_sound (traversal_fuel s0) pos impl s0) as Hsound.
    rewrite Hb in Hsound. simpl in Hsound. destruct Hsound as [_ Hsound].
    destruct b.
    - exists (fun _ => O), O. intros impl' Himpl'.
      rewrite Himpl in Himpl'. injection Himpl' as <-.
      split; [apply (Hnull impl Himpl)|].
      intros Hw. exfalso. eapply witnesses_exclusive; eauto.
    - destruct (install_well_formed s0 pos impl c0 Hwf0 Hc0 Hsound
                  (Hnull impl Himpl)) as (rank' & bound' & Hinst).
      exists rank', bound'. intros impl' Himpl'.
      rewrite Himpl in Himpl'. injection Himpl' as <-.
      split; [apply (Hnull impl Himpl)|].
      intros _ s1 Hs1. destruct (Hinst s1 Hs1) as [Hwf1 Hr1].
      apply well_formed_up_ranked; assumption. }
  destruct Hranks as (rank' & bound' & Hranks).
  exists (S (Nat.max 3 (Nat.max (traversal_fuel s0) bound'))).
  intros fuel Hfuel.
  eapply ensures_mono;
    [apply (Sheet_SetCell_spec False fuel pos text s rank' bound')
    | |auto|auto].
  - right. split; [lia|]. intros Hv. fold s0.
    split; [exact Hpos|]. split; [apply (wf_no_dangling s0 Hwf0)|].
    split; [lia|]. split; [lia|]. split; [|lia].
    intros impl c0' Himpl Hc0'. rewrite Hc0 in Hc0'. injection Hc0' as <-.
    apply Hranks. exact Himpl.
  - simpl. intros _ s' [Hv Hret]. split; [exact Hv|]. split; [|exact Hret].
    pose proof (Sheet_SetCell_well_formed fuel pos text s Hwf) as Hp.
    destruct Hret as (impl & c0' & s1 & _ & Hc0' & Hw & Hnull & Hs1 & Hstr).
    fold s0 in Hc0', Hw, Hnull, Hs1.
    destruct (install_well_formed s0 pos impl c0' Hwf0 Hc0' Hw Hnull)
      as (r & b & Hinst).
    eapply well_formed_structure; [symmetry; exact Hstr|].
    apply (Hinst s1 Hs1).
Qed.

Lemma Set_threw_empty s this e s' : Set_threw s this "" e s' -> False.
Proof.
  intros [_ [[_ Hthrow]|[_ (impl & Himpl & x & Hx & _)]]].
  - rewrite CreateImpl_empty in Hthrow. discriminate.
  - rewrite CreateImpl_empty in Himpl. injection Himpl as <-. inversion Hx.
Qed.

Lemma Sheet_ClearCell_spec (D : Prop) fuel pos s rank bound :
  well_formed s ->
  (D \/ (ranked rank bound s /\ (bound <= fuel)%nat /\
         (traversal_fuel s <= fuel)%nat /\ (2 <= fuel)%nat)) ->
  ensures (Sheet_ClearCell fuel pos s)
    (fun _ s' => cleared pos s s')
    (fun e s' => e = InvalidPositionException /\ IsValid pos = false /\ s' = s)
    D.
Proof.
  intros Hwf Hpre. unfold Sheet_ClearCell, Sheet_ValidatePosition.
  destruct (IsValid pos) eqn:Hv; [|simpl; auto].
  unfold bind at 1, ret at 1. unfold bind at 1, get at 1.
  destruct (cells_ s !! pos) as [[c0|]|] eqn:Hpos.
  2,3: (simpl; split; [exact Hv|]; split; [exact Hwf|]; split; [auto|];
        split; [|auto]; intros c Hc; apply live_Some in Hc; congruence).
  assert (Hc0 : live s pos = Some c0) by (apply live_Some; exact Hpos).
  assert (Hnil : no_cycle_witness s pos EmptyImpl) by (left; reflexivity).
  assert (Hnull : forall q, q ∈ Impl_GetReferencedCells EmptyImpl ->
                            cells_ s !! q <> Some None)
    by (intros q Hq; inversion Hq).
  destruct (install_well_formed s pos EmptyImpl c0 Hwf Hc0 Hnil Hnull)
    as (rank1 & bound1 & Hinst).
  apply ensures_bind_intro. unfold Cell_Clear.
  eapply ensures_mono;
    [eapply (Cell_Set_spec D (Sheet_SetCell fuel) fuel pos "" s c0 rank bound Hc0)
    | |intros e s' He; exfalso; eapply Set_threw_empty; exact He|auto].
  - intros q Hq. apply SetCell_makes_cell; [exact Hq|].
    destruct Hpre as [HD|(_ & _ & _ & Hn)]; [left; exact HD|right; exact Hn].
  - destruct Hpre as [HD|(Hr & Hb & Ht & _)]; [left; exact HD|right].
    split; [apply (wf_no_dangling s Hwf)|]. split; [exact Ht|]. split; [|exact Hb].
    intros impl Himpl. rewrite CreateImpl_empty in Himpl. injection Himpl as <-.
    split; [exact Hnull|]. intros _ s1 Hs1.
    destruct (Hinst s1 Hs1) as [Hwf1 _].
    apply well_formed_up_ranked; [exact Hwf1|].
    eapply (installed_ranked_same s pos EmptyImpl c0 s1); eauto.
  - simpl. intros _ s2 (impl & c0' & s1 & Himpl & Hc0' & _ & _ & Hs1 & Hstr).
    rewrite CreateImpl_empty in Himpl. injection Himpl as <-.
    rewrite Hc0 in Hc0'. injection Hc0' as <-.
    destruct (Hinst s1 Hs1) as [Hwf1 _].
    assert (Hwf2 : well_formed s2)
      by (eapply well_formed_structure; [symmetry; exact Hstr|exact Hwf1]).
    assert (Hkeep : forall p, is_Some (live s p) -> is_Some (live s2 p)).
    { intros p [c Hc].
      destruct (installed_old s pos EmptyImpl c0 s1 Hs1 p c Hc) as [c1 Hc1].
      destruct (structure_live_Some s1 s2 p c1 (eq_sym Hstr) Hc1)
        as (c2 & Hc2 & _). eauto. }
    destruct (Hkeep pos) as [c2 Hc2]; [eauto|].
    assert (Hfields : impl_ c2 = EmptyImpl /\ r_nodes_ c2 = ∅).
    { destruct (structure_live_Some s2 s1 pos c2 Hstr Hc2) as (c1 & Hc1 & Hf).
      apply live_Some in Hc1. rewrite Hs1 in Hc1. unfold install_at in Hc1.
      rewrite Hpos in Hc1. rewrite decide_True in Hc1 by reflexivity.
      injection Hc1 as <-. split.
      - apply (f_equal impl_) in Hf. simpl in Hf.
        destruct (impl_ c2); simpl in Hf; congruence.
      - apply (f_equal r_nodes_) in Hf. simpl in Hf. rewrite <- Hf.
        rewrite decide_True by reflexivity. reflexivity. }
    destruct Hfields as [Himpl2 Hr2].
    apply ensures_bind_intro. rewrite (deref_live _ _ _ Hc2). simpl.
    unfold Cell_IsReferenced.
    destruct (bool_decide (l_nodes_ c2 = ∅)) eqn:Hl2; simpl.
    + apply bool_decide_eq_true in Hl2.
      assert (Hgone : forall c, live (mkSheet (<[pos := None]> (cells_ s2))
                                              (evaluate_calls s2)) pos = Some c ->
                                False).
      { intros c Hc. apply live_Some in Hc. simpl in Hc.
        rewrite lookup_insert_eq in Hc. discriminate. }
      split; [exact Hv|]. split; [eapply well_formed_reset; eauto|].
      split; [|split; [intros c Hc; exfalso; eauto|congruence]].
      intros p Hne Hp. destruct (Hkeep p Hp) as [c Hc]. exists c.
      apply live_Some. simpl. rewrite lookup_insert_ne by congruence.
      apply live_Some. exact Hc.
    + apply bool_decide_eq_false in Hl2.
      split; [exact Hv|]. split; [exact Hwf2|].
      split; [auto|]. split; [|congruence].
      intros c Hc. rewrite Hc2 in Hc. injection Hc as <-. auto.
Qed.

Theorem Sheet_ClearCell_well_formed fuel pos s :
  well_formed s ->
  ensures (Sheet_ClearCell fuel pos s)
    (fun _ s' => well_formed s') (fun _ s' => well_formed s') True.
Proof.
  intros Hwf.
  eapply ensures_mono;
    [apply (Sheet_ClearCell_spec True fuel pos s (fun _ => O) O Hwf);
     left; exact I| | |auto].
  - intros _ s' (_ & Hwf' & _). exact Hwf'.
  - intros e s' (_ & _ & ->). exact Hwf.
Qed.

(** In a well-formed sheet [ClearCell] returns, given fuel, for every valid
    position, and throws for the others. *)
Theorem Sheet_ClearCell_total pos s :
  well_formed s ->
  exists fuel0, forall fuel, (fuel0 <= fuel)%nat ->
    ensures (Sheet_ClearCell fuel pos s)
      (fun _ s' => cleared pos s s')
      (fun e s' => e = InvalidPositionException /\ IsValid pos = false /\ s' = s)
      False.
Proof.
  intros Hwf. destruct (wf_ranked s Hwf) as (rank & bound & Hr).
  exists (Nat.max 2 (Nat.max bound (traversal_fuel s))). intros fuel Hfuel.
  apply (Sheet_ClearCell_spec False fuel pos s rank bound Hwf).
  right. split; [exact Hr|]. lia.
Qed.

End SheetSpec.


Section CacheBlind.
Context `{Platform}.

Lemma cache_blind_ret {A} (R : A -> A -> Prop) a1 a2 :
  R a1 a2 -> cache_blind R (ret a1) (ret a2).
Proof. intros HR s1 s2 Hs. simpl. auto. Qed.

Lemma cache_blind_throw {A} (R : A -> A -> Prop) e :
  cache_blind R (throw e) (throw e).
Proof. intros s1 s2 Hs. simpl. auto. Qed.

Lemma cache_blind_bind {A B} (R : A -> A -> Prop) (R' : B -> B -> Prop)
    (m1 m2 : M A) (k1 k2 : A -> M B) :
  cache_blind R m1 m2 ->
  (forall a1 a2, R a1 a2 -> cache_blind R' (k1 a1) (k2 a2)) ->
  cache_blind R' (bind m1 k1) (bind m2 k2).
Proof.
  intros Hm Hk s1 s2 Hs. specialize (Hm s1 s2 Hs). unfold bind.
  destruct (m1 s1) as [a1 s1'|e1 s1'| |], (m2 s2) as [a2 s2'|e2 s2'| |];
    simpl in Hm; try contradiction; try exact I; try exact Hm.
  destruct Hm as (HR & H1 & H2).
  assert (Hs' : structure s1' = structure s2') by congruence.
  specialize (Hk a1 a2 HR s1' s2' Hs').
  destruct (k1 a1 s1') as [b1 t1|e1 t1| |], (k2 a2 s2') as [b2 t2|e2 t2| |];
    simpl in *; try contradiction; try exact I;
    (destruct Hk as (? & ? & ?); repeat split; congruence).
Qed.

Lemma cache_blind_deref p :
  cache_blind (fun c1 c2 => Cell_forget c1 = Cell_forget c2) (deref p) (deref p).
Proof.
  intros s1 s2 Hs. unfold deref.
  pose proof (structure_live s1 s2 p Hs) as Hl.
  destruct (live s1 p) as [c1|], (live s2 p) as [c2|]; simpl in *;
    try discriminate; [|exact I].
  split; [congruence|]. auto.
Qed.

Lemma cache_blind_GetCellPtr pos :
  cache_blind eq (Sheet_GetCellPtr pos) (Sheet_GetCellPtr pos).
Proof.
  intros s1 s2 Hs. destruct (IsValid pos) eqn:Hv.
  - rewrite !GetCellPtr_valid by assumption. simpl.
    split; [|auto].
    pose proof (f_equal (fun m => m !! pos) Hs) as Hp. simpl in Hp.
    rewrite !structure_lookup in Hp.
    destruct (cells_ s1 !! pos) as [[c1|]|], (cells_ s2 !! pos) as [[c2|]|];
      simpl in Hp; congruence.
  - rewrite !GetCellPtr_invalid by assumption. simpl. auto.
Qed.

Lemma cache_blind_count : cache_blind eq count_Evaluate count_Evaluate.
Proof. intros s1 s2 Hs. simpl. auto. Qed.

Lemma cache_blind_catch {A} (R : A -> A -> Prop) (m1 m2 : M A) h1 h2 :
  cache_blind R m1 m2 ->
  (forall e, cache_blind R (h1 e) (h2 e)) ->
  cache_blind R (catch_FormulaError m1 h1) (catch_FormulaError m2 h2).
Proof.
  intros Hm Hh s1 s2 Hs. specialize (Hm s1 s2 Hs). unfold catch_FormulaError.
  destruct (m1 s1) as [a1 s1'|e1 s1'| |], (m2 s2) as [a2 s2'|e2 s2'| |];
    simpl in Hm; try contradiction; try exact I; try exact Hm.
  destruct Hm as (<- & H1 & H2).
  destruct e1; simpl; auto.
  assert (Hs' : structure s1' = structure s2') by congruence.
  specialize (Hh e s1' s2' Hs').
  destruct (h1 e s1') as [b1 t1|e1 t1| |], (h2 e s2') as [b2 t2|e2 t2| |];
    simpl in *; try contradiction; try exact I;
    (destruct Hh as (? & ? & ?); repeat split; congruence).
Qed.

Lemma cache_blind_update p f1 f2 :
  (forall c1 c2, Cell_forget c1 = Cell_forget c2 ->
                 Cell_forget (f1 c1) = Cell_forget c1 /\
                 Cell_forget (f2 c2) = Cell_forget c2) ->
  cache_blind eq (update p f1) (update p f2).
Proof.
  intros Hf s1 s2 Hs.
  pose proof (structure_live s1 s2 p Hs) as Hl.
  destruct (live s1 p) as [c1|] eqn:H1, (live s2 p) as [c2|] eqn:H2;
    simpl in Hl; try discriminate.
  - rewrite (update_live _ _ _ _ H1), (update_live _ _ _ _ H2). simpl.
    destruct (Hf c1 c2) as [Hf1 Hf2]; [congruence|].
    split; [reflexivity|].
    split; eapply structure_store; eauto.
  - unfold update, bind, deref. rewrite H1, H2. exact I.
Qed.

Lemma cache_blind_Execute e args1 args2 :
  (forall p, cache_blind eq (args1 p) (args2 p)) ->
  cache_blind eq (Execute e args1) (Execute e args2).
Proof.
  intros Hargs. induction e as [d|p|op a IH|op l IHl r IHr]; simpl.
  - apply cache_blind_ret. reflexivity.
  - apply Hargs.
  - eapply cache_blind_bind; [exact IH|]. intros v ? <-.
    unfold checked. destruct (is_finite _);
      [apply cache_blind_ret; reflexivity|apply cache_blind_throw].
  - eapply cache_blind_bind; [exact IHl|]. intros a ? <-.
    eapply cache_blind_bind; [exact IHr|]. intros b ? <-.
    unfold checked. destruct (is_finite _);
      [apply cache_blind_ret; reflexivity|apply cache_blind_throw].
Qed.

Lemma cache_blind_ConvertStringToDouble str :
  cache_blind eq (ConvertStringToDouble str) (ConvertStringToDouble str).
Proof.
  unfold ConvertStringToDouble. destruct str; [apply cache_blind_ret; reflexivity|].
  destruct (ReadDouble _) as [[d|] []];
    first [apply cache_blind_ret; reflexivity|apply cache_blind_throw].
Qed.

Lemma cache_blind_EvaluateCell GV1 GV2 p :
  (forall c, cache_blind eq (GV1 c) (GV2 c)) ->
  cache_blind eq (Formula_EvaluateCell GV1 p) (Formula_EvaluateCell GV2 p).
Proof.
  intros HGV. unfold Formula_EvaluateCell.
  destruct (negb (IsValid p)); [apply cache_blind_throw|].
  eapply cache_blind_bind; [apply cache_blind_GetCellPtr|]. intros cell ? <-.
  destruct cell as [c|]; [|apply cache_blind_ret; reflexivity].
  eapply cache_blind_bind; [apply HGV|]. intros v1 ? <-.
  destruct (holds_double v1).
  - eapply cache_blind_bind; [apply HGV|]. intros v2 ? <-.
    destruct v2; simpl;
      first [apply cache_blind_ret; reflexivity|apply cache_blind_throw].
  - eapply cache_blind_bind; [apply HGV|]. intros v2 ? <-.
    destruct (holds_string v2).
    + eapply cache_blind_bind; [apply HGV|]. intros v3 ? <-.
      eapply cache_blind_bind with (R := eq).
      * destruct v3; simpl;
          first [apply cache_blind_ret; reflexivity|apply cache_blind_throw].
      * intros str ? <-. apply cache_blind_ConvertStringToDouble.
    + eapply cache_blind_bind; [apply HGV|]. intros v3 ? <-.
      eapply cache_blind_bind with (R := eq).
      * destruct v3; simpl;
          first [apply cache_blind_ret; reflexivity|apply cache_blind_throw].
      * intros e ? <-. apply cache_blind_throw.
Qed.

Lemma cache_blind_Evaluate GV1 GV2 f :
  (forall c, cache_blind eq (GV1 c) (GV2 c)) ->
  cache_blind eq (Formula_Evaluate GV1 f) (Formula_Evaluate GV2 f).
Proof.
  intros HGV. unfold Formula_Evaluate.
  eapply cache_blind_bind; [apply cache_blind_count|]. intros _ _ _.
  apply cache_blind_catch.
  - eapply cache_blind_bind.
    + apply cache_blind_Execute. intros p. apply cache_blind_EvaluateCell, HGV.
    + intros d ? <-. apply cache_blind_ret. reflexivity.
  - intros e. apply cache_blind_ret. reflexivity.
Qed.

End CacheBlind.


Section GetValue.
Context `{Platform}.

Lemma agree_sym {A} (s1 s2 : Sheet) (o1 o2 : Outcome A) :
  agree eq s1 s2 o1 o2 -> agree eq s2 s1 o2 o1.
Proof.
  destruct o1, o2; simpl; try tauto; intros (? & ? & ?); auto.
Qed.

Lemma set_cache_forget v c : Cell_forget (set_cache v c) = Cell_forget c.
Proof. unfold set_cache. destruct c as [[]]; reflexivity. Qed.

(** Priming the cache and evaluating again gives what one evaluation gives. *)
Lemma primed_agree {B} (E : M FormulaInterface.Value)
    (k : FormulaInterface.Value -> M B) this s1 s2 :
  cache_blind eq E E ->
  (forall v, cache_blind eq (k v) (k v)) ->
  structure s1 = structure s2 ->
  is_Some (live s1 this) ->
  agree eq s1 s2
    (bind (bind E (fun v => update this (set_cache v))) (fun _ => bind E k) s1)
    (bind E k s2).
Proof.
  intros HE Hk Hs [c1 Hc1]. unfold bind at 1 2.
  pose proof (HE s1 s2 Hs) as H12.
  destruct (E s1) as [v s1'|e s1'| |] eqn:HE1.
  - destruct (structure_live_Some s1 s1' this c1) as (c1' & Hc1' & _).
    { destruct (E s2); simpl in H12; try contradiction.
      destruct H12 as (_ & ? & _). congruence. }
    { exact Hc1. }
    rewrite (update_live _ _ _ _ Hc1').
    set (s1'' := mkSheet _ _).
    assert (Hs'' : structure s1'' = structure s1).
    { transitivity (structure s1').
      - eapply structure_store; [exact Hc1'|apply set_cache_forget].
      - destruct (E s2); simpl in H12; try contradiction. tauto. }
    pose proof (cache_blind_bind eq eq E E k k HE
                  (fun a1 a2 Heq => eq_ind a1 (fun a => cache_blind eq (k a1) (k a))
                                      (Hk a1) a2 Heq)
                  s1'' s2 (eq_trans Hs'' Hs)) as Hfin.
    destruct (bind E k s1'') as [b t1|e t1| |],
             (bind E k s2) as [b' t2|e' t2| |];
      simpl in *; try contradiction; try exact I;
      (destruct Hfin as (? & ? & ?); repeat split; congruence).
  - unfold bind. destruct (E s2) as [v2 s2'|e2 s2'| |]; simpl in *;
      try contradiction. exact H12.
  - unfold bind. destruct (E s2); simpl in *; try contradiction. exact I.
  - unfold bind. destruct (E s2); simpl in *; try contradiction. exact I.
Qed.

Lemma bind_deref_live {B} p (k : Cell -> M B) s c :
  live s p = Some c -> bind (deref p) k s = k c s.
Proof. intros Hc. unfold bind. rewrite (deref_live _ _ _ Hc). reflexivity. Qed.

Lemma bind_deref_dead {B} p (k : Cell -> M B) s :
  live s p = None -> bind (deref p) k s = Undefined.
Proof. intros Hc. unfold bind, deref. rewrite Hc. reflexivity. Qed.

Lemma cache_blind_GetValue fuel :
  forall this, cache_blind eq (Cell_GetValue fuel this) (Cell_GetValue fuel this).
Proof.
  induction fuel as [|fuel IH]; intros this s1 s2 Hs; simpl; [exact I|].
  pose proof (structure_live s1 s2 this Hs) as Hl.
  destruct (live s1 this) as [c1|] eqn:H1, (live s2 this) as [c2|] eqn:H2;
    simpl in Hl; try discriminate.
  2:{ rewrite (bind_deref_dead _ _ _ H1), (bind_deref_dead _ _ _ H2). exact I. }
  rewrite (bind_deref_live _ _ _ _ H1), (bind_deref_live _ _ _ _ H2).
  assert (Hf : Cell_forget c1 = Cell_forget c2) by congruence.
  apply (f_equal impl_) in Hf. simpl in Hf.
  set (E f := Formula_Evaluate (Cell_GetValue fuel) f).
  assert (HE : forall f, cache_blind eq (E f) (E f)).
  { intros f. apply cache_blind_Evaluate. exact IH. }
  assert (Hk : forall v : FormulaInterface.Value,
             cache_blind eq (ret (to_cell_value v)) (ret (to_cell_value v))).
  { intros v. apply cache_blind_ret. reflexivity. }
  destruct (impl_ c1) as [|t1|f1 cache1], (impl_ c2) as [|t2|f2 cache2];
    simpl in Hf; try discriminate.
  - simpl. auto.
  - injection Hf as <-. simpl. auto.
  - injection Hf as <-. fold (E f1).
    destruct cache1 as [x1|], cache2 as [x2|].
    + apply (cache_blind_bind eq eq (ret tt) (ret tt)); auto.
      * apply cache_blind_ret. reflexivity.
      * intros _ _ _. eapply cache_blind_bind; [apply HE|]. intros v ? <-. apply Hk.
    + apply agree_sym. unfold bind at 4. unfold ret at 2.
      apply primed_agree; eauto.
    + unfold bind at 1. unfold ret at 1.
      apply primed_agree; eauto.
    + apply (cache_blind_bind eq eq
               (bind (E f1) (fun v => update this (set_cache v)))
               (bind (E f1) (fun v => update this (set_cache v)))); auto.
      * eapply cache_blind_bind; [apply HE|]. intros v ? <-.
        apply cache_blind_update. intros c c' _.
        split; apply set_cache_forget.
      * intros _ _ _. eapply cache_blind_bind; [apply HE|]. intros v ? <-. apply Hk.
Qed.

(** [GetValue] writes caches only. *)
Lemma GetValue_structure fuel this s v s' :
  Cell_GetValue fuel this s = Returns v s' -> structure s' = structure s.
Proof.
  intros Hv. pose proof (cache_blind_GetValue fuel this s s eq_refl) as Ha.
  rewrite Hv in Ha. simpl in Ha. tauto.
Qed.

(** Asking again, on a sheet that differs in caches only, gives the same
    value. *)
Lemma GetValue_again fuel this s v s' t :
  Cell_GetValue fuel this s = Returns v s' ->
  structure t = structure s ->
  exists t', Cell_GetValue fuel this t = Returns v t' /\
             structure t' = structure s.
Proof.
  intros Hv Ht. pose proof (cache_blind_GetValue fuel this s t (eq_sym Ht)) as Ha.
  rewrite Hv in Ha. destruct (Cell_GetValue fuel this t) as [v' t'| | |];
    simpl in Ha; try contradiction.
  destruct Ha as (<- & _ & Ht'). exists t'. split; [reflexivity|congruence].
Qed.

Lemma EvaluateCell_unfold GV p s :
  IsValid p = true ->
  Formula_EvaluateCell GV p s =
  match live s p with
  | None => Returns 0%float s
  | Some _ =>
      (do v1 <- GV p;
       if holds_double v1 then (do v2 <- GV p; get_double v2)
       else
         do v2 <- GV p;
         if holds_string v2
         then (do v3 <- GV p; do str <- get_string v3;
               ConvertStringToDouble str)
         else (do v3 <- GV p; do e <- get_FormulaError v3;
               throw (ThrownFormulaError e))) s
  end.
Proof.
  intros Hv. unfold Formula_EvaluateCell, Sheet_GetCell. rewrite Hv. simpl.
  rewrite (bind_Returns _ _ _ _ _ (GetCellPtr_valid p s Hv)).
  unfold live. destruct (cells_ s !! p) as [[c|]|]; reflexivity.
Qed.

Lemma EvaluateCell_live fuel p s c v s1 :
  IsValid p = true -> live s p = Some c ->
  Cell_GetValue fuel p s = Returns v s1 ->
  exists s', structure s' = structure s /\
    Formula_EvaluateCell (Cell_GetValue fuel) p s = converted v s'.
Proof.
  intros Hv Hc Hval. rewrite (EvaluateCell_unfold _ p s Hv), Hc.
  rewrite (bind_Returns _ _ _ _ _ Hval).
  pose proof (GetValue_structure _ _ _ _ _ Hval) as Hs1.
  destruct (GetValue_again fuel p s v s1 s1 Hval Hs1) as (s2 & Hval2 & Hs2).
  destruct (GetValue_again fuel p s v s1 s2 Hval Hs2) as (s3 & Hval3 & Hs3).
  destruct v as [t|d|e]; simpl.
  - rewrite (bind_Returns _ _ _ _ _ Hval2). simpl.
    rewrite (bind_Returns _ _ _ _ _ Hval3). simpl.
    exists s3. auto.
  - rewrite (bind_Returns _ _ _ _ _ Hval2). simpl. exists s2. auto.
  - rewrite (bind_Returns _ _ _ _ _ Hval2). simpl.
    rewrite (bind_Returns _ _ _ _ _ Hval3). simpl.
    exists s3. auto.
Qed.

Lemma converted_evaluated v s : evaluated (converted v s).
Proof.
  destruct v as [t|d|e]; simpl.
  - unfold ConvertStringToDouble. destruct t; [left; do 2 eexists; reflexivity|].
    destruct (ReadDouble _) as [[d|] []];
      first [left; do 2 eexists; reflexivity|right; do 2 eexists; reflexivity].
  - left. do 2 eexists. reflexivity.
  - right. do 2 eexists. reflexivity.
Qed.

Lemma converted_structure v s :
  ensures (converted v s) (fun _ s' => s' = s) (fun _ s' => s' = s) False.
Proof.
  destruct v as [t|d|e]; simpl; auto.
  unfold ConvertStringToDouble. destruct t; simpl; auto.
  destruct (ReadDouble _) as [[d|] []]; simpl; auto.
Qed.

(** Only a [FormulaError] is thrown out of [EvaluateCell] and [Execute]. *)
Lemma EvaluateCell_throws fuel p s :
  (forall c t, ensures (Cell_GetValue fuel c t) (fun _ _ => True) never True) ->
  ensures (Formula_EvaluateCell (Cell_GetValue fuel) p s)
    (fun _ _ => True) (fun e _ => exists c, e = ThrownFormulaError c) True.
Proof.
  intros Hno. destruct (IsValid p) eqn:Hv.
  2:{ unfold Formula_EvaluateCell. rewrite Hv. simpl. eauto. }
  destruct (live s p) as [c|] eqn:Hc.
  - specialize (Hno p s).
    destruct (Cell_GetValue fuel p s) as [v s1|e s1| |] eqn:Hval.
    + destruct (EvaluateCell_live fuel p s c v s1 Hv Hc Hval) as (s' & _ & ->).
      destruct (converted_evaluated v s') as [(a & t & ->)|(e & t & ->)];
        simpl; eauto.
    + simpl in Hno. contradiction.
    + rewrite (EvaluateCell_unfold _ p s Hv), Hc. unfold bind at 1.
      rewrite Hval. exact I.
    + rewrite (EvaluateCell_unfold _ p s Hv), Hc. unfold bind at 1.
      rewrite Hval. exact I.
  - rewrite (EvaluateCell_unfold _ p s Hv), Hc. exact I.
Qed.

Lemma Execute_throws e args :
  (forall p s, ensures (args p s) (fun _ _ => True)
                 (fun ex _ => exists c, ex = ThrownFormulaError c) True) ->
  forall s, ensures (Execute e args s) (fun _ _ => True)
              (fun ex _ => exists c, ex = ThrownFormulaError c) True.
Proof.
  intros Hargs.
  assert (Hchecked : forall x s, ensures (checked x s) (fun _ _ => True)
            (fun ex _ => exists c, ex = ThrownFormulaError c) True).
  { intros x s. unfold checked. destruct (is_finite x); simpl; eauto. }
  induction e as [d|p|op a IH|op l IHl r IHr]; intros s; simpl.
  - exact I.
  - apply Hargs.
  - apply ensures_bind_intro. eapply ensures_mono; [apply IH| |auto|auto].
    intros v s' _. apply Hchecked.
  - apply ensures_bind_intro. eapply ensures_mono; [apply IHl| |auto|auto].
    intros a s' _. simpl.
    apply ensures_bind_intro. eapply ensures_mono; [apply IHr| |auto|auto].
    intros b s'' _. apply Hchecked.
Qed.

Lemma Evaluate_no_throw fuel f s :
  (forall c t, ensures (Cell_GetValue fuel c t) (fun _ _ => True) never True) ->
  ensures (Formula_Evaluate (Cell_GetValue fuel) f s)
    (fun _ _ => True) never True.
Proof.
  intros Hno. unfold Formula_Evaluate, count_Evaluate. unfold bind at 1.
  unfold catch_FormulaError.
  set (s1 := mkSheet _ _).
  pose proof (Execute_throws (ast_ f) (Formula_EvaluateCell (Cell_GetValue fuel))
                (fun p t => EvaluateCell_throws fuel p t Hno) s1) as Hex.
  unfold bind.
  destruct (Execute _ _ s1) as [d t|e t| |]; simpl in *; auto.
  destruct Hex as [c ->]. simpl. exact I.
Qed.

Lemma GetValue_no_throw fuel :
  forall this s,
    ensures (Cell_GetValue fuel this s) (fun _ _ => True) never True.
Proof.
  induction fuel as [|fuel IH]; intros this s; simpl; [exact I|].
  apply ensures_bind_intro. apply ensures_deref; [|auto].
  intros c Hc. destruct (impl_ c) as [|t|f cache]; simpl; try exact I.
  assert (HE : forall t, ensures (Formula_Evaluate (Cell_GetValue fuel) f t)
                           (fun _ _ => True) never True).
  { intros t. apply Evaluate_no_throw. exact IH. }
  apply ensures_bind_intro.
  assert (Hbody : forall t,
    ensures ((do value <- Formula_Evaluate (Cell_GetValue fuel) f;
              ret (to_cell_value value)) t) (fun _ _ => True) never True).
  { intros t. apply ensures_bind_intro.
    eapply ensures_mono; [apply HE|simpl; auto|auto|auto]. }
  destruct cache as [x|].
  - simpl. apply Hbody.
  - apply ensures_bind_intro.
    eapply ensures_mono; [apply HE| |auto|auto].
    intros v t _. simpl. apply ensures_update; [|auto].
    intros c' _. apply Hbody.
Qed.

End GetValue.


Section GetValueTotal.
Context `{Platform}.

Lemma checked_evaluated x s : evaluated (checked x s).
Proof.
  unfold checked. destruct (is_finite x);
    [left|right]; do 2 eexists; reflexivity.
Qed.

Lemma Execute_total e args :
  (forall p, cache_blind eq (args p) (args p)) ->
  forall s,
    (forall p t, p ∈ GetCells e -> structure t = structure s ->
                 evaluated (args p t)) ->
    evaluated (Execute e args s).
Proof.
  intros Hblind.
  induction e as [d|p|op a IH|op l IHl r IHr]; intros s Hargs; simpl.
  - left. do 2 eexists. reflexivity.
  - apply Hargs; [left|reflexivity].
  - destruct (IH s Hargs) as [(v & s' & Hv)|(c & s' & Hc)].
    + rewrite (bind_Returns _ _ _ _ _ Hv). apply checked_evaluated.
    + right. exists c, s'. unfold bind. rewrite Hc. reflexivity.
  - destruct (IHl s) as [(a & s' & Ha)|(c & s' & Hc)].
    { intros p t Hp. apply Hargs. simpl. apply elem_of_app. auto. }
    2:{ right. exists c, s'. unfold bind. rewrite Hc. reflexivity. }
    rewrite (bind_Returns _ _ _ _ _ Ha).
    assert (Hs' : structure s' = structure s).
    { pose proof (cache_blind_Execute l args args Hblind s s eq_refl) as Hag.
      rewrite Ha in Hag. simpl in Hag. tauto. }
    destruct (IHr s') as [(b & s'' & Hb)|(c & s'' & Hc)].
    { intros p t Hp Ht. apply Hargs; [|congruence].
      simpl. apply elem_of_app. auto. }
    + rewrite (bind_Returns _ _ _ _ _ Hb). apply checked_evaluated.
    + right. exists c, s''. unfold bind. rewrite Hc. reflexivity.
Qed.

Lemma Evaluate_total fuel f s :
  (forall p t, p ∈ GetCells (ast_ f) -> structure t = structure s ->
               IsValid p = true -> is_Some (live t p) ->
               exists v t', Cell_GetValue fuel p t = Returns v t') ->
  exists v s', Formula_Evaluate (Cell_GetValue fuel) f s = Returns v s' /\
               structure s' = structure s.
Proof.
  intros HGV.
  assert (Hblind : cache_blind eq (Formula_Evaluate (Cell_GetValue fuel) f)
                     (Formula_Evaluate (Cell_GetValue fuel) f)).
  { apply cache_blind_Evaluate. apply cache_blind_GetValue. }
  assert (Hret : exists v s',
            Formula_Evaluate (Cell_GetValue fuel) f s = Returns v s').
  { unfold Formula_Evaluate, count_Evaluate. unfold bind at 1.
    set (s1 := mkSheet _ _). unfold catch_FormulaError.
    destruct (Execute_total (ast_ f) (Formula_EvaluateCell (Cell_GetValue fuel)))
      with (s := s1) as [(d & t & Hd)|(c & t & Hc)].
    - intros p. apply cache_blind_EvaluateCell. apply cache_blind_GetValue.
    - intros p t Hp Ht. destruct (IsValid p) eqn:Hv.
      2:{ right. unfold Formula_EvaluateCell. rewrite Hv.
          do 2 eexists. reflexivity. }
      rewrite (EvaluateCell_unfold _ p t Hv).
      destruct (live t p) as [c|] eqn:Hc; [|left; do 2 eexists; reflexivity].
      destruct (HGV p t Hp) as (v & t' & Hval); eauto.
      destruct (EvaluateCell_live fuel p t c v t' Hv Hc Hval) as (t'' & _ & Heq).
      rewrite (EvaluateCell_unfold _ p t Hv), Hc in Heq. rewrite Heq.
      apply converted_evaluated.
    - rewrite (bind_Returns _ _ _ _ _ Hd). do 2 eexists. reflexivity.
    - unfold bind. rewrite Hc. do 2 eexists. reflexivity. }
  destruct Hret as (v & s' & Heq). exists v, s'. split; [exact Heq|].
  pose proof (Hblind s s eq_refl) as Hag. rewrite Heq in Hag. simpl in Hag. tauto.
Qed.

(** In a well-formed sheet every cell has a value, once the fuel exceeds
    its rank. *)
Lemma GetValue_total rank bound :
  forall fuel this s,
    well_formed s -> ranked rank bound s ->
    is_Some (live s this) -> (rank this < fuel)%nat ->
    exists v s', Cell_GetValue fuel this s = Returns v s'.
Proof.
  induction fuel as [|fuel IH]; intros this s Hwf Hr [c Hc] Hfuel; [lia|].
  simpl. rewrite (bind_deref_live _ _ _ _ Hc).
  destruct (impl_ c) as [|t|f cache] eqn:Himpl;
    try (do 2 eexists; reflexivity).
  assert (HE : forall t, structure t = structure s ->
            exists v t', Formula_Evaluate (Cell_GetValue fuel) f t = Returns v t' /\
                         structure t' = structure t).
  { intros t Ht. apply Evaluate_total. intros p t' Hp Ht' Hv Hlive.
    assert (Hstr : structure s = structure t') by congruence.
    apply IH; auto.
    - eapply well_formed_structure; eauto.
    - eapply ranked_structure; eauto.
    - assert (Hin : p ∈ r_nodes_ c).
      { rewrite (wf_outgoing s Hwf this c Hc), Himpl. simpl.
        apply elem_of_list_to_set.
        apply Formula_GetReferencedCells_elem_of. auto. }
      pose proof (proj2 (Hr this c Hc) p Hin). lia. }
  assert (Hbody : forall t, structure t = structure s ->
            exists v t', (do value <- Formula_Evaluate (Cell_GetValue fuel) f;
                          ret (to_cell_value value)) t = Returns v t').
  { intros t Ht. destruct (HE t Ht) as (v & t' & Hv & _).
    rewrite (bind_Returns _ _ _ _ _ Hv). do 2 eexists. reflexivity. }
  destruct cache as [x|].
  - unfold bind at 1. unfold ret at 1. apply Hbody. reflexivity.
  - destruct (HE s eq_refl) as (v & s1 & Hv & Hs1).
    rewrite (bind_assoc (Formula_Evaluate (Cell_GetValue fuel) f)).
    rewrite (bind_Returns _ _ _ _ _ Hv).
    destruct (structure_live_Some s s1 this c (eq_sym Hs1) Hc) as (c1 & Hc1 & _).
    unfold bind at 1. rewrite (update_live _ _ _ _ Hc1).
    apply Hbody. rewrite <- Hs1.
    eapply structure_store; [exact Hc1|apply set_cache_forget].
Qed.

(** [GetCell(pos)->GetValue()] writes caches only. *)
Lemma Sheet_GetValue_structure fuel pos s :
  ensures (Sheet_GetValue fuel pos s)
    (fun _ s' => structure s' = structure s)
    (fun e s' => e = InvalidPositionException /\ s' = s) True.
Proof.
  unfold Sheet_GetValue, Sheet_GetCell. destruct (IsValid pos) eqn:Hv.
  - rewrite (bind_Returns _ _ _ _ _ (GetCellPtr_valid pos s Hv)).
    destruct (cells_ s !! pos) as [[c|]|]; simpl; try reflexivity.
    pose proof (GetValue_no_throw fuel pos s) as Hno.
    unfold bind.
    destruct (Cell_GetValue fuel pos s) as [v s'|e s'| |] eqn:Hval;
      unfold never in *; simpl in *; try contradiction; auto.
    eapply GetValue_structure; eauto.
  - unfold bind. rewrite (GetCellPtr_invalid pos s Hv). simpl. auto.
Qed.

(** ** Every sheet a caller can hold is well formed *)

Theorem perform_well_formed fuel op s s' :
  well_formed s -> sheet_after (perform fuel op s) = Some s' -> well_formed s'.
Proof.
  intros Hwf Hafter. destruct op as [pos text|pos|pos]; simpl in Hafter.
  - pose proof (Sheet_SetCell_well_formed fuel pos text s Hwf) as Hp.
    destruct (Sheet_SetCell fuel pos text s); simpl in *; congruence.
  - pose proof (Sheet_ClearCell_well_formed fuel pos s Hwf) as Hp.
    destruct (Sheet_ClearCell fuel pos s); simpl in *; congruence.
  - pose proof (Sheet_GetValue_structure fuel pos s) as Hp. unfold bind in Hafter.
    destruct (Sheet_GetValue fuel pos s) as [v t|e t| |]; simpl in *;
      try discriminate; injection Hafter as <-.
    + eapply well_formed_structure; [symmetry; exact Hp|exact Hwf].
    + destruct Hp as [_ ->]. exact Hwf.
Qed.

Theorem reachable_well_formed s : reachable s -> well_formed s.
Proof.
  induction 1 as [|fuel op s s' _ IH Hafter].
  - apply well_formed_CreateSheet.
  - eapply perform_well_formed; eauto.
Qed.

Lemma built_by_SetCell_reachable s : built_by_SetCell s -> reachable s.
Proof.
  induction 1 as [|fuel pos text s s' _ IH Hset]; [constructor|].
  apply (reachable_perform fuel (OpSetCell pos text) s s' IH).
  simpl. rewrite Hset. reflexivity.
Qed.

Lemma built_by_SetCell_no_null s : built_by_SetCell s -> no_null_entries s.
Proof.
  induction 1 as [|fuel pos text s s' _ IH Hset].
  - intros p. unfold CreateSheet. simpl. rewrite lookup_empty. discriminate.
  - pose proof (Sheet_SetCell_spec True fuel pos text s (fun _ => O) O
                  (or_introl I)) as Hspec.
    rewrite Hset in Hspec. simpl in Hspec.
    destruct Hspec as [_ (impl & c0 & s1 & _ & _ & _ & Hnull & Hs1 & Hstr)].
    assert (Hm : no_null_entries (materialized pos s)).
    { intros p. apply materialized_lookup. apply IH. }
    intros p Hp.
    pose proof (f_equal (fun m => m !! p) Hstr) as Hlook. simpl in Hlook.
    rewrite !structure_lookup, Hp, Hs1 in Hlook. simpl in Hlook.
    unfold install_at in Hlook. specialize (Hm p).
    destruct (cells_ (materialized pos s) !! p) as [[c|]|]; simpl in Hlook;
      try congruence.
    case_decide; simpl in Hlook; congruence.
Qed.

End GetValueTotal.


Section Closing.
Context `{Platform}.

(** ** A body that closes a cycle *)

Lemma live_materialized pos s p c :
  live s p = Some c -> live (materialized pos s) p = Some c.
Proof.
  intros Hc. unfold materialized.
  destruct (cells_ s !! pos) as [u|] eqn:Hpos; [exact Hc|].
  apply live_Some. simpl. apply live_Some in Hc.
  destruct (decide (p = pos)) as [->|Hne]; [congruence|].
  rewrite lookup_insert_ne by congruence. exact Hc.
Qed.

Lemma edge_feeds s p q :
  no_dangling s -> mirrored s -> edge s p q -> feeds s p q.
Proof.
  intros Hd Hm (c & Hc & Hq).
  destruct (Hd p c q Hc) as [cq Hcq]; [set_solver|].
  exists cq. split; [exact Hcq|]. apply (Hm p q c cq Hc Hcq). exact Hq.
Qed.

Lemma feeds_materialized pos s a b :
  feeds s a b -> feeds (materialized pos s) a b.
Proof.
  intros (c & Hc & Ha). exists c. split; [|exact Ha].
  apply live_materialized. exact Hc.
Qed.

(** A path of the graph with the new body either avoids the edited cell, or
    reaches it along old edges and leaves its last visit through a new
    reference. *)
Lemma edge_with_path s this refs a b :
  tc (edge_with s this refs) a b ->
  tc (edge s) a b \/
  (rtc (edge s) a this /\ exists x, x ∈ refs /\ rtc (edge s) x b).
Proof.
  induction 1 as [a b Hstep|a m b Hstep _ IH].
  - destruct Hstep as [[Hne He]|[-> Hin]].
    + left. apply tc_once. exact He.
    + right. split; [apply rtc_refl|]. exists b. split; [exact Hin|apply rtc_refl].
  - destruct Hstep as [[Hne He]|[-> Hin]].
    + destruct IH as [Htc|(Hto & x & Hx & Hfrom)].
      * left. eapply tc_l; eauto.
      * right. split; [eapply rtc_l; eauto|]. eauto.
    + right. split; [apply rtc_refl|].
      destruct IH as [Htc|(_ & x & Hx & Hfrom)].
      * exists m. split; [exact Hin|]. apply tc_rtc. exact Htc.
      * eauto.
Qed.

Lemma closing_cycle_witness s this impl :
  well_formed s -> cells_ s !! this <> Some None ->
  (exists p, tc (edge_with s this (Impl_GetReferencedCells impl)) p p) ->
  cycle_witness (materialized this s) this impl.
Proof.
  intros Hwf Hnn [p Hcycle].
  destruct (edge_with_path _ _ _ _ _ Hcycle) as [Htc|(Hto & x & Hx & Hfrom)].
  { exfalso. exact (well_formed_acyclic s Hwf p Htc). }
  assert (Hpath : rtc (edge s) x this) by (etrans; eauto).
  exists x. split; [exact Hx|]. split.
  - inversion Hpath as [|? y ? (c & Hc & _) _]; subst.
    + apply materialized_live. exact Hnn.
    + exists c. apply live_materialized. exact Hc.
  - eapply rtc_subrel; [|exact Hpath].
    intros a b Hab. apply feeds_materialized.
    apply edge_feeds; [apply (wf_no_dangling s Hwf)|apply (wf_mirrored s Hwf)|exact Hab].
Qed.

(** ** The printable size ignores cells without text *)

Lemma GetPrintableSize_materialized pos s :
  Sheet_GetPrintableSize (materialized pos s) = Sheet_GetPrintableSize s.
Proof.
  unfold materialized.
  destruct (cells_ s !! pos) as [u|] eqn:Hpos; [reflexivity|].
  unfold Sheet_GetPrintableSize. simpl.
  rewrite map_fold_insert_L; [reflexivity| |exact Hpos].
  intros j1 j2 z1 z2 y _ _ _.
  destruct z1 as [c1|], z2 as [c2|]; try reflexivity.
  destruct (negb (bool_decide (Cell_GetText c1 = ""))),
           (negb (bool_decide (Cell_GetText c2 = ""))); simpl; try reflexivity.
  f_equal; lia.
Qed.

(** ** What [Formula::Evaluate] makes of a thrown [FormulaError] *)

Lemma Evaluate_catches GV f s c s' :
  Execute (ast_ f) (Formula_EvaluateCell GV)
    (mkSheet (cells_ s) (S (evaluate_calls s)))
  = Throws (ThrownFormulaError c) s' ->
  Formula_Evaluate GV f s = Returns (FormulaInterface.Error c) s'.
Proof.
  intros Hthrow. unfold Formula_Evaluate, count_Evaluate. unfold bind at 1.
  unfold catch_FormulaError, bind. rewrite Hthrow. reflexivity.
Qed.

(** Whatever its cache holds, a formula cell answers [GetValue] with what
    one evaluation of its formula gives. *)
Lemma GetValue_plain n this s c f cache :
  live s this = Some c -> impl_ c = FormulaImpl f cache ->
  agree eq s s (Cell_GetValue (S n) this s)
    ((do value <- Formula_Evaluate (Cell_GetValue n) f;
      ret (to_cell_value value)) s).
Proof.
  intros Hc Himpl. simpl. rewrite (bind_deref_live _ _ _ _ Hc), Himpl.
  assert (HE : cache_blind eq (Formula_Evaluate (Cell_GetValue n) f)
                 (Formula_Evaluate (Cell_GetValue n) f)).
  { apply cache_blind_Evaluate. apply cache_blind_GetValue. }
  assert (Hk : forall v : FormulaInterface.Value,
             cache_blind eq (ret (to_cell_value v)) (ret (to_cell_value v))).
  { intros v. apply cache_blind_ret. reflexivity. }
  destruct cache as [x|].
  - unfold bind at 1. unfold ret at 1.
    refine (cache_blind_bind eq eq _ _ _ _ HE _ s s eq_refl).
    intros v ? <-. apply Hk.
  - unfold bind at 1.
    apply (primed_agree (Formula_Evaluate (Cell_GetValue n) f)
             (fun v => ret (to_cell_value v)) this s s HE Hk eq_refl).
    eauto.
Qed.

(** [GetValue] of a formula cell returns what [Formula::Evaluate] returns,
    carried over from the one variant to the other. *)
Lemma GetValue_formula n this s c f cache value s1 :
  live s this = Some c -> impl_ c = FormulaImpl f cache ->
  Formula_Evaluate (Cell_GetValue n) f s = Returns value s1 ->
  exists s', Cell_GetValue (S n) this s = Returns (to_cell_value value) s' /\
             structure s' = structure s.
Proof.
  intros Hc Himpl Hval.
  pose proof (GetValue_plain n this s c f cache Hc Himpl) as Hag.
  rewrite (bind_Returns _ _ _ _ _ Hval) in Hag. unfold ret in Hag.
  destruct (Cell_GetValue (S n) this s) as [v s'| | |];
    simpl in Hag; try contradiction.
  destruct Hag as (-> & Hs' & _). exists s'. auto.
Qed.

End Closing.


(** * The properties of the specification *)

Section Claims.
Context `{Platform}.

(** C1 (amended): when [Sheet::SetCell(pos, text)] throws [FormulaException]
    or [CircularDependencyException], [pos] is valid and the sheet is the
    sheet before the call, except that a position without an entry now holds
    the Empty cell the call constructed, with empty adjacency sets; every
    other entry, every body, adjacency set and cache, and the printable size
    are those before the call. *)
Theorem SetCell_failure_atomic fuel pos text s e s' :
  Sheet_SetCell fuel pos text s = Throws e s' ->
  e = FormulaException \/ e = CircularDependencyException ->
  IsValid pos = true /\
  (is_Some (cells_ s !! pos) -> s' = s) /\
  (cells_ s !! pos = None ->
   cells_ s' = <[pos := Some new_Cell]> (cells_ s) /\
   evaluate_calls s' = evaluate_calls s) /\
  Sheet_GetPrintableSize s' = Sheet_GetPrintableSize s.
Proof.
  intros Hthrow He.
  pose proof (Sheet_SetCell_throws fuel pos text s) as Hspec.
  rewrite Hthrow in Hspec. simpl in Hspec.
  destruct Hspec as [(-> & _)|(_ & Hv & ->)].
  { destruct He; discriminate. }
  split; [exact Hv|].
  split; [|split; [|apply GetPrintableSize_materialized]].
  - intros [u Hu]. unfold materialized. rewrite Hu. reflexivity.
  - intros Hnone. unfold materialized. rewrite Hnone. auto.
Qed.

(** C2: a sheet built by calls of [SetCell] that all returned has an acyclic
    graph of outgoing edges; and on such a sheet a [SetCell] at a valid
    position whose new body would close a cycle throws
    [CircularDependencyException], given fuel for the traversal, and leaves
    the sheet as it was (with the cell of [pos], when there was one,
    unchanged). *)
Theorem SetCell_acyclic_and_rejects_cycles s :
  built_by_SetCell s ->
  acyclic s /\
  forall pos text impl,
    IsValid pos = true ->
    Cell_CreateImpl text s = Returns impl s ->
    (exists p, tc (edge_with s pos (Impl_GetReferencedCells impl)) p p) ->
    (forall c, live s pos = Some c -> live (materialized pos s) pos = Some c) /\
    exists fuel0, forall fuel, (fuel0 <= fuel)%nat ->
      Sheet_SetCell fuel pos text s
      = Throws CircularDependencyException (materialized pos s).
Proof.
  intros Hb.
  pose proof (reachable_well_formed s (built_by_SetCell_reachable s Hb)) as Hwf.
  pose proof (built_by_SetCell_no_null s Hb) as Hnn.
  split; [apply well_formed_acyclic; exact Hwf|].
  intros pos text impl Hv Himpl Hcycle.
  split; [intros c; apply live_materialized|].
  pose proof (closing_cycle_witness s pos impl Hwf (Hnn pos) Hcycle) as Hcw.
  destruct (Sheet_SetCell_total pos text s Hwf (Hnn pos)
              (fun _ _ q _ => Hnn q)) as [fuel0 Htotal].
  exists fuel0. intros fuel Hfuel. specialize (Htotal fuel Hfuel).
  assert (Hsame : forall t impl', Cell_CreateImpl text t = Returns impl' t ->
                                  impl' = impl).
  { intros t impl' Ht.
    destruct (CreateImpl_cases text s) as [(impl0 & H0 & Hall)|Hthrow];
      [|congruence].
    specialize (Hall t). congruence. }
  destruct (Sheet_SetCell fuel pos text s) as [[] s'|e s'| |];
    simpl in Htotal; try contradiction.
  - destruct Htotal as (_ & _ & impl' & c0 & s1 & Hi & _ & Hw & _).
    apply Hsame in Hi. subst impl'.
    exfalso. eapply witnesses_exclusive; eauto.
  - destruct Htotal as [(_ & Hf & _)|(_ & -> & [[_ Hthrow]|[-> _]])].
    + congruence.
    + destruct (CreateImpl_cases text s) as [(impl0 & _ & Hall)|Hthrow'];
        [|congruence].
      rewrite (Hall (materialized pos s)) in Hthrow. discriminate.
    + reflexivity.
Qed.

(** C5: [Formula::EvaluateCell] throws [Ref] for an invalid position, gives
    0 where [GetCell] finds no cell, and otherwise turns the value of the
    cell into a number: a double is itself, the empty string is 0, another
    string is the double the stream extraction reads when it consumes the
    whole string and [Value] thrown otherwise, and a [FormulaError] is
    thrown again with its category. *)
Theorem EvaluateCell_cases fuel p s :
  (IsValid p = false ->
   Formula_EvaluateCell (Cell_GetValue fuel) p s
   = Throws (ThrownFormulaError FormulaError.Ref) s) /\
  (IsValid p = true -> live s p = None ->
   Sheet_GetCell p s = Returns None s /\
   Formula_EvaluateCell (Cell_GetValue fuel) p s = Returns 0%float s) /\
  (IsValid p = true ->
   forall c v s1,
     live s p = Some c -> Cell_GetValue fuel p s = Returns v s1 ->
     exists s',
       structure s' = structure s /\
       match v with
       | CellInterface.Number d =>
           Formula_EvaluateCell (Cell_GetValue fuel) p s = Returns d s'
       | CellInterface.Text EmptyString =>
           Formula_EvaluateCell (Cell_GetValue fuel) p s = Returns 0%float s'
       | CellInterface.Text text =>
           match ReadDouble text with
           | (Some result, true) =>
               Formula_EvaluateCell (Cell_GetValue fuel) p s = Returns result s'
           | _ =>
               Formula_EvaluateCell (Cell_GetValue fuel) p s
               = Throws (ThrownFormulaError FormulaError.Value) s'
           end
       | CellInterface.Error e =>
           Formula_EvaluateCell (Cell_GetValue fuel) p s
           = Throws (ThrownFormulaError e) s'
       end).
Proof.
  split; [|split].
  - intros Hv. unfold Formula_EvaluateCell. rewrite Hv. reflexivity.
  - intros Hv Hnone. split.
    + unfold Sheet_GetCell. rewrite (GetCellPtr_valid p s Hv).
      unfold live in Hnone.
      destruct (cells_ s !! p) as [[c|]|]; [discriminate|reflexivity..].
    + rewrite (EvaluateCell_unfold _ p s Hv), Hnone. reflexivity.
  - intros Hv c v s1 Hc Hval.
    destruct (EvaluateCell_live fuel p s c v s1 Hv Hc Hval) as (s' & Hs' & ->).
    exists s'. split; [exact Hs'|].
    destruct v as [t|d|e]; simpl; try reflexivity.
    unfold ConvertStringToDouble. destruct t as [|a t]; [reflexivity|].
    destruct (ReadDouble (String a t)) as [[d|] []]; reflexivity.
Qed.

(** C6: neither [Formula::Evaluate] nor [Cell::GetValue] throws, on any
    sheet; a [FormulaError] thrown while the tree is executed, of whatever
    category ([Ref], [Value] or [Arithmetic]), comes back from
    [Formula::Evaluate] as a value; [GetValue] of a formula cell returns
    that [FormulaError] as its value, whatever the cache of the cell holds;
    and on every reachable sheet [GetValue] of a cell returns a value,
    given fuel. *)
Theorem evaluation_errors_are_values :
  (forall fuel f s e s',
     Formula_Evaluate (Cell_GetValue fuel) f s <> Throws e s') /\
  (forall fuel f s category s',
     Execute (ast_ f) (Formula_EvaluateCell (Cell_GetValue fuel))
       (mkSheet (cells_ s) (S (evaluate_calls s)))
     = Throws (ThrownFormulaError category) s' ->
     Formula_Evaluate (Cell_GetValue fuel) f s
     = Returns (FormulaInterface.Error category) s') /\
  (forall fuel this s e s', Cell_GetValue fuel this s <> Throws e s') /\
  (forall fuel this s c f cache category s1,
     live s this = Some c -> impl_ c = FormulaImpl f cache ->
     Formula_Evaluate (Cell_GetValue fuel) f s
     = Returns (FormulaInterface.Error category) s1 ->
     exists s', Cell_GetValue (S fuel) this s
                = Returns (CellInterface.Error category) s' /\
                structure s' = structure s) /\
  (forall fuel this s c f cache category s1,
     live s this = Some c -> impl_ c = FormulaImpl f cache ->
     Execute (ast_ f) (Formula_EvaluateCell (Cell_GetValue fuel))
       (mkSheet (cells_ s) (S (evaluate_calls s)))
     = Throws (ThrownFormulaError category) s1 ->
     exists s', Cell_GetValue (S fuel) this s
                = Returns (CellInterface.Error category) s' /\
                structure s' = structure s) /\
  (forall s this,
     reachable s -> is_Some (live s this) ->
     exists fuel0, forall fuel, (fuel0 <= fuel)%nat ->
       exists v s', Cell_GetValue fuel this s = Returns v s').
Proof.
  split; [|split; [|split; [|split; [|split]]]].
  - intros fuel f s e s' Heq.
    pose proof (Evaluate_no_throw fuel f s (GetValue_no_throw fuel)) as Hno.
    rewrite Heq in Hno. exact Hno.
  - intros fuel f s category s'. apply Evaluate_catches.
  - intros fuel this s e s' Heq.
    pose proof (GetValue_no_throw fuel this s) as Hno.
    rewrite Heq in Hno. exact Hno.
  - intros fuel this s c f cache category s1 Hc Himpl Hval.
    exact (GetValue_formula fuel this s c f cache _ s1 Hc Himpl Hval).
  - intros fuel this s c f cache category s1 Hc Himpl Hthrow.
    exact (GetValue_formula fuel this s c f cache _ s1 Hc Himpl
             (Evaluate_catches _ f s category s1 Hthrow)).
  - intros s this Hreach Hlive.
    pose proof (reachable_well_formed s Hreach) as Hwf.
    destruct (wf_ranked s Hwf) as (rank & bound & Hr).
    exists bound. intros fuel Hfuel.
    apply (GetValue_total rank bound); auto.
    destruct Hlive as [c Hc]. pose proof (proj1 (Hr this c Hc)). lia.
Qed.

(** C7: on every reachable sheet the adjacency sets mirror each other: for
    all cells [c] and [d], [d] is in the outgoing set of [c] exactly when
    [c] is in the incoming set of [d]; and every member of an adjacency set
    is a cell of the sheet. *)
Theorem adjacency_sets_mirror s :
  reachable s ->
  (forall p q cp cq,
     live s p = Some cp -> live s q = Some cq ->
     (q ∈ r_nodes_ cp <-> p ∈ l_nodes_ cq)) /\
  (forall p c q,
     live s p = Some c -> q ∈ l_nodes_ c ∪ r_nodes_ c -> is_Some (live s q)).
Proof.
  intros Hreach. pose proof (reachable_well_formed s Hreach) as Hwf.
  split; [apply (wf_mirrored s Hwf)|apply (wf_no_dangling s Hwf)].
Qed.

(** C10: on a reachable sheet [ClearCell] at a valid position throws
    nothing and returns, given fuel; [Clear] on a cell throws nothing;
    the empty text makes an Empty body, which has no references, and the
    cycle check of a body without references answers [false]. *)
Theorem ClearCell_never_raises s pos :
  reachable s -> IsValid pos = true ->
  (forall t, Cell_CreateImpl "" t = Returns EmptyImpl t) /\
  Impl_GetReferencedCells EmptyImpl = [] /\
  (forall fuel this t,
     Cell_WouldIntroduceCircularDependency fuel this EmptyImpl t
     = Returns false t) /\
  (forall fuel e s', is_Some (live s pos) ->
     Cell_Clear fuel pos s <> Throws e s') /\
  (forall fuel e s', Sheet_ClearCell fuel pos s <> Throws e s') /\
  (exists fuel0, forall fuel, (fuel0 <= fuel)%nat ->
     exists s', Sheet_ClearCell fuel pos s = Returns tt s').
Proof.
  intros Hreach Hv. pose proof (reachable_well_formed s Hreach) as Hwf.
  split; [reflexivity|]. split; [reflexivity|]. split; [reflexivity|].
  split; [|split].
  - intros fuel e s' [c0 Hc0] Heq.
    pose proof (Cell_Set_spec True (Sheet_SetCell fuel) fuel pos "" s c0
                  (fun _ => O) O Hc0
                  (fun q Hq => SetCell_makes_cell True fuel q Hq (or_introl I))
                  (or_introl I)) as Hspec.
    unfold Cell_Clear in Heq. rewrite Heq in Hspec. simpl in Hspec.
    exact (Set_threw_empty _ _ _ _ Hspec).
  - intros fuel e s' Heq.
    pose proof (Sheet_ClearCell_spec True fuel pos s (fun _ => O) O Hwf
                  (or_introl I)) as Hspec.
    rewrite Heq in Hspec. simpl in Hspec. destruct Hspec as (_ & Hf & _).
    congruence.
  - destruct (Sheet_ClearCell_total pos s Hwf) as [fuel0 Htotal].
    exists fuel0. intros fuel Hfuel. specialize (Htotal fuel Hfuel).
    destruct (Sheet_ClearCell fuel pos s) as [[] s'|e s'| |];
      simpl in Htotal; try contradiction.
    + eauto.
    + destruct Htotal as (_ & Hf & _). congruence.
Qed.

End Claims.

(** * The properties on concrete sheets

    The bounds are those section 3 of the specification calls common,
    16384 x 16384; [ZZZ9999] lies outside them, and inside the wide ones. *)

Section CommonBounds.
Local Existing Instance Reference.common.

(** C1 (as stated, refuted): [SetCell(A1, "=A1")] on the empty sheet throws
    [CircularDependencyException], [A1] is valid, and the cell constructed
    for [A1] is still there: [GetCell(A1)], null before the call, is a cell
    afterwards, so the sheet is not the sheet before the call. *)
Lemma SetCell_failure_leaves_cell :
  IsValid A1 = true /\
  Sheet_GetCell A1 CreateSheet = Returns None CreateSheet /\
  exists s',
    Sheet_SetCell 4 A1 "=A1" CreateSheet
    = Throws CircularDependencyException s' /\
    Sheet_GetCell A1 s' = Returns (Some A1) s' /\
    s' <> CreateSheet.
Proof.
  split; [reflexivity|]. split; [reflexivity|].
  exists (materialized A1 CreateSheet).
  split; [vm_compute; reflexivity|]. split; [vm_compute; reflexivity|].
  intros Heq. apply (f_equal (fun t => cells_ t !! A1)) in Heq.
  vm_compute in Heq. discriminate.
Qed.

Lemma SetCell_failure_atomic_witness :
  Sheet_SetCell 4 A1 "=A1" CreateSheet
  = Throws CircularDependencyException (materialized A1 CreateSheet) /\
  Sheet_GetPrintableSize (materialized A1 CreateSheet)
  = Sheet_GetPrintableSize CreateSheet.
Proof.
  assert (Hthrow : Sheet_SetCell 4 A1 "=A1" CreateSheet
                   = Throws CircularDependencyException
                       (materialized A1 CreateSheet))
    by (vm_compute; reflexivity).
  split; [exact Hthrow|].
  exact (proj2 (proj2 (proj2
           (SetCell_failure_atomic 4 A1 "=A1" CreateSheet
              CircularDependencyException (materialized A1 CreateSheet)
              Hthrow (or_intror eq_refl))))).
Defined.

Lemma A1_reads_B1 :
  Sheet_SetCell 4 A1 "=B1" CreateSheet = Returns tt sheet_A1_reads_B1.
Proof. vm_compute. reflexivity. Qed.

Lemma built_A1_reads_B1 : built_by_SetCell sheet_A1_reads_B1.
Proof.
  apply (built_SetCell 4 A1 "=B1" CreateSheet); [constructor|].
  apply A1_reads_B1.
Qed.

Lemma SetCell_acyclic_and_rejects_cycles_witness :
  acyclic sheet_A1_reads_B1 /\
  exists fuel0, forall fuel, (fuel0 <= fuel)%nat ->
    Sheet_SetCell fuel B1 "=A1" sheet_A1_reads_B1
    = Throws CircularDependencyException sheet_A1_reads_B1.
Proof.
  destruct (SetCell_acyclic_and_rejects_cycles sheet_A1_reads_B1
              built_A1_reads_B1) as [Hacyclic Hrejects].
  split; [exact Hacyclic|].
  destruct (Hrejects B1 "=A1" (FormulaImpl (mkFormula (CellExpr A1)) None))
    as [_ Hthrow].
  - reflexivity.
  - vm_compute. reflexivity.
  - exists B1.
    apply (tc_l _ B1 A1 B1).
    + right. split; [reflexivity|].
      replace (Impl_GetReferencedCells _) with [A1] by (vm_compute; reflexivity).
      apply list_elem_of_here.
    + apply tc_once. left. split; [discriminate|].
      exists (mkCell (FormulaImpl (mkFormula (CellExpr B1)) None) ∅ {[ B1 ]}).
      split; [vm_compute; reflexivity|]. by_evaluation.
  - exact Hthrow.
Defined.

(** C3: [SetCell(A1, "x"); ClearCell(A1)] returns and leaves the entry of
    [A1] with a null pointer; [GetCell(A1)] reports no cell, [A1] is valid,
    the sheet is reachable, and [SetCell(A1, text)] on it dereferences the
    null pointer, whatever the text. *)
Theorem SetCell_after_ClearCell_undefined :
  script 6 [OpSetCell A1 "x"; OpClearCell A1] CreateSheet
  = Returns tt sheet_A1_cleared /\
  reachable sheet_A1_cleared /\
  IsValid A1 = true /\
  Sheet_GetCell A1 sheet_A1_cleared = Returns None sheet_A1_cleared /\
  forall fuel text,
    Sheet_SetCell (S fuel) A1 text sheet_A1_cleared = Undefined.
Proof.
  split; [vm_compute; reflexivity|]. split; [|split; [reflexivity|]].
  - eapply (reachable_perform 6 (OpClearCell A1)).
    + eapply (reachable_perform 6 (OpSetCell A1 "x")); [constructor|].
      vm_compute. reflexivity.
    + vm_compute. reflexivity.
  - split; [reflexivity|]. intros fuel text. reflexivity.
Qed.

(** C4: after [SetCell(A1, "=1+2")] the cache of the cell is empty and
    [Formula::Evaluate] has not run; the first [GetValue] runs it twice and
    fills the cache; the second [GetValue], with the cache filled, runs it
    once more. *)
Theorem GetValue_evaluates_again :
  Sheet_SetCell 4 A1 "=1+2" CreateSheet = Returns tt (sheet_A1_sum None 0) /\
  Cell_GetValue 4 A1 (sheet_A1_sum None 0)
  = Returns (CellInterface.Number 3)
      (sheet_A1_sum (Some (FormulaInterface.Number 3)) 2) /\
  Cell_GetValue 4 A1 (sheet_A1_sum (Some (FormulaInterface.Number 3)) 2)
  = Returns (CellInterface.Number 3)
      (sheet_A1_sum (Some (FormulaInterface.Number 3)) 3).
Proof. repeat split; vm_compute; reflexivity. Qed.

Lemma EvaluateCell_cases_witness :
  Formula_EvaluateCell (Cell_GetValue 4) ZZZ9999 sheet_A1_reads_B1
  = Throws (ThrownFormulaError FormulaError.Ref) sheet_A1_reads_B1 /\
  Formula_EvaluateCell (Cell_GetValue 4) A2 sheet_A1_reads_B1
  = Returns 0%float sheet_A1_reads_B1 /\
  exists s',
    Formula_EvaluateCell (Cell_GetValue 4) B1 sheet_A1_reads_B1
    = Returns 0%float s'.
Proof.
  split; [|split].
  - apply (proj1 (EvaluateCell_cases 4 ZZZ9999 sheet_A1_reads_B1)).
    reflexivity.
  - apply (proj1 (proj2 (EvaluateCell_cases 4 A2 sheet_A1_reads_B1)));
      reflexivity.
  - assert (Hvalid : IsValid B1 = true) by reflexivity.
    destruct (proj2 (proj2 (EvaluateCell_cases 4 B1 sheet_A1_reads_B1))
                Hvalid (mkCell EmptyImpl {[ A1 ]} ∅) (CellInterface.Text "")
                sheet_A1_reads_B1) as (s' & _ & Hs');
      [vm_compute; reflexivity|reflexivity|].
    exists s'. exact Hs'.
Defined.

Lemma reachable_A1_reads_B1 : reachable sheet_A1_reads_B1.
Proof. apply built_by_SetCell_reachable. apply built_A1_reads_B1. Qed.

(** The three kinds of failure, each in a sheet that calls of [SetCell]
    build: a division by zero, a reference outside the bounds, and a
    reference to a text that is no number. *)
Lemma failing_formulas_built :
  Sheet_SetCell 4 A1 "=1/0" CreateSheet
  = Returns tt (sheet_A1_formula
                  (BinaryOpExpr Divide (NumberExpr 1) (NumberExpr 0))) /\
  Sheet_SetCell 4 A1 "=ZZZ9999" CreateSheet
  = Returns tt (sheet_A1_formula (CellExpr Reference.NONE)) /\
  Sheet_SetCell 4 B1 "abc" sheet_A1_reads_B1
  = Returns tt (sheet_A1_reads_B1_text "abc").
Proof. repeat split; vm_compute; reflexivity. Qed.

Lemma evaluation_errors_are_values_witness :
  (exists s',
     Cell_GetValue 1 A1
       (sheet_A1_formula (BinaryOpExpr Divide (NumberExpr 1) (NumberExpr 0)))
     = Returns (CellInterface.Error FormulaError.Arithmetic) s') /\
  (exists s',
     Cell_GetValue 1 A1 (sheet_A1_formula (CellExpr Reference.NONE))
     = Returns (CellInterface.Error FormulaError.Ref) s') /\
  (exists s',
     Cell_GetValue 2 A1 (sheet_A1_reads_B1_text "abc")
     = Returns (CellInterface.Error FormulaError.Value) s').
Proof.
  pose proof (proj1 (proj2 (proj2 (proj2 (proj2
                evaluation_errors_are_values))))) as Hthrown.
  split; [|split].
  - destruct (Hthrown 0%nat A1
                (sheet_A1_formula
                   (BinaryOpExpr Divide (NumberExpr 1) (NumberExpr 0)))
                (mkCell (FormulaImpl
                           (mkFormula (BinaryOpExpr Divide (NumberExpr 1)
                                         (NumberExpr 0))) None) ∅ ∅)
                (mkFormula (BinaryOpExpr Divide (NumberExpr 1) (NumberExpr 0)))
                None FormulaError.Arithmetic
                (mkSheet (cells_ (sheet_A1_formula
                                    (BinaryOpExpr Divide (NumberExpr 1)
                                       (NumberExpr 0)))) 1))
      as (s' & Hval & _); [reflexivity|reflexivity|vm_compute; reflexivity|].
    exists s'. exact Hval.
  - destruct (Hthrown 0%nat A1 (sheet_A1_formula (CellExpr Reference.NONE))
                (mkCell (FormulaImpl (mkFormula (CellExpr Reference.NONE))
                           None) ∅ ∅)
                (mkFormula (CellExpr Reference.NONE))
                None FormulaError.Ref
                (mkSheet (cells_ (sheet_A1_formula
                                    (CellExpr Reference.NONE))) 1))
      as (s' & Hval & _); [reflexivity|reflexivity|vm_compute; reflexivity|].
    exists s'. exact Hval.
  - destruct (Hthrown 1%nat A1 (sheet_A1_reads_B1_text "abc")
                (mkCell (FormulaImpl (mkFormula (CellExpr B1)) None)
                        ∅ {[ B1 ]})
                (mkFormula (CellExpr B1))
                None FormulaError.Value
                (mkSheet (cells_ (sheet_A1_reads_B1_text "abc")) 1))
      as (s' & Hval & _); [reflexivity|reflexivity|vm_compute; reflexivity|].
    exists s'. exact Hval.
Defined.

Lemma adjacency_sets_mirror_witness :
  reachable sheet_A1_reads_B1 /\
  (B1 ∈ r_nodes_ (mkCell (FormulaImpl (mkFormula (CellExpr B1)) None)
                         ∅ {[ B1 ]})
   <-> A1 ∈ l_nodes_ (mkCell EmptyImpl {[ A1 ]} ∅)).
Proof.
  split; [apply reachable_A1_reads_B1|].
  apply (proj1 (adjacency_sets_mirror sheet_A1_reads_B1 reachable_A1_reads_B1)
           A1 B1); vm_compute; reflexivity.
Defined.

(** C8: for the formula [A1+B1+A1], whose tree lists [A1], [B1], [A1],
    [GetReferencedCells] returns [A1], [B1], [A1]: [std::unique] removes
    equal neighbours only, and the second [A1] stays. *)
Theorem GetReferencedCells_keeps_distant_duplicates :
  ParseFormula "A1+B1+A1" CreateSheet
  = Returns (mkFormula A1_plus_B1_plus_A1) CreateSheet /\
  GetCells A1_plus_B1_plus_A1 = [A1; B1; A1] /\
  Formula_GetReferencedCells (mkFormula A1_plus_B1_plus_A1) = [A1; B1; A1] /\
  ~ NoDup (Formula_GetReferencedCells (mkFormula A1_plus_B1_plus_A1)).
Proof.
  split; [vm_compute; reflexivity|]. split; [reflexivity|].
  assert (Hrefs : Formula_GetReferencedCells (mkFormula A1_plus_B1_plus_A1)
                  = [A1; B1; A1]) by (vm_compute; reflexivity).
  split; [exact Hrefs|]. rewrite Hrefs. intros Hnodup.
  apply NoDup_cons in Hnodup as [Hnotin _]. apply Hnotin.
  apply list_elem_of_further, list_elem_of_here.
Qed.

Lemma ClearCell_never_raises_witness :
  exists fuel0, forall fuel, (fuel0 <= fuel)%nat ->
    exists s', Sheet_ClearCell fuel A1 sheet_A1_reads_B1 = Returns tt s'.
Proof.
  apply (ClearCell_never_raises sheet_A1_reads_B1 A1 reachable_A1_reads_B1).
  reflexivity.
Defined.

End CommonBounds.

Section Scenario.

(** C9 (as stated, refuted): with bounds that make [ZZZ9999] a valid
    position, after [SetCell(AAA1, "=ZZZ9999"); ClearCell(AAA1)] the cell
    made at [ZZZ9999] is still there, and [GetCell(ZZZ9999)] returns it; with
    the common bounds no cell was made and [GetCell(ZZZ9999)] throws. *)
Lemma ZZZ9999_is_not_dropped :
  (exists s,
     @script Reference.wide 6 [OpSetCell AAA1 "=ZZZ9999"; OpClearCell AAA1]
       CreateSheet = Returns tt s /\
     @Sheet_GetCell Reference.wide ZZZ9999 s = Returns (Some ZZZ9999) s /\
     @Sheet_GetCell Reference.wide ZZZ9999 s <> Returns None s) /\
  (exists s,
     @script Reference.common 6 [OpSetCell AAA1 "=ZZZ9999"; OpClearCell AAA1]
       CreateSheet = Returns tt s /\
     @Sheet_GetCell Reference.common ZZZ9999 s
     = Throws InvalidPositionException s /\
     @Sheet_GetCell Reference.common ZZZ9999 s <> Returns None s).
Proof.
  split.
  - exists sheet_AAA1_cleared_wide.
    split; [vm_compute; reflexivity|].
    assert (Hget : @Sheet_GetCell Reference.wide ZZZ9999 sheet_AAA1_cleared_wide
                   = Returns (Some ZZZ9999) sheet_AAA1_cleared_wide)
      by (vm_compute; reflexivity).
    split; [exact Hget|]. rewrite Hget. discriminate.
  - exists sheet_AAA1_cleared_common.
    split; [vm_compute; reflexivity|].
    assert (Hget : @Sheet_GetCell Reference.common ZZZ9999
                     sheet_AAA1_cleared_common
                   = Throws InvalidPositionException sheet_AAA1_cleared_common)
      by (vm_compute; reflexivity).
    split; [exact Hget|]. rewrite Hget. discriminate.
Qed.

(** C9 (amended): after [SetCell(AAA1, "=ZZZ9999"); ClearCell(AAA1)] the
    printable size is (0, 0) and [GetCell(AAA1)] reports no cell.  Where
    [ZZZ9999] is a valid position the cell made there stays, Empty and with
    an empty incoming set, and [GetCell(ZZZ9999)] returns it; where it is
    not, no cell was made and [GetCell(ZZZ9999)] throws
    [InvalidPositionException]. *)
Theorem AAA1_cleared_scenario :
  (@script Reference.wide 6 [OpSetCell AAA1 "=ZZZ9999"; OpClearCell AAA1]
     CreateSheet = Returns tt sheet_AAA1_cleared_wide /\
   @Sheet_GetPrintableSize Reference.wide sheet_AAA1_cleared_wide
   = mkSize 0 0 /\
   @Sheet_GetCell Reference.wide AAA1 sheet_AAA1_cleared_wide
   = Returns None sheet_AAA1_cleared_wide /\
   @IsValid Reference.wide ZZZ9999 = true /\
   @Sheet_GetCell Reference.wide ZZZ9999 sheet_AAA1_cleared_wide
   = Returns (Some ZZZ9999) sheet_AAA1_cleared_wide /\
   live sheet_AAA1_cleared_wide ZZZ9999 = Some (mkCell EmptyImpl ∅ ∅)) /\
  (@script Reference.common 6 [OpSetCell AAA1 "=ZZZ9999"; OpClearCell AAA1]
     CreateSheet = Returns tt sheet_AAA1_cleared_common /\
   @Sheet_GetPrintableSize Reference.common sheet_AAA1_cleared_common
   = mkSize 0 0 /\
   @Sheet_GetCell Reference.common AAA1 sheet_AAA1_cleared_common
   = Returns None sheet_AAA1_cleared_common /\
   @IsValid Reference.common ZZZ9999 = false /\
   @Sheet_GetCell Reference.common ZZZ9999 sheet_AAA1_cleared_common
   = Throws InvalidPositionException sheet_AAA1_cleared_common /\
   live sheet_AAA1_cleared_common ZZZ9999 = None).
Proof. repeat split; vm_compute; reflexivity. Qed.

End Scenario.


(** * What a call of [SetCell] that returned has done *)

Section SetCellEffects.
Context `{Platform}.

Lemma SetCell_returned fuel pos text s s' :
  Sheet_SetCell fuel pos text s = Returns tt s' ->
  IsValid pos = true /\ Set_returned (materialized pos s) pos text s'.
Proof.
  intros Hret.
  pose proof (Sheet_SetCell_spec True fuel pos text s (fun _ => O) O
                (or_introl I)) as Hspec.
  rewrite Hret in Hspec. exact Hspec.
Qed.

Lemma materialized_live_inv pos s p c :
  live (materialized pos s) p = Some c -> p <> pos -> live s p = Some c.
Proof.
  unfold materialized. intros Hc Hne.
  destruct (cells_ s !! pos) as [u|] eqn:Hpos; [exact Hc|].
  apply live_Some in Hc. simpl in Hc.
  rewrite lookup_insert_ne in Hc by congruence. apply live_Some. exact Hc.
Qed.

Lemma materialized_fresh pos s p :
  live s p = None -> live (materialized pos s) p = None \/
                     (p = pos /\ live (materialized pos s) p = Some new_Cell).
Proof.
  unfold materialized. intros Hnone.
  destruct (cells_ s !! pos) as [u|] eqn:Hpos; [left; exact Hnone|].
  destruct (decide (p = pos)) as [->|Hne].
  - right. split; [reflexivity|]. apply live_Some. simpl.
    apply lookup_insert_eq.
  - left. unfold live in *. simpl. rewrite lookup_insert_ne by congruence.
    exact Hnone.
Qed.

Lemma CreateImpl_anywhere text s t impl :
  Cell_CreateImpl text s = Returns impl s ->
  Cell_CreateImpl text t = Returns impl t.
Proof.
  intros Himpl.
  destruct (CreateImpl_cases text s) as [(impl0 & H0 & Hall)|Hthrow];
    [|congruence].
  rewrite H0 in Himpl. injection Himpl as <-. apply Hall.
Qed.

(** The cell of [pos] after [SetCell]: the new body, up to its cache, and
    the valid references of the body as outgoing set. *)
Lemma SetCell_cell fuel pos text s s' :
  Sheet_SetCell fuel pos text s = Returns tt s' ->
  exists impl c,
    Cell_CreateImpl text s = Returns impl s /\
    live s' pos = Some c /\
    Impl_InvalidateCache (impl_ c) = Impl_InvalidateCache impl /\
    r_nodes_ c = list_to_set (Impl_GetReferencedCells impl).
Proof.
  intros Hret.
  destruct (SetCell_returned _ _ _ _ _ Hret)
    as (_ & impl & c0 & s1 & Himpl & Hc0 & _ & _ & Hs1 & Hstr).
  exists impl.
  assert (Hc1 : live s1 pos
                = Some (mkCell impl
                          ((if decide (pos ∈ r_nodes_ c0)
                            then l_nodes_ c0 ∖ {[ pos ]} else l_nodes_ c0)
                             ∪ (if decide (pos ∈ (list_to_set
                                      (Impl_GetReferencedCells impl)
                                      : gset Position))
                                then {[ pos ]} else ∅))
                          (list_to_set (Impl_GetReferencedCells impl)))).
  { apply live_Some. rewrite Hs1. unfold install_at.
    apply live_Some in Hc0. rewrite Hc0.
    rewrite !(decide_True (P := pos = pos)) by reflexivity. reflexivity. }
  destruct (structure_live_Some s1 s' pos _ (eq_sym Hstr) Hc1)
    as (c & Hc & Hforget).
  exists c. split; [eapply CreateImpl_anywhere; exact Himpl|].
  split; [exact Hc|].
  split.
  - apply (f_equal impl_) in Hforget. exact Hforget.
  - apply (f_equal r_nodes_) in Hforget. exact Hforget.
Qed.

Lemma GetText_forget impl impl' :
  Impl_InvalidateCache impl = Impl_InvalidateCache impl' ->
  Impl_GetText impl = Impl_GetText impl'.
Proof.
  destruct impl, impl'; simpl; intros Heq; try discriminate; try reflexivity;
    congruence.
Qed.

(** X1: after [SetCell(pos, text)] has returned, [GetCell(pos)] is a cell
    and its [GetText()] gives the text back: the empty text for the empty
    text, the text itself for a text that is no formula (also the lone
    formula sign), and the formula sign followed by the printed tree for a
    formula. *)
Theorem SetCell_then_GetText fuel pos text s s' :
  Sheet_SetCell fuel pos text s = Returns tt s' ->
  Sheet_GetCell pos s' = Returns (Some pos) s' /\
  exists c,
    live s' pos = Some c /\
    match text with
    | EmptyString => Cell_GetText c = ""
    | String first rest =>
        if (1 <? String.length text)%nat && bool_decide (first = FORMULA_SIGN)
        then exists ast, ParseFormulaAST rest = Some ast /\
                         Cell_GetText c = String FORMULA_SIGN (PrintFormula ast)
        else Cell_GetText c = text
    end.
Proof.
  intros Hret.
  destruct (SetCell_cell _ _ _ _ _ Hret) as (impl & c & Himpl & Hc & Hforget & _).
  destruct (SetCell_returned _ _ _ _ _ Hret) as [Hv _].
  split.
  { unfold Sheet_GetCell. rewrite (GetCellPtr_valid pos s' Hv).
    apply live_Some in Hc. rewrite Hc. reflexivity. }
  exists c. split; [exact Hc|].
  unfold Cell_GetText. rewrite (GetText_forget _ _ Hforget).
  unfold Cell_CreateImpl in Himpl.
  destruct text as [|first rest]; [injection Himpl as <-; reflexivity|].
  destruct ((1 <? String.length (String first rest))%nat
            && bool_decide (first = FORMULA_SIGN)) eqn:Hform.
  - apply andb_prop in Hform as [_ Hfirst].
    apply bool_decide_eq_true in Hfirst.
    unfold FormulaImpl_new in Himpl. rewrite decide_True in Himpl by assumption.
    unfold bind, ParseFormula in Himpl.
    destruct (ParseFormulaAST rest) as [ast|]; [|discriminate].
    simpl in Himpl. injection Himpl as <-. exists ast. split; reflexivity.
  - simpl in Himpl. injection Himpl as <-. reflexivity.
Qed.

(** X2: after [SetCell(pos, text)] has returned with a text that is no
    formula, [GetValue()] of the cell is the text, without the escape sign
    when the text starts with one, and leaves the sheet as it is. *)
Theorem SetCell_then_GetValue_text fuel pos text s s' n :
  Sheet_SetCell fuel pos text s = Returns tt s' ->
  match text with
  | EmptyString =>
      Cell_GetValue (S n) pos s' = Returns (CellInterface.Text "") s'
  | String first rest =>
      (1 <? String.length text)%nat && bool_decide (first = FORMULA_SIGN)
      = false ->
      Cell_GetValue (S n) pos s'
      = Returns (CellInterface.Text
                   (if decide (first = ESCAPE_SIGN) then rest else text)) s'
  end.
Proof.
  intros Hret.
  destruct (SetCell_cell _ _ _ _ _ Hret) as (impl & c & Himpl & Hc & Hforget & _).
  unfold Cell_CreateImpl in Himpl.
  destruct text as [|first rest].
  - injection Himpl as <-. simpl. rewrite (bind_deref_live _ _ _ _ Hc).
    destruct (impl_ c); simpl in Hforget; try discriminate. reflexivity.
  - intros Hform. rewrite Hform in Himpl. simpl in Himpl. injection Himpl as <-.
    simpl. rewrite (bind_deref_live _ _ _ _ Hc).
    destruct (impl_ c) as [|t|f cache]; simpl in Hforget; try discriminate.
    injection Hforget as ->. simpl.
    destruct (decide (first = ESCAPE_SIGN)); reflexivity.
Qed.

(** Every cell after [Cell::Set], from the cells before: the cell of [pos]
    has the new body and outgoing set, the others keep theirs, and a cell
    made for a reference is empty. *)
Lemma Set_returned_cells s0 pos text s' impl :
  well_formed s0 ->
  Set_returned s0 pos text s' ->
  Cell_CreateImpl text s0 = Returns impl s0 ->
  (forall p c, live s0 p = Some c -> is_Some (live s' p)) /\
  (forall q, q ∈ Impl_GetReferencedCells impl -> is_Some (live s' q)) /\
  forall p c',
    live s' p = Some c' ->
    (exists c, live s0 p = Some c /\
       Impl_InvalidateCache (impl_ c')
       = Impl_InvalidateCache (if decide (p = pos) then impl else impl_ c) /\
       r_nodes_ c' = (if decide (p = pos)
                      then list_to_set (Impl_GetReferencedCells impl)
                      else r_nodes_ c) /\
       forall y, y ∈ l_nodes_ c' <->
                 (y <> pos /\ y ∈ l_nodes_ c) \/
                 (y = pos /\ p ∈ Impl_GetReferencedCells impl)) \/
    (live s0 p = None /\ p <> pos /\
     p ∈ Impl_GetReferencedCells impl /\
     impl_ c' = EmptyImpl /\ l_nodes_ c' = {[ pos ]} /\ r_nodes_ c' = ∅).
Proof.
  intros Hwf0 (impl' & c0 & s1 & Himpl' & Hc0 & _ & Hnull & Hs1 & Hstr) Himpl.
  assert (impl' = impl) as -> by congruence.
  split; [|split].
  - intros p c Hc.
    destruct (installed_old _ _ _ _ _ Hs1 p c Hc) as [c1 Hc1].
    destruct (structure_live_Some s1 s' p c1 (eq_sym Hstr) Hc1) as (c' & Hc' & _).
    eauto.
  - intros q Hq.
    destruct (installed_ref _ _ _ _ _ Hnull Hs1 q Hq) as [c1 Hc1].
    destruct (structure_live_Some s1 s' q c1 (eq_sym Hstr) Hc1) as (c' & Hc' & _).
    eauto.
  - intros p c' Hc'.
    destruct (structure_live_Some s' s1 p c' Hstr Hc') as (c1 & Hc1 & Hforget).
    assert (Hi : Impl_InvalidateCache (impl_ c') = Impl_InvalidateCache (impl_ c1))
      by (apply (f_equal impl_) in Hforget; simpl in Hforget; congruence).
    assert (Hl : l_nodes_ c' = l_nodes_ c1)
      by (symmetry; apply Cell_forget_l_nodes; exact Hforget).
    assert (Hr : r_nodes_ c' = r_nodes_ c1)
      by (symmetry; apply Cell_forget_r_nodes; exact Hforget).
    destruct (installed_cases _ _ _ _ _ Hwf0 Hc0 Hnull Hs1 p c1 Hc1)
      as [(c & Hc & Hi1 & Hr1 & Hl1)|(Hnone & Hne & Hin & ->)].
    + left. exists c. split; [exact Hc|]. rewrite Hi, Hr, Hl, Hi1, Hr1.
      split; [|split; [reflexivity|exact Hl1]].
      destruct (decide (p = pos)); reflexivity.
    + right. simpl in *. repeat split; try assumption.
      destruct (impl_ c'); simpl in Hi; congruence.
Qed.

Lemma SetCell_cells fuel pos text s s' impl :
  well_formed s ->
  Sheet_SetCell fuel pos text s = Returns tt s' ->
  Cell_CreateImpl text s = Returns impl s ->
  (forall p c, live (materialized pos s) p = Some c -> is_Some (live s' p)) /\
  (forall q, q ∈ Impl_GetReferencedCells impl -> is_Some (live s' q)) /\
  forall p c',
    live s' p = Some c' ->
    (exists c, live (materialized pos s) p = Some c /\
       Impl_InvalidateCache (impl_ c')
       = Impl_InvalidateCache (if decide (p = pos) then impl else impl_ c) /\
       r_nodes_ c' = (if decide (p = pos)
                      then list_to_set (Impl_GetReferencedCells impl)
                      else r_nodes_ c) /\
       forall y, y ∈ l_nodes_ c' <->
                 (y <> pos /\ y ∈ l_nodes_ c) \/
                 (y = pos /\ p ∈ Impl_GetReferencedCells impl)) \/
    (live (materialized pos s) p = None /\ p <> pos /\
     p ∈ Impl_GetReferencedCells impl /\
     impl_ c' = EmptyImpl /\ l_nodes_ c' = {[ pos ]} /\ r_nodes_ c' = ∅).
Proof.
  intros Hwf Hret Himpl.
  destruct (SetCell_returned _ _ _ _ _ Hret) as [_ Hset].
  apply (Set_returned_cells _ _ text); [|exact Hset|].
  - apply well_formed_materialized. exact Hwf.
  - eapply CreateImpl_anywhere. exact Himpl.
Qed.

(** X3: a [SetCell(pos, text)] that returned on a reachable sheet changed no
    other cell's text and no other cell's outgoing set; every cell that was
    there is still there; a cell that is new and is not the cell of [pos]
    was made for a reference of the new body, and is empty; and every valid
    reference of the new body has a cell. *)
Theorem SetCell_frame fuel pos text s s' impl :
  reachable s ->
  Sheet_SetCell fuel pos text s = Returns tt s' ->
  Cell_CreateImpl text s = Returns impl s ->
  (forall p c, p <> pos -> live s p = Some c ->
     exists c', live s' p = Some c' /\
                Cell_GetText c' = Cell_GetText c /\
                r_nodes_ c' = r_nodes_ c) /\
  (forall p c', p <> pos -> live s' p = Some c' -> live s p = None ->
     p ∈ Impl_GetReferencedCells impl /\
     Cell_GetText c' = "" /\ l_nodes_ c' = {[ pos ]} /\ r_nodes_ c' = ∅) /\
  (forall q, q ∈ Impl_GetReferencedCells impl ->
     Sheet_GetCell q s' = Returns (Some q) s').
Proof.
  intros Hreach Hret Himpl.
  pose proof (reachable_well_formed s Hreach) as Hwf.
  destruct (SetCell_cells _ _ _ _ _ _ Hwf Hret Himpl) as (Hold & Hrefs & Hcells).
  split; [|split].
  - intros p c Hne Hc.
    destruct (Hold p c (live_materialized pos s p c Hc)) as [c' Hc'].
    exists c'. split; [exact Hc'|].
    destruct (Hcells p c' Hc')
      as [(c2 & Hc2 & Hi & Hr & _)|(Hnone & _)].
    + apply materialized_live_inv in Hc2; [|exact Hne].
      rewrite Hc in Hc2. injection Hc2 as <-.
      rewrite decide_False in Hi by exact Hne.
      rewrite decide_False in Hr by exact Hne.
      split; [apply GetText_forget; exact Hi|exact Hr].
    + rewrite (live_materialized pos s p c Hc) in Hnone. discriminate.
  - intros p c' Hne Hc' Hnone.
    destruct (Hcells p c' Hc')
      as [(c2 & Hc2 & _)|(_ & _ & Hin & Hi & Hl & Hr)].
    + apply materialized_live_inv in Hc2; [|exact Hne]. congruence.
    + unfold Cell_GetText. rewrite Hi. auto.
  - intros q Hq. destruct (Hrefs q Hq) as [c Hc].
    unfold Sheet_GetCell.
    rewrite (GetCellPtr_valid q s'
               (Impl_GetReferencedCells_valid impl q Hq)).
    apply live_Some in Hc. rewrite Hc. reflexivity.
Qed.

(** X4: a [SetCell(pos, text)] that returned on a reachable sheet has
    replaced the outgoing edges of [pos] by the valid references of the new
    body and has left every other edge of the graph alone. *)
Theorem SetCell_edges fuel pos text s s' impl :
  reachable s ->
  Sheet_SetCell fuel pos text s = Returns tt s' ->
  Cell_CreateImpl text s = Returns impl s ->
  forall p q,
    edge s' p q <-> edge_with s pos (Impl_GetReferencedCells impl) p q.
Proof.
  intros Hreach Hret Himpl p q.
  pose proof (reachable_well_formed s Hreach) as Hwf.
  destruct (SetCell_cells _ _ _ _ _ _ Hwf Hret Himpl) as (Hold & Hrefs & Hcells).
  split.
  - intros (c' & Hc' & Hq).
    destruct (Hcells p c' Hc')
      as [(c & Hc & _ & Hr & _)|(_ & _ & _ & _ & _ & Hr)].
    + rewrite Hr in Hq. destruct (decide (p = pos)) as [->|Hne].
      * right. split; [reflexivity|]. apply elem_of_list_to_set in Hq. exact Hq.
      * left. split; [exact Hne|]. exists c. split; [|exact Hq].
        eapply materialized_live_inv; eauto.
    + rewrite Hr in Hq. set_solver.
  - assert (Hedge : forall c, live (materialized pos s) p = Some c ->
                      q ∈ (if decide (p = pos)
                           then list_to_set (Impl_GetReferencedCells impl)
                           else r_nodes_ c) ->
                      edge s' p q).
    { intros c Hc Hq. destruct (Hold p c Hc) as [c' Hc'].
      exists c'. split; [exact Hc'|].
      destruct (Hcells p c' Hc') as [(c2 & Hc2 & _ & Hr & _)|(Hnone & _)];
        [|congruence].
      rewrite Hc in Hc2. injection Hc2 as <-. rewrite Hr. exact Hq. }
    intros [[Hne (c & Hc & Hq)]|[-> Hq]].
    + apply (Hedge c); [apply live_materialized; exact Hc|].
      rewrite decide_False by exact Hne. exact Hq.
    + destruct (SetCell_returned _ _ _ _ _ Hret)
        as (_ & _ & c0 & _ & _ & Hc0 & _).
      apply (Hedge c0 Hc0). rewrite decide_True by reflexivity.
      apply elem_of_list_to_set. exact Hq.
Qed.

End SetCellEffects.


(** * The cycle check, and what [SetCell] does with its answer *)

Section CycleDecision.
Context `{Platform}.

(** X5: [WouldIntroduceCircularDependency] leaves the sheet alone, and its
    answer is [true] exactly when one of the valid references of the new
    body is a cell from which [this] is reached along incoming sets ([this]
    itself included). *)
Theorem WouldIntroduce_exact fuel this impl s b s' :
  Cell_WouldIntroduceCircularDependency fuel this impl s = Returns b s' ->
  s' = s /\
  (b = true <->
   exists x, x ∈ Impl_GetReferencedCells impl /\ is_Some (live s x) /\
             rtc (feeds s) x this).
Proof.
  intros Hret.
  pose proof (WouldIntroduce_sound fuel this impl s) as Hsound.
  rewrite Hret in Hsound. simpl in Hsound. destruct Hsound as [-> Hb].
  split; [reflexivity|]. destruct b.
  - split; [intros _; exact Hb|reflexivity].
  - split; [discriminate|]. intros Hcycle. exfalso.
    apply (witnesses_exclusive s this impl Hcycle Hb).
Qed.

(** A chain of incoming sets that ends in [this], cut at its first visit
    of [this]. *)
Lemma feeds_first_visit s this x :
  rtc (feeds s) x this ->
  x = this \/ tc (fun p q => p <> this /\ feeds s p q) x this.
Proof.
  intros Hpath. induction Hpath as [|x y this Hxy _ IH]; [left; reflexivity|].
  destruct (decide (x = this)) as [->|Hne]; [left; reflexivity|right].
  destruct IH as [->|Htc].
  - apply tc_once. auto.
  - eapply tc_l; [|exact Htc]. auto.
Qed.

Lemma feeds_edge s p q :
  no_dangling s -> mirrored s -> feeds s p q -> edge s p q.
Proof.
  intros Hd Hm (cq & Hcq & Hp).
  destruct (Hd q cq p Hcq) as [cp Hcp]; [set_solver|].
  exists cp. split; [exact Hcp|]. apply (Hm p q cp cq Hcp Hcq). exact Hp.
Qed.

Lemma cycle_witness_closes s pos impl :
  well_formed s ->
  cycle_witness (materialized pos s) pos impl ->
  tc (edge_with s pos (Impl_GetReferencedCells impl)) pos pos.
Proof.
  intros Hwf (x & Hx & _ & Hpath).
  pose proof (well_formed_materialized pos s Hwf) as Hwf0.
  destruct (feeds_first_visit _ _ _ Hpath) as [->|Htc].
  { apply tc_once. right. auto. }
  apply (tc_l _ pos x pos); [right; auto|].
  assert (Hold : forall a b,
            a <> pos /\ feeds (materialized pos s) a b ->
            edge_with s pos (Impl_GetReferencedCells impl) a b).
  { intros a b [Hne Hab]. left. split; [exact Hne|].
    apply (feeds_edge _ _ _ (wf_no_dangling _ Hwf0) (wf_mirrored _ Hwf0))
      in Hab as (ca & Hca & Hb).
    exists ca. split; [|exact Hb]. eapply materialized_live_inv; eauto. }
  exact (tc_congruence (fun a => a) _ x pos Hold Htc).
Qed.

(** X6: the cycle check raises no false alarm: when [SetCell(pos, text)]
    throws [CircularDependencyException] on a reachable sheet, the text is a
    formula that parses and whose valid references, as outgoing edges of
    [pos], close a cycle through [pos]. *)
Theorem SetCell_circular_is_a_cycle fuel pos text s s' :
  reachable s ->
  Sheet_SetCell fuel pos text s = Throws CircularDependencyException s' ->
  exists impl,
    Cell_CreateImpl text s = Returns impl s /\
    tc (edge_with s pos (Impl_GetReferencedCells impl)) pos pos.
Proof.
  intros Hreach Hthrow.
  pose proof (reachable_well_formed s Hreach) as Hwf.
  pose proof (Sheet_SetCell_spec True fuel pos text s (fun _ => O) O
                (or_introl I)) as Hspec.
  rewrite Hthrow in Hspec. simpl in Hspec.
  destruct Hspec as [(Habs & _)|(_ & _ & [[Habs _]|(_ & impl & Himpl & Hcw)])];
    try discriminate.
  exists impl. split; [eapply CreateImpl_anywhere; exact Himpl|].
  apply cycle_witness_closes; assumption.
Qed.

(** X7: on a reachable sheet, where neither [pos] nor a reference of the
    text is an entry whose cell [ClearCell] has destroyed, [SetCell(pos,
    text)] comes to an end, given fuel, and how it ends is decided by the
    position, the text and the graph: [InvalidPositionException] for an
    invalid position; otherwise [FormulaException] when the text is a
    formula that does not parse; otherwise [CircularDependencyException]
    when the references of the new body would close a cycle; and it returns
    in every other case. *)
Theorem SetCell_outcome pos text s :
  reachable s ->
  cells_ s !! pos <> Some None ->
  (forall impl q, Cell_CreateImpl text s = Returns impl s ->
                  q ∈ Impl_GetReferencedCells impl ->
                  cells_ s !! q <> Some None) ->
  exists fuel0, forall fuel, (fuel0 <= fuel)%nat ->
    (IsValid pos = false ->
     Sheet_SetCell fuel pos text s = Throws InvalidPositionException s) /\
    (IsValid pos = true ->
     Cell_CreateImpl text s = Throws FormulaException s ->
     Sheet_SetCell fuel pos text s
     = Throws FormulaException (materialized pos s)) /\
    (IsValid pos = true ->
     forall impl, Cell_CreateImpl text s = Returns impl s ->
       ((exists p, tc (edge_with s pos (Impl_GetReferencedCells impl)) p p) ->
        Sheet_SetCell fuel pos text s
        = Throws CircularDependencyException (materialized pos s)) /\
       (~ (exists p, tc (edge_with s pos (Impl_GetReferencedCells impl)) p p) ->
        exists s', Sheet_SetCell fuel pos text s = Returns tt s')).
Proof.
  intros Hreach Hpos Hnull.
  pose proof (reachable_well_formed s Hreach) as Hwf.
  destruct (Sheet_SetCell_total pos text s Hwf Hpos
              (fun impl Himpl q Hq => Hnull impl q Himpl Hq)) as [fuel0 Htotal].
  exists fuel0. intros fuel Hfuel. specialize (Htotal fuel Hfuel).
  destruct (Sheet_SetCell fuel pos text s) as [[] s'|e s'| |] eqn:Hrun;
    simpl in Htotal; try contradiction.
  - (* returned *)
    destruct Htotal as (Hv & _ & impl' & c0 & s1 & Hi & _ & Hw & _).
    apply (CreateImpl_anywhere _ _ s) in Hi.
    split; [congruence|]. split; [congruence|].
    intros _ impl Himpl. assert (impl' = impl) as -> by congruence.
    split; [|eauto].
    intros Hcycle. exfalso.
    eapply witnesses_exclusive; [|exact Hw].
    apply closing_cycle_witness; assumption.
  - (* threw *)
    destruct Htotal as [(-> & Hf & ->)|(Hv & -> & Hwhy)].
    { split; [reflexivity|]. split; congruence. }
    split; [congruence|].
    destruct Hwhy as [[-> Hparse]|(-> & impl' & Hi & Hcw)].
    + apply (f_equal (fun o => match o with
                               | Throws e _ => Some e
                               | _ => None
                               end)) in Hparse. simpl in Hparse.
      split; [reflexivity|]. intros _ impl Himpl.
      apply (CreateImpl_anywhere _ _ (materialized pos s)) in Himpl.
      rewrite Himpl in Hparse. discriminate.
    + apply (CreateImpl_anywhere _ _ s) in Hi.
      split; [intros _ Hparse; congruence|].
      intros _ impl Himpl. assert (impl' = impl) as -> by congruence.
      split; [reflexivity|].
      intros Hno. exfalso. apply Hno. exists pos.
      apply cycle_witness_closes; assumption.
Qed.

End CycleDecision.


(** * What a call of [ClearCell] that returned has done *)

Section ClearCellEffects.
Context `{Platform}.

(** The two steps of [ClearCell] on a cell: [Clear()], then [reset()] when
    nothing refers to the cell. *)
Lemma ClearCell_steps fuel pos s s' c0 :
  live s pos = Some c0 ->
  Sheet_ClearCell fuel pos s = Returns tt s' ->
  IsValid pos = true /\
  exists s2 c2,
    Set_returned s pos "" s2 /\ live s2 pos = Some c2 /\
    s' = (if bool_decide (l_nodes_ c2 = ∅)
          then mkSheet (<[pos := None]> (cells_ s2)) (evaluate_calls s2)
          else s2).
Proof.
  intros Hc0 Hret. unfold Sheet_ClearCell, Sheet_ValidatePosition in Hret.
  destruct (IsValid pos) eqn:Hv; [|discriminate]. split; [reflexivity|].
  unfold bind at 1, ret at 1 in Hret. unfold bind at 1, get at 1 in Hret.
  pose proof Hc0 as Hpos. apply live_Some in Hpos. rewrite Hpos in Hret.
  pose proof (Cell_Set_spec True (Sheet_SetCell fuel) fuel pos "" s c0
                (fun _ => O) O Hc0
                (fun q Hq => SetCell_makes_cell True fuel q Hq (or_introl I))
                (or_introl I)) as Hspec.
  unfold bind at 1 in Hret. unfold Cell_Clear in Hret.
  destruct (Cell_Set (Sheet_SetCell fuel) fuel pos "" s) as [[] s2|e s2| |];
    try discriminate.
  simpl in Hspec. exists s2.
  unfold bind at 1, deref in Hret.
  destruct (live s2 pos) as [c2|] eqn:Hc2; [|discriminate].
  exists c2. split; [exact Hspec|]. split; [reflexivity|].
  unfold Cell_IsReferenced in Hret.
  destruct (bool_decide (l_nodes_ c2 = ∅)); simpl in Hret;
    injection Hret as <-; reflexivity.
Qed.

Lemma live_reset_ne pos s p :
  p <> pos ->
  live (mkSheet (<[pos := None]> (cells_ s)) (evaluate_calls s)) p = live s p.
Proof.
  intros Hne. unfold live. simpl. rewrite lookup_insert_ne by congruence.
  reflexivity.
Qed.

(** X8: what [ClearCell(pos)] that returned on a reachable sheet has done.
    Where there was no cell, nothing.  Where there was one: [GetCell(pos)]
    is null afterwards when no cell referred to it, and otherwise the cell
    stays, empty, with its incoming set and without outgoing edges; every
    other cell is still there with its text and its outgoing set, and [pos]
    is gone from its incoming set; no cell was made. *)
Theorem ClearCell_effect fuel pos s s' :
  reachable s ->
  Sheet_ClearCell fuel pos s = Returns tt s' ->
  IsValid pos = true /\
  (live s pos = None -> s' = s) /\
  (forall c0, live s pos = Some c0 ->
     (l_nodes_ c0 = ∅ -> Sheet_GetCell pos s' = Returns None s') /\
     (l_nodes_ c0 <> ∅ ->
      exists c', live s' pos = Some c' /\ Cell_GetText c' = "" /\
                 l_nodes_ c' = l_nodes_ c0 /\ r_nodes_ c' = ∅) /\
     (forall p c, p <> pos -> live s p = Some c ->
        exists c', live s' p = Some c' /\
                   Cell_GetText c' = Cell_GetText c /\
                   r_nodes_ c' = r_nodes_ c /\
                   l_nodes_ c' = l_nodes_ c ∖ {[ pos ]}) /\
     (forall p, p <> pos -> live s p = None -> live s' p = None)).
Proof.
  intros Hreach Hret. pose proof (reachable_well_formed s Hreach) as Hwf.
  assert (Hv : IsValid pos = true).
  { unfold Sheet_ClearCell, Sheet_ValidatePosition in Hret.
    destruct (IsValid pos); [reflexivity|discriminate]. }
  split; [exact Hv|]. split.
  { intros Hnone. unfold Sheet_ClearCell, Sheet_ValidatePosition in Hret.
    rewrite Hv in Hret.
    unfold bind at 1, ret at 1 in Hret. unfold bind at 1, get at 1 in Hret.
    unfold live in Hnone.
    destruct (cells_ s !! pos) as [[c|]|]; [discriminate|..];
      injection Hret as <-; reflexivity. }
  intros c0 Hc0.
  destruct (ClearCell_steps _ _ _ _ _ Hc0 Hret) as (_ & s2 & c2 & Hset & Hc2 & ->).
  destruct (Set_returned_cells s pos "" s2 EmptyImpl Hwf Hset
              (CreateImpl_empty s)) as (Hold & _ & Hcells).
  assert (Hself : pos ∉ l_nodes_ c0).
  { intros Hin.
    destruct (wf_ranked s Hwf) as (rank & bound & Hr).
    pose proof (proj1 (wf_mirrored s Hwf pos pos c0 c0 Hc0 Hc0)) as Hm.
    assert (Hout : pos ∈ r_nodes_ c0)
      by (apply (wf_mirrored s Hwf pos pos c0 c0 Hc0 Hc0); exact Hin).
    pose proof (proj2 (Hr pos c0 Hc0) pos Hout). lia. }
  assert (Hpos2 : impl_ c2 = EmptyImpl /\ l_nodes_ c2 = l_nodes_ c0 /\
                  r_nodes_ c2 = ∅).
  { destruct (Hcells pos c2 Hc2)
      as [(c & Hc & Hi & Hr & Hl)|(_ & Hne & _)]; [|congruence].
    rewrite Hc0 in Hc. injection Hc as <-.
    rewrite decide_True in Hi by reflexivity.
    rewrite decide_True in Hr by reflexivity.
    split; [destruct (impl_ c2); simpl in Hi; congruence|].
    split; [|exact Hr].
    apply set_eq. intros y. rewrite Hl. simpl. split.
    - intros [[_ Hy]|[_ Hy]]; [exact Hy|inversion Hy].
    - intros Hy. left. split; [|exact Hy]. intros ->. contradiction. }
  destruct Hpos2 as (Hi2 & Hl2 & Hr2).
  assert (Hothers : forall p c, p <> pos -> live s p = Some c ->
            exists c', live s2 p = Some c' /\
                       Cell_GetText c' = Cell_GetText c /\
                       r_nodes_ c' = r_nodes_ c /\
                       l_nodes_ c' = l_nodes_ c ∖ {[ pos ]}).
  { intros p c Hne Hc. destruct (Hold p c Hc) as [c' Hc'].
    exists c'. split; [exact Hc'|].
    destruct (Hcells p c' Hc')
      as [(c1 & Hc1 & Hi & Hr & Hl)|(Hnone & _)]; [|congruence].
    rewrite Hc in Hc1. injection Hc1 as <-.
    rewrite decide_False in Hi by exact Hne.
    rewrite decide_False in Hr by exact Hne.
    split; [apply GetText_forget; exact Hi|]. split; [exact Hr|].
    apply set_eq. intros y. rewrite Hl. simpl.
    rewrite elem_of_difference, elem_of_singleton. split.
    - intros [[? ?]|[_ Hy]]; [auto|inversion Hy].
    - intros [? ?]. left. auto. }
  assert (Hnone2 : forall p, p <> pos -> live s p = None -> live s2 p = None).
  { intros p Hne Hnone. destruct (live s2 p) as [c'|] eqn:Hc'; [|reflexivity].
    destruct (Hcells p c' Hc') as [(c1 & Hc1 & _)|(_ & _ & Hin & _)];
      [congruence|inversion Hin]. }
  rewrite Hl2.
  destruct (bool_decide (l_nodes_ c0 = ∅)) eqn:Hempty.
  - apply bool_decide_eq_true in Hempty.
    split; [|split; [intros Hne; contradiction|split]].
    + intros _. unfold Sheet_GetCell. rewrite GetCellPtr_valid by exact Hv.
      simpl. rewrite lookup_insert_eq. reflexivity.
    + intros p c Hne Hc. rewrite (live_reset_ne pos s2 p Hne). auto.
    + intros p Hne Hnone. rewrite (live_reset_ne pos s2 p Hne). auto.
  - apply bool_decide_eq_false in Hempty.
    split; [intros Habs; contradiction|]. split; [|split; [exact Hothers|exact Hnone2]].
    intros _. exists c2. split; [exact Hc2|].
    unfold Cell_GetText. rewrite Hi2. auto.
Qed.

End ClearCellEffects.


(** * The printable size *)

Section PrintableSize.
Context `{Platform}.

(** X9: [GetPrintableSize] is the smallest rectangle at the origin that
    holds every cell with a text: its sides are not negative, each such cell
    lies inside it, and unless it is 0 a side is one more than the row, or
    the column, of such a cell.  Entries whose pointer is null and cells
    without text do not count. *)
Theorem GetPrintableSize_bounding_box s :
  (0 <= rows (Sheet_GetPrintableSize s) /\
   0 <= cols (Sheet_GetPrintableSize s)) /\
  (forall p c, live s p = Some c -> Cell_GetText c <> "" ->
     row p < rows (Sheet_GetPrintableSize s) /\
     col p < cols (Sheet_GetPrintableSize s)) /\
  (rows (Sheet_GetPrintableSize s) = 0 \/
   exists p c, live s p = Some c /\ Cell_GetText c <> "" /\
               rows (Sheet_GetPrintableSize s) = row p + 1) /\
  (cols (Sheet_GetPrintableSize s) = 0 \/
   exists p c, live s p = Some c /\ Cell_GetText c <> "" /\
               cols (Sheet_GetPrintableSize s) = col p + 1).
Proof.
  unfold Sheet_GetPrintableSize, live.
  generalize (cells_ s). clear s.
  apply (map_fold_weak_ind
    (fun (r : Size) (m : gmap Position (option Cell)) =>
       (0 <= rows r /\ 0 <= cols r) /\
       (forall p c,
          match m !! p with Some (Some c0) => Some c0 | _ => None end = Some c ->
          Cell_GetText c <> "" -> row p < rows r /\ col p < cols r) /\
       (rows r = 0 \/
        exists p c,
          match m !! p with Some (Some c0) => Some c0 | _ => None end = Some c /\
          Cell_GetText c <> "" /\ rows r = row p + 1) /\
       (cols r = 0 \/
        exists p c,
          match m !! p with Some (Some c0) => Some c0 | _ => None end = Some c /\
          Cell_GetText c <> "" /\ cols r = col p + 1))).
  - simpl. split; [lia|]. split; [|auto].
    intros p c. rewrite lookup_empty. discriminate.
  - intros i x m r Hi ((Hr0 & Hc0) & Hin & Hrows & Hcols).
    assert (Hkeep : forall p c,
              match m !! p with Some (Some c0) => Some c0 | _ => None end
              = Some c ->
              match <[i := x]> m !! p with
              | Some (Some c0) => Some c0
              | _ => None
              end = Some c).
    { intros p c Hp. destruct (decide (p = i)) as [->|Hne].
      - rewrite Hi in Hp. discriminate.
      - rewrite lookup_insert_ne by congruence. exact Hp. }
    assert (Hsame : (0 <= rows r /\ 0 <= cols r) /\
              (forall p c,
                 match <[i := x]> m !! p with
                 | Some (Some c0) => Some c0
                 | _ => None
                 end = Some c ->
                 Cell_GetText c <> "" ->
                 (p = i /\ x = Some c) \/ (row p < rows r /\ col p < cols r)) /\
              (rows r = 0 \/
               exists p c,
                 match <[i := x]> m !! p with
                 | Some (Some c0) => Some c0
                 | _ => None
                 end = Some c /\ Cell_GetText c <> "" /\ rows r = row p + 1) /\
              (cols r = 0 \/
               exists p c,
                 match <[i := x]> m !! p with
                 | Some (Some c0) => Some c0
                 | _ => None
                 end = Some c /\ Cell_GetText c <> "" /\ cols r = col p + 1)).
    { split; [auto|]. split; [|split].
      - intros p c Hp Ht. destruct (decide (p = i)) as [->|Hne].
        + rewrite lookup_insert_eq in Hp. left. split; [reflexivity|].
          destruct x as [c0|]; congruence.
        + rewrite lookup_insert_ne in Hp by congruence. right. eauto.
      - destruct Hrows as [?|(p & c & Hp & Ht & Hrow)]; [auto|right].
        exists p, c. auto.
      - destruct Hcols as [?|(p & c & Hp & Ht & Hcol)]; [auto|right].
        exists p, c. auto. }
    destruct x as [c0|]; [|].
    2:{ destruct Hsame as (Hnn & Hin' & Hrows' & Hcols').
        split; [exact Hnn|]. split; [|auto].
        intros p c Hp Ht. destruct (Hin' p c Hp Ht) as [[_ Habs]|?];
          [discriminate|assumption]. }
    destruct (bool_decide (Cell_GetText c0 = "")) eqn:Htext; simpl.
    { apply bool_decide_eq_true in Htext.
      destruct Hsame as (Hnn & Hin' & Hrows' & Hcols').
      split; [exact Hnn|]. split; [|auto].
      intros p c Hp Ht. destruct (Hin' p c Hp Ht) as [[_ Heq]|?];
        [congruence|assumption]. }
    apply bool_decide_eq_false in Htext.
    destruct Hsame as (_ & Hin' & Hrows' & Hcols').
    assert (Hnew : match <[i := Some c0]> m !! i with
                   | Some (Some c1) => Some c1
                   | _ => None
                   end = Some c0)
      by (rewrite lookup_insert_eq; reflexivity).
    split; [lia|]. split; [|split].
    + intros p c Hp Ht. destruct (Hin' p c Hp Ht) as [[-> _]|[? ?]]; lia.
    + destruct (Z.max_spec (rows r) (row i + 1)) as [[_ ->]|[_ ->]].
      * right. exists i, c0. auto.
      * exact Hrows'.
    + destruct (Z.max_spec (cols r) (col i + 1)) as [[_ ->]|[_ ->]].
      * right. exists i, c0. auto.
      * exact Hcols'.
Qed.

End PrintableSize.


(** * More that holds of every reachable sheet *)

Section ReachableSheets.
Context `{Platform}.

Lemma structure_is_Some s s' p :
  structure s = structure s' ->
  is_Some (cells_ s !! p) -> is_Some (cells_ s' !! p).
Proof.
  intros Hstr Hp. apply (f_equal (fun m => m !! p)) in Hstr.
  rewrite !structure_lookup in Hstr.
  destruct (cells_ s' !! p); [eauto|].
  destruct Hp as [u Hu]. rewrite Hu in Hstr. discriminate.
Qed.

Lemma valid_keys_materialized pos s :
  IsValid pos = true -> valid_keys s -> valid_keys (materialized pos s).
Proof.
  intros Hv Hkeys p. unfold materialized.
  destruct (cells_ s !! pos) as [u|] eqn:Hpos; [apply Hkeys|]. simpl.
  destruct (decide (p = pos)) as [->|Hne]; [auto|].
  rewrite lookup_insert_ne by congruence. apply Hkeys.
Qed.

Lemma valid_keys_Set_returned s0 pos text s' :
  valid_keys s0 -> Set_returned s0 pos text s' -> valid_keys s'.
Proof.
  intros Hkeys (impl & c0 & s1 & _ & _ & _ & _ & Hs1 & Hstr) p Hp.
  apply (structure_is_Some s' s1 p Hstr) in Hp.
  rewrite Hs1 in Hp. unfold install_at in Hp.
  destruct (cells_ s0 !! p) as [u|] eqn:Hold; [apply Hkeys; rewrite Hold; eauto|].
  case_decide as Hin; [|destruct Hp; discriminate].
  apply elem_of_list_to_set in Hin.
  eapply Impl_GetReferencedCells_valid. exact Hin.
Qed.

Lemma valid_keys_reset pos s :
  valid_keys s -> is_Some (cells_ s !! pos) ->
  valid_keys (mkSheet (<[pos := None]> (cells_ s)) (evaluate_calls s)).
Proof.
  intros Hkeys Hpos p. simpl.
  destruct (decide (p = pos)) as [->|Hne]; [intros _; apply Hkeys, Hpos|].
  rewrite lookup_insert_ne by congruence. apply Hkeys.
Qed.

Lemma perform_valid_keys fuel op s s' :
  well_formed s -> valid_keys s ->
  sheet_after (perform fuel op s) = Some s' -> valid_keys s'.
Proof.
  intros Hwf Hkeys Hafter. destruct op as [pos text|pos|pos]; simpl in Hafter.
  - pose proof (Sheet_SetCell_spec True fuel pos text s (fun _ => O) O
                  (or_introl I)) as Hspec.
    destruct (Sheet_SetCell fuel pos text s) as [[] t|e t| |];
      simpl in *; try discriminate; injection Hafter as <-.
    + destruct Hspec as [Hv Hset].
      eapply valid_keys_Set_returned; [|exact Hset].
      apply valid_keys_materialized; assumption.
    + destruct Hspec as [(_ & _ & ->)|(Hv & -> & _)]; [exact Hkeys|].
      apply valid_keys_materialized; assumption.
  - destruct (Sheet_ClearCell fuel pos s) as [[] t|e t| |] eqn:Hrun;
      simpl in *; try discriminate; injection Hafter as <-.
    + destruct (live s pos) as [c0|] eqn:Hc0.
      * destruct (ClearCell_steps _ _ _ _ _ Hc0 Hrun)
          as (_ & s2 & c2 & Hset & Hc2 & ->).
        pose proof (valid_keys_Set_returned _ _ _ _ Hkeys Hset) as Hkeys2.
        destruct (bool_decide (l_nodes_ c2 = ∅)); [|exact Hkeys2].
        apply valid_keys_reset; [exact Hkeys2|].
        apply live_Some in Hc2. rewrite Hc2. eauto.
      * unfold Sheet_ClearCell, Sheet_ValidatePosition in Hrun.
        destruct (IsValid pos); [|discriminate].
        unfold bind at 1, ret at 1 in Hrun. unfold bind at 1, get at 1 in Hrun.
        unfold live in Hc0.
        destruct (cells_ s !! pos) as [[c|]|]; [discriminate|..];
          injection Hrun as <-; exact Hkeys.
    + pose proof (Sheet_ClearCell_spec True fuel pos s (fun _ => O) O Hwf
                    (or_introl I)) as Hspec.
      rewrite Hrun in Hspec. simpl in Hspec. destruct Hspec as (_ & _ & ->).
      exact Hkeys.
  - pose proof (Sheet_GetValue_structure fuel pos s) as Hp.
    unfold bind in Hafter.
    destruct (Sheet_GetValue fuel pos s) as [v t|e t| |]; simpl in *;
      try discriminate; injection Hafter as <-.
    + intros p Hin. apply Hkeys. eapply structure_is_Some; [exact Hp|exact Hin].
    + destruct Hp as [_ ->]. exact Hkeys.
Qed.

Lemma reachable_valid_keys s : reachable s -> valid_keys s.
Proof.
  induction 1 as [|fuel op s s' Hreach IH Hafter].
  - intros p [u Hu]. unfold CreateSheet in Hu. simpl in Hu.
    rewrite lookup_empty in Hu. discriminate.
  - eapply perform_valid_keys; eauto. apply reachable_well_formed. exact Hreach.
Qed.

(** X10: on every reachable sheet each entry of the map sits at a valid
    position, so [GetCell] does not throw for it, and the printable size
    stays within the bounds of positions. *)
Theorem reachable_within_bounds s :
  reachable s ->
  (forall p, is_Some (cells_ s !! p) ->
     IsValid p = true /\ exists cell, Sheet_GetCell p s = Returns cell s) /\
  rows (Sheet_GetPrintableSize s) <= Z.max 0 MAX_ROWS /\
  cols (Sheet_GetPrintableSize s) <= Z.max 0 MAX_COLS.
Proof.
  intros Hreach. pose proof (reachable_valid_keys s Hreach) as Hkeys.
  split.
  { intros p Hp. pose proof (Hkeys p Hp) as Hv. split; [exact Hv|].
    unfold Sheet_GetCell. rewrite (GetCellPtr_valid p s Hv). eauto. }
  destruct (GetPrintableSize_bounding_box s) as (_ & _ & Hrows & Hcols).
  assert (Hin : forall p c, live s p = Some c ->
                  row p < MAX_ROWS /\ col p < MAX_COLS).
  { intros p c Hc. apply live_Some in Hc.
    assert (Hv : IsValid p = true) by (apply Hkeys; rewrite Hc; eauto).
    unfold IsValid in Hv.
    apply andb_prop in Hv as [Hv Hcol]. apply andb_prop in Hv as [Hv _].
    apply andb_prop in Hv as [_ Hrow]. lia. }
  split.
  - destruct Hrows as [->|(p & c & Hc & _ & ->)]; [lia|].
    destruct (Hin p c Hc). lia.
  - destruct Hcols as [->|(p & c & Hc & _ & ->)]; [lia|].
    destruct (Hin p c Hc). lia.
Qed.

(** X11: on every reachable sheet, whatever calls made it and however they
    ended, the graph of outgoing edges is acyclic, the outgoing set of a
    cell is the set of the valid positions its body refers to, and a cell
    that is not a formula has no outgoing edge. *)
Theorem reachable_graph s :
  reachable s ->
  acyclic s /\
  (forall p c, live s p = Some c ->
     r_nodes_ c = list_to_set (Cell_GetReferencedCells c)) /\
  (forall p c q, live s p = Some c -> q ∈ r_nodes_ c ->
     exists f cache, impl_ c = FormulaImpl f cache /\
                     q ∈ GetCells (ast_ f) /\ IsValid q = true).
Proof.
  intros Hreach. pose proof (reachable_well_formed s Hreach) as Hwf.
  split; [apply well_formed_acyclic; exact Hwf|].
  split; [apply (wf_outgoing s Hwf)|].
  intros p c q Hc Hq. rewrite (wf_outgoing s Hwf p c Hc) in Hq.
  apply elem_of_list_to_set in Hq.
  destruct (impl_ c) as [|t|f cache]; simpl in Hq; try (inversion Hq; fail).
  exists f, cache. split; [reflexivity|].
  apply Formula_GetReferencedCells_elem_of in Hq. tauto.
Qed.

End ReachableSheets.

(** * Values do not depend on caches *)

Section Values.
Context `{Platform}.

(** X12: the value [GetValue] returns depends on the bodies and links of the
    sheet only, not on what the caches hold: on a sheet that differs in
    caches only it returns the same value; it changes caches only; and
    asked again it returns the same value. *)
Theorem GetValue_ignores_caches fuel this s v s' :
  Cell_GetValue fuel this s = Returns v s' ->
  structure s' = structure s /\
  (forall t, structure t = structure s ->
     exists t', Cell_GetValue fuel this t = Returns v t' /\
                structure t' = structure s) /\
  exists s'', Cell_GetValue fuel this s' = Returns v s''.
Proof.
  intros Hv. pose proof (GetValue_structure _ _ _ _ _ Hv) as Hs'.
  split; [exact Hs'|]. split.
  - intros t Ht. apply (GetValue_again fuel this s v s' t Hv Ht).
  - destruct (GetValue_again fuel this s v s' s' Hv Hs') as (s'' & Hagain & _).
    eauto.
Qed.

End Values.


(** * The references of a formula *)

Section References.
Context `{Platform}.

Lemma std_unique_cons x y t :
  std_unique (x :: y :: t)
  = if decide (x = y) then std_unique (y :: t) else x :: std_unique (y :: t).
Proof. reflexivity. Qed.

Lemma std_unique_head x t : head (std_unique (x :: t)) = Some x.
Proof.
  revert x. induction t as [|y t IH]; intros x; [reflexivity|].
  rewrite std_unique_cons. case_decide as Hxy; [|reflexivity].
  subst y. apply IH.
Qed.

Lemma std_unique_sublist l : sublist (std_unique l) l.
Proof.
  induction l as [|x t IH]; [constructor|].
  destruct t as [|y t]; [repeat constructor|].
  rewrite std_unique_cons. case_decide.
  - apply sublist_cons. exact IH.
  - apply sublist_skip. exact IH.
Qed.

Lemma std_unique_neighbours l i p q :
  std_unique l !! i = Some p -> std_unique l !! S i = Some q -> p <> q.
Proof.
  revert i. induction l as [|x t IH]; intros i; [discriminate|].
  destruct t as [|y t]; [discriminate|].
  rewrite std_unique_cons. case_decide as Hxy; [apply IH|].
  destruct i as [|i]; [|apply IH].
  intros Hp Hq.
  change (std_unique (y :: t) !! 0%nat = Some q) in Hq.
  rewrite <- head_lookup, std_unique_head in Hq.
  change (Some x = Some p) in Hp. congruence.
Qed.

Lemma std_unique_NoDup l : NoDup (std_unique l) <-> runs_together l.
Proof.
  induction l as [|x t IH]; [simpl; split; [auto|constructor]|].
  destruct t as [|y t].
  { simpl. split; [|intros _; apply NoDup_singleton].
    intros _. split; [intros Hin; inversion Hin|exact I]. }
  rewrite std_unique_cons.
  change (runs_together (x :: y :: t))
    with ((x ∈ y :: t -> head (y :: t) = Some x) /\ runs_together (y :: t)).
  case_decide as Hxy.
  - subst y. rewrite IH. simpl. tauto.
  - rewrite NoDup_cons, IH, std_unique_elem_of. simpl. split.
    + intros [Hnotin Hruns]. split; [|exact Hruns]. intros Hin. contradiction.
    + intros [Hhead Hruns]. split; [|exact Hruns].
      intros Hin. specialize (Hhead Hin). congruence.
Qed.

(** X13: [Formula::GetReferencedCells] returns exactly the valid positions
    of the tree, in the order of the tree (it is a sublist of
    [GetCells()]), and no two neighbours in it are equal. *)
Theorem GetReferencedCells_spec f :
  (forall p, p ∈ Formula_GetReferencedCells f <->
             IsValid p = true /\ p ∈ GetCells (ast_ f)) /\
  sublist (Formula_GetReferencedCells f) (GetCells (ast_ f)) /\
  (forall i p q,
     Formula_GetReferencedCells f !! i = Some p ->
     Formula_GetReferencedCells f !! S i = Some q -> p <> q).
Proof.
  split; [apply Formula_GetReferencedCells_elem_of|]. split.
  - unfold Formula_GetReferencedCells.
    etrans; [apply std_unique_sublist|apply sublist_filter].
  - intros i p q. apply std_unique_neighbours.
Qed.

(** X14: [Formula::GetReferencedCells] is free of duplicates exactly when,
    among the valid positions of the tree in the order [GetCells()] gives
    them, equal positions are neighbours. *)
Theorem GetReferencedCells_NoDup f :
  NoDup (Formula_GetReferencedCells f) <->
  runs_together (filter (fun cell => IsValid cell) (GetCells (ast_ f))).
Proof. apply std_unique_NoDup. Qed.

End References.


(** * The further properties on concrete sheets *)

Section CommonBoundsMore.
Local Existing Instance Reference.common.

Lemma SetCell_then_GetText_witness :
  Sheet_GetCell A1 sheet_A1_reads_B1 = Returns (Some A1) sheet_A1_reads_B1 /\
  exists c, live sheet_A1_reads_B1 A1 = Some c /\
            exists ast, ParseFormulaAST "B1" = Some ast /\
                        Cell_GetText c = String FORMULA_SIGN (PrintFormula ast).
Proof.
  exact (SetCell_then_GetText 4 A1 "=B1" CreateSheet sheet_A1_reads_B1
           A1_reads_B1).
Defined.

Lemma escaped_text :
  Sheet_SetCell 4 A1 "'=1" CreateSheet
  = Returns tt (sheet_with_text A1 "'=1").
Proof. vm_compute. reflexivity. Qed.

Lemma SetCell_then_GetValue_text_witness :
  Cell_GetValue 1 A1 (sheet_with_text A1 "'=1")
  = Returns (CellInterface.Text "=1") (sheet_with_text A1 "'=1").
Proof.
  exact (SetCell_then_GetValue_text 4 A1 "'=1" CreateSheet
           (sheet_with_text A1 "'=1") 0 escaped_text eq_refl).
Defined.

Lemma CreateImpl_reads_B1 :
  Cell_CreateImpl "=B1" CreateSheet
  = Returns (FormulaImpl (mkFormula (CellExpr B1)) None) CreateSheet.
Proof. vm_compute. reflexivity. Qed.

Lemma B1_is_referenced :
  B1 ∈ Impl_GetReferencedCells (FormulaImpl (mkFormula (CellExpr B1)) None).
Proof.
  replace (Impl_GetReferencedCells _) with [B1] by (vm_compute; reflexivity).
  apply list_elem_of_here.
Qed.

Lemma SetCell_frame_witness :
  Sheet_GetCell B1 sheet_A1_reads_B1 = Returns (Some B1) sheet_A1_reads_B1.
Proof.
  exact (proj2 (proj2 (SetCell_frame 4 A1 "=B1" CreateSheet sheet_A1_reads_B1
                         (FormulaImpl (mkFormula (CellExpr B1)) None)
                         reachable_CreateSheet A1_reads_B1 CreateImpl_reads_B1))
           B1 B1_is_referenced).
Defined.

Lemma SetCell_edges_witness :
  edge sheet_A1_reads_B1 A1 B1.
Proof.
  apply (SetCell_edges 4 A1 "=B1" CreateSheet sheet_A1_reads_B1
           (FormulaImpl (mkFormula (CellExpr B1)) None)
           reachable_CreateSheet A1_reads_B1 CreateImpl_reads_B1 A1 B1).
  right. split; [reflexivity|apply B1_is_referenced].
Defined.

Lemma check_finds_A1 :
  Cell_WouldIntroduceCircularDependency 4 B1
    (FormulaImpl (mkFormula (CellExpr A1)) None) sheet_A1_reads_B1
  = Returns true sheet_A1_reads_B1.
Proof. vm_compute. reflexivity. Qed.

Lemma WouldIntroduce_exact_witness :
  exists x,
    x ∈ Impl_GetReferencedCells (FormulaImpl (mkFormula (CellExpr A1)) None) /\
    is_Some (live sheet_A1_reads_B1 x) /\
    rtc (feeds sheet_A1_reads_B1) x B1.
Proof.
  apply (WouldIntroduce_exact 4 B1 (FormulaImpl (mkFormula (CellExpr A1)) None)
           sheet_A1_reads_B1 true sheet_A1_reads_B1 check_finds_A1).
  reflexivity.
Defined.

Lemma B1_reads_A1_throws :
  Sheet_SetCell 4 B1 "=A1" sheet_A1_reads_B1
  = Throws CircularDependencyException sheet_A1_reads_B1.
Proof. vm_compute. reflexivity. Qed.

Lemma SetCell_circular_is_a_cycle_witness :
  exists impl,
    Cell_CreateImpl "=A1" sheet_A1_reads_B1 = Returns impl sheet_A1_reads_B1 /\
    tc (edge_with sheet_A1_reads_B1 B1 (Impl_GetReferencedCells impl)) B1 B1.
Proof.
  exact (SetCell_circular_is_a_cycle 4 B1 "=A1" sheet_A1_reads_B1
           sheet_A1_reads_B1 reachable_A1_reads_B1 B1_reads_A1_throws).
Defined.

Lemma SetCell_outcome_witness :
  exists fuel0, forall fuel, (fuel0 <= fuel)%nat ->
    exists s', Sheet_SetCell fuel A2 "=A1" sheet_A1_reads_B1 = Returns tt s'.
Proof.
  destruct (SetCell_outcome A2 "=A1" sheet_A1_reads_B1 reachable_A1_reads_B1)
    as [fuel0 Hout].
  - apply (built_by_SetCell_no_null _ built_A1_reads_B1).
  - intros impl q _ _. apply (built_by_SetCell_no_null _ built_A1_reads_B1).
  - exists fuel0. intros fuel Hfuel.
    destruct (Hout fuel Hfuel) as (_ & _ & Hformula).
    apply (Hformula eq_refl (FormulaImpl (mkFormula (CellExpr A1)) None));
      [vm_compute; reflexivity|].
    intros [p Hcycle].
    assert (Hsteps : forall a b,
              edge_with sheet_A1_reads_B1 A2
                (Impl_GetReferencedCells
                   (FormulaImpl (mkFormula (CellExpr A1)) None)) a b ->
              (a = A1 /\ b = B1) \/ (a = A2 /\ b = A1)).
    { intros a b [[Hne (c & Hc & Hb)]|[-> Hb]].
      - left. unfold live in Hc. simpl in Hc.
        destruct (decide (a = A1)) as [->|Ha1].
        + split; [reflexivity|]. rewrite lookup_insert_eq in Hc.
          injection Hc as <-. simpl in Hb. apply elem_of_singleton in Hb.
          exact Hb.
        + rewrite lookup_insert_ne in Hc by congruence.
          destruct (decide (a = B1)) as [->|Hb1].
          * rewrite lookup_insert_eq in Hc. injection Hc as <-.
            simpl in Hb. apply elem_of_empty in Hb. contradiction.
          * rewrite lookup_insert_ne in Hc by congruence.
            rewrite lookup_empty in Hc. discriminate.
      - right. split; [reflexivity|].
        replace (Impl_GetReferencedCells _) with [A1] in Hb
          by (vm_compute; reflexivity).
        apply list_elem_of_singleton in Hb. exact Hb. }
    assert (Hends : forall a b,
              tc (edge_with sheet_A1_reads_B1 A2
                    (Impl_GetReferencedCells
                       (FormulaImpl (mkFormula (CellExpr A1)) None))) a b ->
              b = B1 \/ b = A1).
    { intros a b Htc. induction Htc as [a b Hab|a b c _ _ IH]; [|exact IH].
      destruct (Hsteps a b Hab) as [[_ ->]|[_ ->]]; auto. }
    assert (Hstarts : forall a b,
              tc (edge_with sheet_A1_reads_B1 A2
                    (Impl_GetReferencedCells
                       (FormulaImpl (mkFormula (CellExpr A1)) None))) a b ->
              (a = A1 /\ b = B1) \/ a = A2).
    { intros a b Htc. induction Htc as [a b Hab|a b c Hab Hbc IH].
      - destruct (Hsteps a b Hab) as [[-> ->]|[-> _]]; auto.
      - destruct (Hsteps a b Hab) as [[-> ->]|[-> _]]; [|auto].
        destruct IH as [[Habs _]|Habs]; discriminate. }
    destruct (Hstarts p p Hcycle) as [[-> Habs]| ->]; [discriminate|].
    destruct (Hends A2 A2 Hcycle); discriminate.
Defined.

Lemma A1_cleared_B1_kept :
  Sheet_ClearCell 4 A1 sheet_A1_reads_B1 = Returns tt sheet_A1_cleared_B1_kept.
Proof. vm_compute. reflexivity. Qed.

Lemma ClearCell_effect_witness :
  Sheet_GetCell A1 sheet_A1_cleared_B1_kept
  = Returns None sheet_A1_cleared_B1_kept.
Proof.
  apply (proj1 (proj2 (proj2 (ClearCell_effect 4 A1 sheet_A1_reads_B1
                                sheet_A1_cleared_B1_kept
                                reachable_A1_reads_B1 A1_cleared_B1_kept))
                  (mkCell (FormulaImpl (mkFormula (CellExpr B1)) None)
                          ∅ {[ B1 ]})
                  eq_refl)).
  reflexivity.
Defined.

Lemma reachable_within_bounds_witness :
  rows (Sheet_GetPrintableSize sheet_A1_reads_B1) <= Z.max 0 MAX_ROWS /\
  cols (Sheet_GetPrintableSize sheet_A1_reads_B1) <= Z.max 0 MAX_COLS.
Proof.
  exact (proj2 (reachable_within_bounds sheet_A1_reads_B1
                  reachable_A1_reads_B1)).
Defined.

Lemma reachable_graph_witness : acyclic sheet_A1_reads_B1.
Proof.
  exact (proj1 (reachable_graph sheet_A1_reads_B1 reachable_A1_reads_B1)).
Defined.

Lemma first_value_of_sum :
  Cell_GetValue 4 A1 (sheet_A1_sum None 0)
  = Returns (CellInterface.Number 3)
      (sheet_A1_sum (Some (FormulaInterface.Number 3)) 2).
Proof. vm_compute. reflexivity. Qed.

Lemma GetValue_ignores_caches_witness :
  exists s'',
    Cell_GetValue 4 A1 (sheet_A1_sum (Some (FormulaInterface.Number 3)) 2)
    = Returns (CellInterface.Number 3) s''.
Proof.
  exact (proj2 (proj2 (GetValue_ignores_caches 4 A1 (sheet_A1_sum None 0)
                         (CellInterface.Number 3)
                         (sheet_A1_sum (Some (FormulaInterface.Number 3)) 2)
                         first_value_of_sum))).
Defined.

End CommonBoundsMore.


(** * Which caches an edit empties *)

Section Caches.
Context `{Platform}.

Lemma caches_emptied_refl U s : caches_emptied U s s.
Proof. intros p. left. reflexivity. Qed.

Lemma caches_emptied_live U s s' p c' :
  caches_emptied U s s' -> live s' p = Some c' ->
  exists c, live s p = Some c /\
            (c' = c \/ (U p /\ c' = set_impl (Impl_InvalidateCache (impl_ c)) c)).
Proof.
  intros Hem Hc'. apply live_Some in Hc'.
  destruct (Hem p) as [Heq|(HU & c & Hc & Heq)].
  - exists c'. split; [apply live_Some; congruence|auto].
  - exists c. split; [apply live_Some; exact Hc|]. right.
    split; [exact HU|congruence].
Qed.

Lemma caches_emptied_live_back U s s' p c :
  caches_emptied U s s' -> live s p = Some c ->
  exists c', live s' p = Some c' /\
             (c' = c \/ (U p /\ c' = set_impl (Impl_InvalidateCache (impl_ c)) c)).
Proof.
  intros Hem Hc. apply live_Some in Hc.
  destruct (Hem p) as [Heq|(HU & c0 & Hc0 & Heq)].
  - exists c. split; [apply live_Some; congruence|auto].
  - rewrite Hc in Hc0. injection Hc0 as <-.
    eexists. split; [apply live_Some; exact Heq|]. auto.
Qed.

Lemma no_cache_invalidated c :
  no_cache (set_impl (Impl_InvalidateCache (impl_ c)) c).
Proof.
  intros f cache. simpl. destruct (impl_ c); simpl; congruence.
Qed.

Lemma no_cache_at_emptied U s s' q :
  caches_emptied U s s' -> no_cache_at s q -> no_cache_at s' q.
Proof.
  intros Hem Hno c' Hc'.
  destruct (caches_emptied_live _ _ _ _ _ Hem Hc') as (c & Hc & [->|[_ ->]]).
  - apply (Hno c Hc).
  - apply no_cache_invalidated.
Qed.

Lemma feeds_emptied U s s' a b :
  caches_emptied U s s' -> (feeds s a b <-> feeds s' a b).
Proof.
  intros Hem. split.
  - intros (c & Hc & Ha).
    destruct (caches_emptied_live_back _ _ _ _ _ Hem Hc) as (c' & Hc' & [->|[_ ->]]);
      eexists; (split; [exact Hc'|exact Ha]).
  - intros (c' & Hc' & Ha).
    destruct (caches_emptied_live _ _ _ _ _ Hem Hc') as (c & Hc & [->|[_ ->]]);
      eexists; (split; [exact Hc|exact Ha]).
Qed.

Lemma invalidate_idemp c :
  set_impl (Impl_InvalidateCache
              (impl_ (set_impl (Impl_InvalidateCache (impl_ c)) c)))
           (set_impl (Impl_InvalidateCache (impl_ c)) c)
  = set_impl (Impl_InvalidateCache (impl_ c)) c.
Proof. destruct c as [[|t|f cache] l r]; reflexivity. Qed.

Lemma caches_emptied_trans (U V : Position -> Prop) s t t' :
  (forall p, V p -> U p) ->
  caches_emptied U s t -> caches_emptied V t t' -> caches_emptied U s t'.
Proof.
  intros HVU Hst Htt' p.
  destruct (Htt' p) as [Heq|(HV & ct & Hct & Heq)].
  - destruct (Hst p) as [Heq'|(HU & c & Hc & Heq')].
    + left. congruence.
    + right. split; [exact HU|]. exists c. split; [exact Hc|congruence].
  - destruct (Hst p) as [Heq'|(HU & c & Hc & Heq')].
    + right. split; [auto|]. exists ct. split; [congruence|exact Heq].
    + right. split; [exact HU|]. exists c. split; [exact Hc|].
      rewrite Hct in Heq'. injection Heq' as ->.
      rewrite Heq. rewrite invalidate_idemp. reflexivity.
Qed.

(** [InvalidateCacheRecursive] empties caches and does nothing else; it
    empties them only of cells from which [this] is reached along incoming
    sets; afterwards the cache of [this] is empty, and with [force] so are
    the caches of the cells in its incoming set. *)
Lemma InvalidateCacheRecursive_caches fuel :
  forall force this s,
    ensures (Cell_InvalidateCacheRecursive fuel force this s)
      (fun _ s' =>
         caches_emptied (fun p => rtc (feeds s) p this) s s' /\
         no_cache_at s' this /\
         (force = true ->
          forall c q, live s this = Some c -> q ∈ l_nodes_ c ->
                      no_cache_at s' q))
      never True.
Proof.
  induction fuel as [|fuel IH]; intros force this s; simpl; [exact I|].
  apply ensures_bind_intro. apply ensures_deref; [|auto].
  intros c Hc.
  destruct (Impl_IsCacheValid (impl_ c) || force) eqn:Hbranch.
  2:{ simpl. apply orb_false_elim in Hbranch as [Hvalid ->].
      split; [apply caches_emptied_refl|]. split; [|discriminate].
      intros c' Hc' f cache Himpl. rewrite Hc in Hc'. injection Hc' as <-.
      rewrite Himpl in Hvalid. simpl in Hvalid.
      destruct cache; [discriminate|reflexivity]. }
  apply ensures_bind_intro. rewrite (update_live _ _ _ _ Hc). simpl.
  set (s1 := mkSheet _ _).
  assert (Hs1 : caches_emptied (fun p => rtc (feeds s) p this) s s1).
  { intros p. subst s1. simpl. destruct (decide (p = this)) as [->|Hne].
    - right. split; [apply rtc_refl|]. exists c.
      split; [apply live_Some; exact Hc|]. apply lookup_insert_eq.
    - left. apply lookup_insert_ne. congruence. }
  assert (Hthis1 : no_cache_at s1 this).
  { intros c1 Hc1. apply live_Some in Hc1. subst s1. simpl in Hc1.
    rewrite lookup_insert_eq in Hc1. injection Hc1 as <-.
    apply no_cache_invalidated. }
  eapply ensures_mono;
    [apply (ensures_for_each
              (fun done t =>
                 caches_emptied (fun p => rtc (feeds s) p this) s t /\
                 no_cache_at t this /\
                 forall q, q ∈ done -> no_cache_at t q)
              never True _ (elements (l_nodes_ c)) [] s1)
    | |auto|auto].
  - split; [exact Hs1|]. split; [exact Hthis1|]. intros q Hq. inversion Hq.
  - intros done x t Hx (Hst & Hthis & Hdone).
    eapply ensures_mono; [apply (IH _ x t)| |auto|auto].
    simpl. intros _ t' (Htt' & Hx' & _).
    assert (Hst' : caches_emptied (fun p => rtc (feeds s) p this) s t').
    { eapply caches_emptied_trans; [|exact Hst|exact Htt'].
      intros p Hp. simpl in Hp.
      eapply rtc_r.
      - eapply rtc_subrel; [|exact Hp].
        intros a b Hab. apply (feeds_emptied _ _ _ a b Hst). exact Hab.
      - exists c. split; [exact Hc|]. apply elem_of_elements. exact Hx. }
    split; [exact Hst'|]. split.
    + apply (no_cache_at_emptied _ t t' this Htt' Hthis).
    + intros q Hq. apply elem_of_app in Hq as [Hq|Hq].
      * apply (no_cache_at_emptied _ t t' q Htt' (Hdone q Hq)).
      * apply list_elem_of_singleton in Hq. subst q. exact Hx'.
  - simpl. intros _ s' (Hss' & Hthis & Hdone).
    split; [exact Hss'|]. split; [exact Hthis|].
    intros _ c' q Hc' Hq. rewrite Hc in Hc'. injection Hc' as <-.
    apply Hdone. apply elem_of_elements. exact Hq.
Qed.

(** [Cell::Set], with the caches in view. *)
Lemma Cell_Set_caches cb fuel this text s c0 :
  live s this = Some c0 ->
  (forall pos, IsValid pos = true -> makes_cell cb True pos) ->
  ensures (Cell_Set cb fuel this text s)
    (fun _ s' =>
       exists impl s1,
         Cell_CreateImpl text s = Returns impl s /\
         installed s this impl c0 s1 /\
         caches_emptied (fun p => rtc (feeds s1) p this) s1 s' /\
         no_cache_at s' this /\
         forall c1 q, live s1 this = Some c1 -> q ∈ l_nodes_ c1 ->
                      no_cache_at s' q)
    (fun _ _ => True) True.
Proof.
  intros Hc0 Hcb. rewrite Cell_Set_unfold.
  apply ensures_bind_intro.
  destruct (CreateImpl_cases text s) as [(impl & Himpl & _)|Hthrow].
  2:{ rewrite Hthrow. exact I. }
  rewrite Himpl. simpl.
  apply ensures_bind_intro.
  eapply ensures_mono;
    [apply (WouldIntroduce_sound fuel this impl s)| |intros e s' []|auto].
  simpl. intros b s' [-> _]. destruct b; [exact I|].
  apply ensures_bind_intro.
  eapply ensures_mono;
    [eapply (relink_spec cb True this impl s c0 Hc0)| |intros e s' []|auto].
  - intros pos Hpos. apply Hcb. eapply Impl_GetReferencedCells_valid; eauto.
  - left. exact I.
  - simpl. intros [] s1 [_ Hs1].
    eapply ensures_mono;
      [apply InvalidateCacheRecursive_caches| |intros e s' []|auto].
    simpl. intros _ s' (Hem & Hthis & Hdeps).
    exists impl, s1. split; [reflexivity|]. split; [exact Hs1|].
    split; [exact Hem|]. split; [exact Hthis|].
    intros c1 q. apply Hdeps. reflexivity.
Qed.

Lemma SetCell_caches fuel pos text s s' :
  Sheet_SetCell fuel pos text s = Returns tt s' ->
  exists impl c0 s1,
    live (materialized pos s) pos = Some c0 /\
    installed (materialized pos s) pos impl c0 s1 /\
    caches_emptied (fun p => rtc (feeds s1) p pos) s1 s' /\
    no_cache_at s' pos /\
    forall c1 q, live s1 pos = Some c1 -> q ∈ l_nodes_ c1 -> no_cache_at s' q.
Proof.
  intros Hret. destruct fuel as [|n]; [discriminate|].
  rewrite Sheet_SetCell_unfold in Hret.
  destruct (IsValid pos); [|discriminate].
  destruct (live (materialized pos s) pos) as [c0|] eqn:Hc0; [|discriminate].
  pose proof (Cell_Set_caches (Sheet_SetCell n) n pos text (materialized pos s)
                c0 Hc0
                (fun q Hq => SetCell_makes_cell True n q Hq (or_introl I)))
    as Hspec.
  rewrite Hret in Hspec. simpl in Hspec.
  destruct Hspec as (impl & s1 & _ & Hs1 & Hrest).
  exists impl, c0, s1. auto.
Qed.

Lemma installed_other s0 pos impl c0 s1 q c :
  installed s0 pos impl c0 s1 -> q <> pos -> live s0 q = Some c ->
  exists c1, live s1 q = Some c1 /\ impl_ c1 = impl_ c.
Proof.
  intros Hs1 Hne Hc. apply live_Some in Hc.
  pose proof (Hs1 q) as Hq. unfold install_at in Hq. rewrite Hc in Hq.
  rewrite decide_False in Hq by exact Hne.
  eexists. split; [apply live_Some; exact Hq|]. reflexivity.
Qed.

(** X15: after a [SetCell(pos, text)] that returned on a reachable sheet,
    the cache of the cell of [pos] is empty, and so is the cache of every
    cell whose formula refers to [pos]. *)
Theorem SetCell_empties_caches fuel pos text s s' :
  reachable s ->
  Sheet_SetCell fuel pos text s = Returns tt s' ->
  forall q c f cache,
    live s' q = Some c -> q = pos \/ pos ∈ r_nodes_ c ->
    impl_ c = FormulaImpl f cache -> cache = None.
Proof.
  intros Hreach Hret q c f cache Hc Hq Himpl.
  destruct (SetCell_caches _ _ _ _ _ Hret)
    as (impl & c0 & s1 & Hc0 & Hs1 & Hem & Hthis & Hdeps).
  destruct Hq as [->|Hq]; [apply (Hthis c Hc f cache Himpl)|].
  assert (Hwf' : well_formed s').
  { apply reachable_well_formed.
    apply (reachable_perform fuel (OpSetCell pos text) s s' Hreach).
    simpl. rewrite Hret. reflexivity. }
  destruct (installed_live_this _ _ _ _ _ Hc0 Hs1) as [c1 Hc1].
  destruct (caches_emptied_live_back _ _ _ _ _ Hem Hc1) as (cp & Hcp & Hsame).
  assert (Hl : l_nodes_ cp = l_nodes_ c1)
    by (destruct Hsame as [->|[_ ->]]; reflexivity).
  assert (Hin : q ∈ l_nodes_ c1).
  { rewrite <- Hl. apply (wf_mirrored s' Hwf' q pos c cp Hc Hcp). exact Hq. }
  exact (Hdeps c1 q Hc1 Hin c Hc f cache Himpl).
Qed.

(** X16: a [SetCell(pos, text)] that returned on a reachable sheet has
    filled no cache and has changed no other cell's body: the body of
    another cell is the body before, possibly with its cache emptied; and
    the cache is as before when no path of outgoing edges leads from the
    cell to [pos]. *)
Theorem SetCell_keeps_other_caches fuel pos text s s' :
  reachable s ->
  Sheet_SetCell fuel pos text s = Returns tt s' ->
  forall q c c',
    q <> pos -> live s q = Some c -> live s' q = Some c' ->
    (impl_ c' = impl_ c \/ impl_ c' = Impl_InvalidateCache (impl_ c)) /\
    (~ rtc (edge s') q pos -> impl_ c' = impl_ c).
Proof.
  intros Hreach Hret q c c' Hne Hc Hc'.
  destruct (SetCell_caches _ _ _ _ _ Hret)
    as (impl & c0 & s1 & Hc0 & Hs1 & Hem & _).
  assert (Hwf' : well_formed s').
  { apply reachable_well_formed.
    apply (reachable_perform fuel (OpSetCell pos text) s s' Hreach).
    simpl. rewrite Hret. reflexivity. }
  destruct (installed_other _ _ _ _ _ q c Hs1 Hne
              (live_materialized pos s q c Hc)) as (c1 & Hc1 & Hi1).
  destruct (caches_emptied_live_back _ _ _ _ _ Hem Hc1) as (c2 & Hc2 & Hsame).
  rewrite Hc' in Hc2. injection Hc2 as <-.
  destruct Hsame as [->|[Hpath ->]]; [split; auto|].
  simpl. rewrite Hi1. split; [auto|].
  intros Hno. exfalso. apply Hno.
  eapply rtc_subrel; [|exact Hpath].
  intros a b Hab.
  apply (feeds_edge s' a b (wf_no_dangling s' Hwf') (wf_mirrored s' Hwf')).
  apply (feeds_emptied _ _ _ a b Hem). exact Hab.
Qed.

End Caches.


(** * Values depend on the cells a formula reaches, and on nothing else *)

Section Alike.
Context {E : Sheet -> Sheet -> Prop}.

Lemma alike_ret {A} (a : A) : alike E (ret a) (ret a).
Proof. intros s1 s2 HE. simpl. auto. Qed.

Lemma alike_throw {A} e : alike E (throw (A := A) e) (throw e).
Proof. intros s1 s2 HE. simpl. auto. Qed.

Lemma compatible_l {A} (o : Outcome A) : compatible E Undefined o.
Proof. destruct o; exact I. Qed.

Lemma compatible_r {A} (o : Outcome A) : compatible E o Undefined.
Proof. destruct o; exact I. Qed.

Lemma compatible_fuel_l {A} (o : Outcome A) : compatible E OutOfFuel o.
Proof. destruct o; exact I. Qed.

Lemma compatible_fuel_r {A} (o : Outcome A) : compatible E o OutOfFuel.
Proof. destruct o; exact I. Qed.

Lemma alike_bind {A B} (m1 m2 : M A) (k1 k2 : A -> M B) :
  alike E m1 m2 -> (forall a, alike E (k1 a) (k2 a)) ->
  alike E (bind m1 k1) (bind m2 k2).
Proof.
  intros Hm Hk s1 s2 HE. specialize (Hm s1 s2 HE). unfold bind.
  destruct (m1 s1) as [a1 t1|e1 t1| |], (m2 s2) as [a2 t2|e2 t2| |];
    simpl in Hm; try contradiction;
    first [apply compatible_l|apply compatible_r|apply compatible_fuel_l
          |apply compatible_fuel_r|idtac].
  - destruct Hm as [<- HE']. apply Hk. exact HE'.
  - exact Hm.
Qed.

Lemma alike_catch {A} (m1 m2 : M A) h1 h2 :
  alike E m1 m2 -> (forall e, alike E (h1 e) (h2 e)) ->
  alike E (catch_FormulaError m1 h1) (catch_FormulaError m2 h2).
Proof.
  intros Hm Hh s1 s2 HE. specialize (Hm s1 s2 HE). unfold catch_FormulaError.
  destruct (m1 s1) as [a1 t1|e1 t1| |], (m2 s2) as [a2 t2|e2 t2| |];
    simpl in Hm; try contradiction;
    first [apply compatible_l|apply compatible_r|apply compatible_fuel_l
          |apply compatible_fuel_r|idtac].
  - exact Hm.
  - destruct Hm as [<- HE']. destruct e1; simpl; auto. apply Hh. exact HE'.
Qed.

Lemma alike_Execute e args1 args2 :
  (forall p, p ∈ GetCells e -> alike E (args1 p) (args2 p)) ->
  alike E (Execute e args1) (Execute e args2).
Proof.
  induction e as [d|p|op a IH|op l IHl r IHr]; intros Hargs; simpl.
  - apply alike_ret.
  - apply Hargs. left.
  - apply alike_bind; [apply IH; exact Hargs|]. intros v.
    unfold checked. destruct (is_finite _); [apply alike_ret|apply alike_throw].
  - apply alike_bind.
    { apply IHl. intros p Hp. apply Hargs. simpl. apply elem_of_app. auto. }
    intros a. apply alike_bind.
    { apply IHr. intros p Hp. apply Hargs. simpl. apply elem_of_app. auto. }
    intros b.
    unfold checked. destruct (is_finite _); [apply alike_ret|apply alike_throw].
Qed.

End Alike.

Section ValueFrame.
Context `{Platform}.
Variable U : Position -> Prop.

Lemma body_structure s s' p :
  structure s = structure s' -> body s p = body s' p.
Proof.
  intros Hs. pose proof (structure_live s s' p Hs) as Hl. unfold body.
  destruct (live s p) as [c|], (live s' p) as [c'|]; simpl in Hl;
    try discriminate; [|reflexivity].
  assert (Hf : Cell_forget c = Cell_forget c') by congruence.
  apply (f_equal impl_) in Hf. exact Hf.
Qed.

Lemma same_bodies_structure s1 s2 t1 t2 :
  structure t1 = structure s1 -> structure t2 = structure s2 ->
  same_bodies U s1 s2 -> same_bodies U t1 t2.
Proof.
  intros H1 H2 [Hb Hc]. split.
  - intros p Hp.
    rewrite (body_structure t1 s1 p H1), (body_structure t2 s2 p H2). auto.
  - intros p q Hp. rewrite (body_structure t1 s1 p H1). apply Hc. exact Hp.
Qed.

Lemma compatible_agree {A} (o1 p1 o2 p2 : Outcome A) s1 s2 :
  agree eq s1 s1 o1 p1 -> agree eq s2 s2 o2 p2 ->
  compatible (same_bodies U) p1 p2 -> compatible (same_bodies U) o1 o2.
Proof.
  destruct o1 as [a1 t1|e1 t1| |], p1 as [b1 u1|f1 u1| |]; simpl;
    try contradiction; intros H1;
    destruct o2 as [a2 t2|e2 t2| |], p2 as [b2 u2|f2 u2| |]; simpl;
    try contradiction; intros H2 Hc; try exact I;
    destruct H1 as (-> & Ht1 & Hu1), H2 as (-> & Ht2 & Hu2),
             Hc as (-> & Hc); (split; [reflexivity|]);
    apply (same_bodies_structure u1 u2); congruence.
Qed.

Lemma alike_count :
  alike (same_bodies U) count_Evaluate count_Evaluate.
Proof.
  intros s1 s2 HE. simpl. split; [reflexivity|].
  apply (same_bodies_structure s1 s2); [reflexivity|reflexivity|exact HE].
Qed.

Lemma alike_cache this v :
  alike (same_bodies U) (update this (set_cache v)) (update this (set_cache v)).
Proof.
  intros s1 s2 HE.
  destruct (live s1 this) as [c1|] eqn:H1.
  2:{ unfold update. rewrite (bind_deref_dead _ _ _ H1). apply compatible_l. }
  destruct (live s2 this) as [c2|] eqn:H2.
  2:{ unfold update at 2. rewrite (bind_deref_dead _ _ _ H2). apply compatible_r. }
  rewrite (update_live _ _ _ _ H1), (update_live _ _ _ _ H2). simpl.
  split; [reflexivity|].
  apply (same_bodies_structure s1 s2); [..|exact HE];
    (eapply structure_store; [eassumption|apply set_cache_forget]).
Qed.

Lemma alike_ConvertStringToDouble str :
  alike (same_bodies U) (ConvertStringToDouble str) (ConvertStringToDouble str).
Proof.
  unfold ConvertStringToDouble. destruct str; [apply alike_ret|].
  destruct (ReadDouble _) as [[d|] []];
    first [apply alike_ret|apply alike_throw].
Qed.

(** What [EvaluateCell] makes of an empty cell: the number 0, as of a
    position without a cell. *)
Lemma EvaluateCell_empty n p s c :
  IsValid p = true -> live s p = Some c -> impl_ c = EmptyImpl ->
  Formula_EvaluateCell (Cell_GetValue n) p s
  = match n with O => OutOfFuel | S _ => Returns 0%float s end.
Proof.
  intros Hv Hc Himpl. rewrite (EvaluateCell_unfold _ p s Hv), Hc.
  destruct n as [|n]; [reflexivity|].
  assert (Hval : Cell_GetValue (S n) p s = Returns (CellInterface.Text "") s).
  { simpl. rewrite (bind_deref_live _ _ _ _ Hc), Himpl. reflexivity. }
  rewrite (bind_Returns _ _ _ _ _ Hval). simpl.
  rewrite (bind_Returns _ _ _ _ _ Hval). simpl.
  rewrite (bind_Returns _ _ _ _ _ Hval). reflexivity.
Qed.

Lemma invalidate_empty impl :
  Impl_InvalidateCache impl = EmptyImpl -> impl = EmptyImpl.
Proof. destruct impl; simpl; congruence. Qed.

Lemma EvaluateCell_alike n p :
  (IsValid p = true ->
   U p /\ alike (same_bodies U) (Cell_GetValue n p) (Cell_GetValue n p)) ->
  alike (same_bodies U) (Formula_EvaluateCell (Cell_GetValue n) p)
    (Formula_EvaluateCell (Cell_GetValue n) p).
Proof.
  intros Hp s1 s2 HE. destruct (IsValid p) eqn:Hv.
  2:{ unfold Formula_EvaluateCell. rewrite Hv. simpl. auto. }
  destruct (Hp eq_refl) as [HU HGV]. clear Hp.
  pose proof (proj1 HE p HU) as Hb. unfold body in Hb.
  destruct (live s1 p) as [c1|] eqn:H1, (live s2 p) as [c2|] eqn:H2.
  - rewrite !(EvaluateCell_unfold _ p _ Hv), H1, H2.
    revert s1 s2 HE c1 c2 H1 H2 Hb. intros s1 s2 HE _ _ _ _ _. revert s1 s2 HE.
    apply alike_bind; [exact HGV|]. intros v1.
    destruct (holds_double v1).
    { apply alike_bind; [exact HGV|]. intros v2.
      destruct v2; first [apply alike_ret|apply alike_throw]. }
    apply alike_bind; [exact HGV|]. intros v2.
    destruct (holds_string v2).
    + apply alike_bind; [exact HGV|]. intros v3.
      apply alike_bind;
        [destruct v3; first [apply alike_ret|apply alike_throw]|].
      intros str. apply alike_ConvertStringToDouble.
    + apply alike_bind; [exact HGV|]. intros v3.
      apply alike_bind;
        [destruct v3; first [apply alike_ret|apply alike_throw]|].
      intros e. apply alike_throw.
  - rewrite (EvaluateCell_empty n p s1 c1 Hv H1 (invalidate_empty _ Hb)).
    rewrite (EvaluateCell_unfold _ p s2 Hv), H2.
    destruct n; [exact I|]. simpl. auto.
  - rewrite (EvaluateCell_empty n p s2 c2 Hv H2
               (invalidate_empty _ (eq_sym Hb))).
    rewrite (EvaluateCell_unfold _ p s1 Hv), H1.
    destruct n; [exact I|]. simpl. auto.
  - rewrite !(EvaluateCell_unfold _ p _ Hv), H1, H2. simpl. auto.
Qed.

Lemma GetValue_alike n :
  forall this, U this ->
    alike (same_bodies U) (Cell_GetValue n this) (Cell_GetValue n this).
Proof.
  induction n as [|n IH]; intros this HU s1 s2 HE; [exact I|].
  destruct (live s1 this) as [c1|] eqn:H1.
  2:{ simpl. rewrite (bind_deref_dead _ _ _ H1). apply compatible_l. }
  destruct (live s2 this) as [c2|] eqn:H2.
  2:{ simpl. rewrite (bind_deref_dead _ _ _ H2). apply compatible_r. }
  pose proof (proj1 HE this HU) as Hb. unfold body in Hb. rewrite H1, H2 in Hb.
  destruct (impl_ c1) as [|t1|f cache1] eqn:Hi1,
           (impl_ c2) as [|t2|f2 cache2] eqn:Hi2;
    simpl in Hb; try discriminate.
  - simpl. rewrite (bind_deref_live _ _ _ _ H1), (bind_deref_live _ _ _ _ H2).
    rewrite Hi1, Hi2. simpl. auto.
  - injection Hb as <-. simpl.
    rewrite (bind_deref_live _ _ _ _ H1), (bind_deref_live _ _ _ _ H2).
    rewrite Hi1, Hi2. simpl. auto.
  - injection Hb as <-.
    apply (compatible_agree _ _ _ _ s1 s2
             (GetValue_plain n this s1 c1 f cache1 H1 Hi1)
             (GetValue_plain n this s2 c2 f cache2 H2 Hi2)).
    assert (Hrefs : forall p, p ∈ GetCells (ast_ f) -> IsValid p = true -> U p).
    { intros p Hp Hv. apply (proj2 HE this p HU). unfold body.
      rewrite H1, Hi1. simpl. apply Formula_GetReferencedCells_elem_of. auto. }
    revert s1 s2 HE c1 c2 H1 H2 Hi1 Hi2.
    intros s1 s2 HE _ _ _ _ _ _. revert s1 s2 HE.
    apply alike_bind; [|intros v; apply alike_ret].
    unfold Formula_Evaluate.
    apply alike_bind; [apply alike_count|]. intros _.
    apply alike_catch; [|intros e; apply alike_ret].
    apply alike_bind; [|intros d; apply alike_ret].
    apply alike_Execute. intros p Hp. apply EvaluateCell_alike.
    intros Hv. split; [apply Hrefs; assumption|].
    apply IH. apply Hrefs; assumption.
Qed.

End ValueFrame.

Section ValuesKept.
Context `{Platform}.

Lemma invalidate_refs impl :
  Impl_GetReferencedCells (Impl_InvalidateCache impl)
  = Impl_GetReferencedCells impl.
Proof. destruct impl; reflexivity. Qed.

(** The cells a cell reaches along outgoing edges have, after a [SetCell]
    elsewhere that returned, the bodies they had. *)
Lemma SetCell_same_bodies fuel pos text s s' q :
  well_formed s ->
  Sheet_SetCell fuel pos text s = Returns tt s' ->
  ~ rtc (edge s) q pos ->
  same_bodies (fun p => rtc (edge s) q p) s s'.
Proof.
  intros Hwf Hret Hfar.
  destruct (SetCell_cell _ _ _ _ _ Hret) as (impl & _ & Himpl & _).
  destruct (SetCell_cells _ _ _ _ _ _ Hwf Hret Himpl) as (Hold & _ & Hcells).
  split.
  - intros p Hp. assert (Hne : p <> pos) by (intros ->; contradiction).
    unfold body. destruct (live s' p) as [c'|] eqn:Hc'.
    + destruct (Hcells p c' Hc')
        as [(c & Hc & Hi & _)|(Hnone & _ & _ & Hi & _)].
      * rewrite decide_False in Hi by exact Hne.
        rewrite (materialized_live_inv _ _ _ _ Hc Hne). congruence.
      * destruct (live s p) as [c|] eqn:Hc.
        { apply (live_materialized pos) in Hc. congruence. }
        rewrite Hi. reflexivity.
    + destruct (live s p) as [c|] eqn:Hc; [|reflexivity].
      destruct (Hold p c (live_materialized pos s p c Hc)) as [c' Habs].
      congruence.
  - intros p x Hp Hx. unfold body in Hx.
    destruct (live s p) as [c|] eqn:Hc; [|inversion Hx].
    rewrite invalidate_refs in Hx.
    eapply rtc_r; [exact Hp|]. exists c. split; [exact Hc|].
    rewrite (wf_outgoing s Hwf p c Hc). apply elem_of_list_to_set. exact Hx.
Qed.

(** X17: a [SetCell(pos, text)] that returned on a reachable sheet has not
    changed the value of a cell from which no path of outgoing edges leads
    to [pos]: given fuel, [GetValue] of such a cell returns, before and
    after the call, one and the same value. *)
Theorem SetCell_keeps_other_values fuel pos text s s' q :
  reachable s ->
  Sheet_SetCell fuel pos text s = Returns tt s' ->
  is_Some (live s q) ->
  ~ rtc (edge s) q pos ->
  exists n0, forall n, (n0 <= n)%nat ->
    exists v t t',
      Cell_GetValue n q s = Returns v t /\
      Cell_GetValue n q s' = Returns v t'.
Proof.
  intros Hreach Hret [c Hc] Hfar.
  pose proof (reachable_well_formed s Hreach) as Hwf.
  assert (Hreach' : reachable s').
  { apply (reachable_perform fuel (OpSetCell pos text) s s' Hreach).
    simpl. rewrite Hret. reflexivity. }
  pose proof (reachable_well_formed s' Hreach') as Hwf'.
  destruct (SetCell_cell _ _ _ _ _ Hret) as (impl & _ & Himpl & _).
  destruct (SetCell_cells _ _ _ _ _ _ Hwf Hret Himpl) as (Hold & _ & _).
  destruct (Hold q c (live_materialized pos s q c Hc)) as [c' Hc'].
  destruct (wf_ranked s Hwf) as (rank & bound & Hr).
  destruct (wf_ranked s' Hwf') as (rank' & bound' & Hr').
  exists (Nat.max bound bound'). intros n Hn.
  destruct (GetValue_total rank bound n q s Hwf Hr) as (v & t & Hv).
  { eauto. }
  { pose proof (proj1 (Hr q c Hc)). lia. }
  destruct (GetValue_total rank' bound' n q s' Hwf' Hr') as (v' & t' & Hv').
  { eauto. }
  { pose proof (proj1 (Hr' q c' Hc')). lia. }
  pose proof (GetValue_alike (fun p => rtc (edge s) q p) n q (rtc_refl _ q)
                s s' (SetCell_same_bodies _ _ _ _ _ _ Hwf Hret Hfar)) as Hsame.
  rewrite Hv, Hv' in Hsame. simpl in Hsame. destruct Hsame as [<- _].
  exists v, t, t'. auto.
Qed.

End ValuesKept.


(** * Caches and values on concrete sheets *)

Section CommonBoundsCaches.
Local Existing Instance Reference.common.

Lemma reachable_A1_reads_B1_cached : reachable sheet_A1_reads_B1_cached.
Proof.
  apply (reachable_perform 4 (OpGetValue A1) sheet_A1_reads_B1);
    [exact reachable_A1_reads_B1|].
  vm_compute. reflexivity.
Qed.

Lemma B1_becomes_5 :
  Sheet_SetCell 4 B1 "5" sheet_A1_reads_B1_cached = Returns tt sheet_B1_is_5.
Proof. vm_compute. reflexivity. Qed.

Lemma A2_reads_A1 :
  Sheet_SetCell 4 A2 "=A1" sheet_A1_reads_B1 = Returns tt sheet_A2_reads_A1.
Proof. vm_compute. reflexivity. Qed.

Lemma A1_does_not_reach_A2 : ~ rtc (edge sheet_A1_reads_B1) A1 A2.
Proof.
  assert (Hstay : forall a b, rtc (edge sheet_A1_reads_B1) a b ->
            a = A1 \/ a = B1 -> b = A1 \/ b = B1).
  { induction 1 as [|a b c (ca & Hca & Hb) _ IH]; [auto|].
    intros Ha. apply IH. right.
    unfold live in Hca. simpl in Hca. destruct Ha as [->| ->].
    - rewrite lookup_insert_eq in Hca. injection Hca as <-.
      simpl in Hb. apply elem_of_singleton in Hb. exact Hb.
    - rewrite lookup_insert_ne in Hca by discriminate.
      rewrite lookup_insert_eq in Hca. injection Hca as <-.
      simpl in Hb. apply elem_of_empty in Hb. contradiction. }
  intros Hpath. destruct (Hstay A1 A2 Hpath (or_introl eq_refl)); discriminate.
Qed.

Lemma SetCell_empties_caches_witness :
  match live sheet_B1_is_5 A1 with
  | Some c => match impl_ c with FormulaImpl _ cache => cache | _ => None end
  | None => None
  end = None.
Proof.
  destruct (live sheet_B1_is_5 A1) as [c|] eqn:Hc; [|reflexivity].
  destruct (impl_ c) as [|t|f cache] eqn:Hi; try reflexivity.
  apply (SetCell_empties_caches 4 B1 "5" sheet_A1_reads_B1_cached
           sheet_B1_is_5 reachable_A1_reads_B1_cached B1_becomes_5 A1
           c f cache Hc); [|exact Hi].
  right. unfold live in Hc. simpl in Hc. rewrite lookup_insert_eq in Hc.
  injection Hc as <-. by_evaluation.
Defined.

Lemma SetCell_keeps_other_caches_witness :
  FormulaImpl (mkFormula (CellExpr B1)) None
  = FormulaImpl (mkFormula (CellExpr B1)) (Some (FormulaInterface.Number 0)) \/
  FormulaImpl (mkFormula (CellExpr B1)) None
  = Impl_InvalidateCache
      (FormulaImpl (mkFormula (CellExpr B1))
         (Some (FormulaInterface.Number 0))).
Proof.
  assert (Hne : A1 <> B1) by discriminate.
  exact (proj1 (SetCell_keeps_other_caches 4 B1 "5" sheet_A1_reads_B1_cached
                  sheet_B1_is_5 reachable_A1_reads_B1_cached B1_becomes_5 A1
                  (mkCell (FormulaImpl (mkFormula (CellExpr B1))
                             (Some (FormulaInterface.Number 0))) ∅ {[ B1 ]})
                  (mkCell (FormulaImpl (mkFormula (CellExpr B1)) None)
                          ∅ {[ B1 ]})
                  Hne eq_refl eq_refl)).
Defined.

Lemma SetCell_keeps_other_values_witness :
  exists n0, forall n, (n0 <= n)%nat ->
    exists v t t',
      Cell_GetValue n A1 sheet_A1_reads_B1 = Returns v t /\
      Cell_GetValue n A1 sheet_A2_reads_A1 = Returns v t'.
Proof.
  apply (SetCell_keeps_other_values 4 A2 "=A1" sheet_A1_reads_B1
           sheet_A2_reads_A1 A1 reachable_A1_reads_B1 A2_reads_A1).
  - eexists. reflexivity.
  - exact A1_does_not_reach_A2.
Defined.

End CommonBoundsCaches.
